(** * IVF frame repair and VMAF bucketing: a shallow embedding

    The development follows the module that parses IVF captures
    ([parseIvf]), rewrites them with the gaps filled ([fixIvfFrames]) and
    buckets the per-frame VMAF series ([writeGraph]).

    Modelling conventions.
    - A JavaScript [number] is a double.  A timestamp is an integer-valued
      double or [Infinity]: it is a [Z], with [Infinity] written [2^1024],
      and every addition and subtraction rounds its exact result to the
      nearest double ([to_double]).  The byte offsets and the frame counters
      are exact integers, as they are for a file of fewer than 2^53 bytes.
    - A number that need not be an integer (the frame rate, a product with
      it, a VMAF bucket) is a [number]: the exact rational value of the
      double, an infinity, or [NaN]; every operation rounds its exact result
      ([round_double]).  Zero carries no sign.
    - A file is a [list byte]; a positional read returns the bytes that are
      there, a positional write pads with zero bytes up to its offset.
    - A [Map] is an association list in insertion order, as iteration over a
      JavaScript [Map] observes it.
    - The text recognizer is an input: for every catalogued frame it gives
      the value the task stored for it, if the task stored one. *)

From Stdlib Require Import Strings.String.
From Stdlib Require Import ZArith List Bool Lia Strings.Byte QArith Qround Qreduction.
From Stdlib Require Import Sorting.Sorted Sorting.Permutation Sorting.Mergesort.
From Stdlib Require Orders.
Import ListNotations.

Local Open Scope Z_scope.

(** ** Bytes and little-endian fields *)

Definition byte_val (b : byte) : Z := Z.of_N (Byte.to_N b).

Definition byte_of_Z (z : Z) : byte :=
  match Byte.of_N (Z.to_N (z mod 256)) with
  | Some b => b
  | None => x00
  end.

(** [DataView.getUintN(off, true)] on the bytes of the field. *)
Fixpoint le_decode (bs : list byte) : Z :=
  match bs with
  | [] => 0
  | b :: bs' => byte_val b + 256 * le_decode bs'
  end.

(** The [n] bytes [DataView.setUintN(off, z, true)] stores: [z] modulo
    [256^n], least significant byte first. *)
Fixpoint le_encode (n : nat) (z : Z) : list byte :=
  match n with
  | O => []
  | S n' => byte_of_Z z :: le_encode n' (z / 256)
  end.

(** A buffer read: [len] bytes from offset [off]. *)
Definition slice (off len : nat) (buf : list byte) : list byte :=
  firstn len (skipn off buf).

(** A buffer write: the bytes at [off ..] are replaced, the length of the
    buffer is kept.  The callers only patch fields that lie inside. *)
Definition patch (off : nat) (bs buf : list byte) : list byte :=
  firstn off buf ++ bs ++ skipn (off + length bs) buf.

Definition getUint16 (buf : list byte) (off : nat) : Z := le_decode (slice off 2 buf).
Definition getUint32 (buf : list byte) (off : nat) : Z := le_decode (slice off 4 buf).
Definition getBigUint64 (buf : list byte) (off : nat) : Z := le_decode (slice off 8 buf).
Definition setUint32 (buf : list byte) (off : nat) (z : Z) : list byte :=
  patch off (le_encode 4 z) buf.
Definition setBigUint64 (buf : list byte) (off : nat) (z : Z) : list byte :=
  patch off (le_encode 8 z) buf.

(** ** Files *)

Definition zeros (n : nat) : list byte := repeat x00 n.

(** [fd.read(view, 0, len, position)]: the bytes read; fewer than [len] at
    the end of the file. *)
Definition pread (file : list byte) (position : Z) (len : nat) : list byte :=
  firstn len (skipn (Z.to_nat position) file).

(** The buffer after such a read into a fresh, zero-filled [ArrayBuffer]. *)
Definition read_into_fresh (file : list byte) (position : Z) (len : nat) : list byte :=
  let got := pread file position len in
  got ++ zeros (len - length got).

(** [fd.write(bytes, 0, bytes.length, position)]. *)
Definition pwrite (file : list byte) (position : Z) (bs : list byte) : list byte :=
  let p := Z.to_nat position in
  firstn p file ++ zeros (p - length file) ++ bs ++ skipn (p + length bs) file.

(** ** Numbers

    Doubles have 53 significant bits, exponents up to 1023 and subnormals
    down to 2^-1074; an operation returns its exact result rounded to the
    nearest double, a tie going to the even significand, and a result that
    rounds to 2^1024 or more is an infinity. *)

(** [n / d] rounded to the nearest integer, a tie to the even one, for a
    positive [d]. *)
Definition round_half_even (n d : Z) : Z :=
  let q := n / d in
  match 2 * (n mod d) ?= d with
  | Lt => q
  | Gt => q + 1
  | Eq => if Z.even q then q else q + 1
  end.

Definition infinity : Z := 2 ^ 1024.

(** The double nearest to an integer. *)
Definition to_double (z : Z) : Z :=
  let a := Z.abs z in
  let x := Z.log2 a - 52 in
  if x <=? 0 then z
  else
    let r := round_half_even a (2 ^ x) * 2 ^ x in
    Z.sgn z * (if infinity <=? r then infinity else r).

Definition is_infinite (z : Z) : bool := infinity <=? Z.abs z.

(** [a + b] and [a - b] on timestamps.  The sum of two opposite infinities
    is [NaN]; it is written 0, which every test the code applies to such a
    result ([> 0], truthiness) cannot tell from [NaN]. *)
Definition js_plus (a b : Z) : Z :=
  if is_infinite a then
    if is_infinite b && negb (Z.sgn a =? Z.sgn b) then 0 else Z.sgn a * infinity
  else if is_infinite b then Z.sgn b * infinity
  else to_double (a + b).

Definition js_minus (a b : Z) : Z := js_plus a (- b).

Inductive number :=
| Finite (q : Q)
| Infinity
| MinusInfinity
| NaN.

(** The integer part of the binary logarithm of [n / d], for positive [n]
    and [d]. *)
Definition log2_ratio (n d : Z) : Z :=
  let e := Z.log2 n - Z.log2 d in
  if (if 0 <=? e then d * 2 ^ e <=? n else d <=? n * 2 ^ (- e)) then e else e - 1.

(** The double nearest to the positive rational [n / d]: the last kept bit
    has exponent [x]. *)
Definition round_positive (n d : Z) : number :=
  let x := Z.max (log2_ratio n d - 52) (-1074) in
  if 0 <=? x then
    let m := round_half_even n (d * 2 ^ x) in
    if infinity <=? m * 2 ^ x then Infinity else Finite (Qred (m * 2 ^ x # 1))
  else
    let m := round_half_even (n * 2 ^ (- x)) d in
    Finite (Qred (m # Z.to_pos (2 ^ (- x)))).

Definition js_negate (n : number) : number :=
  match n with
  | Finite q => Finite (Qred (- q))
  | Infinity => MinusInfinity
  | MinusInfinity => Infinity
  | NaN => NaN
  end.

(** The double nearest to a rational. *)
Definition round_double (q : Q) : number :=
  match Qnum q with
  | Z0 => Finite 0
  | Zpos n => round_positive (Zpos n) (Zpos (Qden q))
  | Zneg n => js_negate (round_positive (Zpos n) (Zpos (Qden q)))
  end.

(** The sign of a number that is not [NaN]. *)
Definition js_sign (n : number) : Z :=
  match n with
  | Finite q => Z.sgn (Qnum q)
  | Infinity => 1
  | MinusInfinity => -1
  | NaN => 0
  end.

Definition signed_infinity (s : Z) : number :=
  match s with
  | Z0 => NaN
  | Zpos _ => Infinity
  | Zneg _ => MinusInfinity
  end.

(** [a * b]. *)
Definition js_mul (a b : number) : number :=
  match a, b with
  | NaN, _ | _, NaN => NaN
  | Finite p, Finite q => round_double (p * q)
  | _, _ => signed_infinity (js_sign a * js_sign b)
  end.

(** [a / b]. *)
Definition js_div (a b : number) : number :=
  match a, b with
  | NaN, _ | _, NaN => NaN
  | Finite p, Finite q =>
      if Qeq_bool q 0 then signed_infinity (js_sign a) else round_double (p / q)
  | Finite _, _ => Finite 0
  | _, Finite q => signed_infinity (js_sign a * (if Qeq_bool q 0 then 1 else js_sign b))
  | _, _ => NaN
  end.

(** [a + b]. *)
Definition js_add (a b : number) : number :=
  match a, b with
  | NaN, _ | _, NaN => NaN
  | Finite p, Finite q => round_double (p + q)
  | Infinity, MinusInfinity | MinusInfinity, Infinity => NaN
  | Finite _, _ => b
  | _, _ => a
  end.

(** A timestamp as a number. *)
Definition number_of (z : Z) : number :=
  if is_infinite z then signed_infinity (Z.sgn z) else Finite (inject_Z z).

(** [Math.round]: the nearest integer, a half going up.  [NaN] is written
    0. *)
Definition math_round (n : number) : Z :=
  match n with
  | Finite q => Qfloor (q + (1 # 2))
  | Infinity => infinity
  | MinusInfinity => - infinity
  | NaN => 0
  end.

(** [a > b] for a timestamp [a]. *)
Definition js_gt (a : Z) (b : number) : bool :=
  match b with
  | Finite q =>
      if is_infinite a then 0 <? a else negb (Qle_bool (inject_Z a) q)
  | Infinity => false
  | MinusInfinity => negb (is_infinite a && (a <? 0))
  | NaN => false
  end.

(** ** Maps in insertion order *)

Section JsMap.
Context {V : Type}.

Definition Map := list (Z * V).

Fixpoint map_get (m : Map) (k : Z) : option V :=
  match m with
  | [] => None
  | (k', v) :: m' => if k =? k' then Some v else map_get m' k
  end.

Definition map_has (m : Map) (k : Z) : bool :=
  match map_get m k with Some _ => true | None => false end.

(** [Map.set]: an existing key keeps its place, a new one goes last. *)
Fixpoint map_set (m : Map) (k : Z) (v : V) : Map :=
  match m with
  | [] => [(k, v)]
  | (k', v') :: m' =>
      if k =? k' then (k', v) :: m' else (k', v') :: map_set m' k v
  end.

Fixpoint map_delete (m : Map) (k : Z) : Map :=
  match m with
  | [] => []
  | (k', v') :: m' =>
      if k =? k' then m' else (k', v') :: map_delete m' k
  end.

Definition map_keys (m : Map) : list Z := map fst m.

Definition map_size (m : Map) : Z := Z.of_nat (length m).
End JsMap.

Arguments Map V : clear implicits.

(** ** [Array.prototype.sort((a, b) => a - b)] *)

Module ZOrder <: Orders.TotalLeBool.
Definition t := Z.
Definition leb := Z.leb.
Theorem leb_total : forall a b, leb a b = true \/ leb b a = true.
Proof.
  intros a b. unfold leb.
  destruct (Z.leb_spec a b); [now left | right]; apply Z.leb_le; lia.
Qed.
End ZOrder.

Module ZSort := Sort ZOrder.

Definition sort_ascending (l : list Z) : list Z := ZSort.sort l.

(** ** The catalogue *)

Record IvfFrame := {
  index : Z;
  position : Z;
  size : Z
}.

Record IvfInfo := {
  width : Z;
  height : Z;
  frameRate : number;
  ptsIndex : list Z;
  frames : Map IvfFrame;
  participantDisplayName : String.string
}.

(** The errors thrown.  [RangeError] is what [BigInt] throws for a number
    that is not an integer.  [OutOfFuel] stands for a loop that did not end
    within its budget; [parseIvf_throws] shows that the parse never returns
    it. *)
Inductive Error :=
| InvalidIvfFile
| NoParticipantName
| NoFramesFound
| TooManyFramesMissing (missing : Z)
| RangeError
| OutOfFuel.

Inductive Result (A : Type) :=
| Ok (a : A)
| Throw (e : Error).

Arguments Ok {A} a.
Arguments Throw {A} e.

(** ** The parse pass *)

(** The variables the loop over the frame headers updates, next to
    [position]: the running [index], the catalogue [frames], and the
    timestamps of the frames skipped with a warning, latest first. *)
Record ParseState := {
  loop_index : Z;
  loop_frames : Map IvfFrame;
  loop_warned : list Z
}.

(** The end of the loop body: a timestamp that is already catalogued is
    skipped with a warning, any other is catalogued. *)
Definition record_frame (st : ParseState) (position size pts : Z) : ParseState :=
  if map_has (loop_frames st) pts then
    {| loop_index := loop_index st;
       loop_frames := loop_frames st;
       loop_warned := pts :: loop_warned st |}
  else
    {| loop_index := loop_index st + 1;
       loop_frames :=
         map_set (loop_frames st) pts
           {| index := loop_index st; position := position; size := size + 12 |};
       loop_warned := loop_warned st |}.

(** [Number(frameHeaderView.getBigUint64(4, true))]: the double nearest to
    the 8-byte field. *)
Definition frame_pts (frameHeaderView : list byte) : Z :=
  to_double (getBigUint64 frameHeaderView 4).

(** The [do ... while] loop.  It stops at the first read that does not
    return 12 bytes.  The loop has a budget; [parse_loop_total] shows that
    the length of the file is always enough. *)
Fixpoint parse_loop (fuel : nat) (file : list byte) (position : Z) (st : ParseState)
    : option ParseState :=
  match fuel with
  | O => None
  | S fuel' =>
      let frameHeaderView := pread file position 12 in
      if negb (length frameHeaderView =? 12)%nat then Some st
      else
        let size := getUint32 frameHeaderView 0 in
        let pts := frame_pts frameHeaderView in
        parse_loop fuel' file (position + (size + 12)) (record_frame st position size pts)
  end.

Definition parse_frames (file : list byte) : option ParseState :=
  parse_loop (S (length file)) file 32
    {| loop_index := 0; loop_frames := []; loop_warned := [] |}.

(** ** The recognizer and the reconciliation pass *)

(** What the recognition tasks leave behind: for the frame catalogued under a
    container timestamp, the value the task stored for it in
    [ptsToRecognized] (0 when the text was not recognized, else
    [Math.round((frameRate * recognizedTime) / 1000)]), or nothing when the
    task stored nothing; and the display name the tasks left.  A stored
    value is a timestamp: [Infinity] is [infinity], and [NaN] is written 0,
    since the passes that follow only test a stored value for truthiness
    before they use it.  The tasks of a chunk finish in any order; each
    stores under its own key, and the pass that follows reads the map by key
    only. *)
Record Recognizer := {
  stored : Z -> option N;
  displayName : String.string
}.

(** What [recognizeFrame] gets from the text recognizer: [data.confidence]
    and [parseInt(data.text.trim() || '0')], a timestamp that is not
    negative since only digits are recognized ([NaN] is written 0: both
    fail the test [!recognizedTime]). *)
Record OcrResult := {
  confidence : Q;
  recognizedTime : Z
}.

(** [Math.round((frameRate * recognizedTime) / 1000)]. *)
Definition recognizedPts (frameRate : number) (recognizedTime : Z) : Z :=
  math_round (js_div (js_mul frameRate (number_of recognizedTime)) (Finite 1000)).

(** The value [recognizeFrame] stores for a frame. *)
Definition stored_value (frameRate : number) (o : OcrResult) : N :=
  if negb (Qle_bool 75 (confidence o)) || (recognizedTime o =? 0)
  then 0%N
  else Z.to_N (recognizedPts frameRate (recognizedTime o)).

(** The recognizer of a run on a file whose header gives [frameRate], in
    which the task of the frame under timestamp [pts] got the answer
    [ocr pts]. *)
Definition recognizer_from_ocr (frameRate : number) (ocr : Map OcrResult)
    (name : string) : Recognizer :=
  {| stored := fun pts => option_map (stored_value frameRate) (map_get ocr pts);
     displayName := name |}.

Definition recognize_all (r : Recognizer) (keys : list Z) : Map Z :=
  fold_left
    (fun m pts =>
       match stored r pts with
       | Some v => map_set m pts (Z.of_N v)
       | None => m
       end)
    keys [].

(** Truthiness of the result of [Map.get] on a map of numbers. *)
Definition truthy (o : option Z) : bool :=
  match o with
  | Some v => negb (v =? 0)
  | None => false
  end.

Definition reconcile_step (ptsIndex : list Z) (ptsToRecognized : Map Z)
    (i : nat) (pts : Z) : Map Z :=
  let recognizedPts := map_get ptsToRecognized pts in
  if negb (truthy recognizedPts) && negb (i =? 0)%nat then
    let prevRecognizedPts := map_get ptsToRecognized (nth (i - 1) ptsIndex 0) in
    match prevRecognizedPts with
    | Some prev =>
        if negb (prev =? 0)
        then map_set ptsToRecognized pts
               (js_minus (js_plus prev pts) (nth (i - 1) ptsIndex 0))
        else map_delete ptsToRecognized pts
    | None => map_delete ptsToRecognized pts
    end
  else ptsToRecognized.

(** [for (const [i, pts] of ptsIndex.entries())]: [rest] is what is left of
    [ptsIndex] from position [i] on. *)
Fixpoint reconcile_loop (ptsIndex : list Z) (i : nat) (rest : list Z)
    (ptsToRecognized : Map Z) : Map Z :=
  match rest with
  | [] => ptsToRecognized
  | pts :: rest' =>
      reconcile_loop ptsIndex (S i) rest' (reconcile_step ptsIndex ptsToRecognized i pts)
  end.

Definition reconcile (ptsToRecognized : Map Z) : Map Z :=
  let ptsIndex := sort_ascending (map_keys ptsToRecognized) in
  reconcile_loop ptsIndex 0 ptsIndex ptsToRecognized.

(** The re-keying of the catalogue, in the iteration order of [frames]. *)
Definition rekey_step (ptsToRecognized : Map Z) (recognizedFrames : Map IvfFrame)
    (entry : Z * IvfFrame) : Map IvfFrame :=
  let recognizedPts := map_get ptsToRecognized (fst entry) in
  match recognizedPts with
  | Some r => if negb (r =? 0) then map_set recognizedFrames r (snd entry) else recognizedFrames
  | None => recognizedFrames
  end.

Definition rekey (frames : Map IvfFrame) (ptsToRecognized : Map Z) : Map IvfFrame :=
  fold_left (rekey_step ptsToRecognized) frames [].

Definition recover (r : Recognizer) (frames : Map IvfFrame) : Map IvfFrame :=
  rekey frames (reconcile (recognize_all r (map_keys frames))).

Definition parseIvf (file : list byte) (runRecognizer : bool) (r : Recognizer)
    : Result IvfInfo :=
  let headerView := pread file 0 32 in
  if negb (length headerView =? 32)%nat then Throw InvalidIvfFile
  else
    let width := getUint16 headerView 12 in
    let height := getUint16 headerView 14 in
    let den := getUint32 headerView 16 in
    let num := getUint32 headerView 20 in
    match parse_frames file with
    | None => Throw OutOfFuel
    | Some st =>
        let frames' :=
          if runRecognizer then recover r (loop_frames st) else loop_frames st in
        Ok {| width := width;
              height := height;
              frameRate := js_div (number_of den) (number_of num);
              ptsIndex := sort_ascending (map_keys frames');
              frames := frames';
              participantDisplayName :=
                if runRecognizer then displayName r else String.EmptyString |}
    end.

(** ** The repair writer *)

(** The three places that write to the output file. *)
Inductive WriteSite :=
| DuplicateFrame
| CurrentFrame
| HeaderRewrite.

Record WriteOp := {
  site : WriteSite;
  offset : Z;
  bytes : list byte
}.

(** The local variables of [fixIvfFrames], and the writes issued so far, in
    the order they were issued. *)
Record RepairState := {
  out_position : Z;
  writtenFrames : Z;
  startPts : Z;
  previousPts : Z;
  previousFrame : option (list byte);
  duplicatedFrames : Z;
  writes : list WriteOp
}.

Definition initial_state : RepairState :=
  {| out_position := 32;
     writtenFrames := 0;
     startPts := -1;
     previousPts := -1;
     previousFrame := None;
     duplicatedFrames := 0;
     writes := [] |}.

(** [frameRate * 60 * 60]. *)
Definition one_hour (frameRate : number) : number :=
  js_mul (js_mul frameRate (Finite 60)) (Finite 60).

(** [missing > frameRate * 60 * 60]. *)
Definition exceeds_one_hour (missing : Z) (frameRate : number) : bool :=
  js_gt missing (one_hour frameRate).

(** The state after one pass through the body of the gap loop, where
    [buffer] is the buffer of the previous frame, already patched with the
    timestamp [previousPts']. *)
Definition duplicate_written (st : RepairState) (previousPts' : Z)
    (buffer' : list byte) : RepairState :=
  {| out_position := out_position st + Z.of_nat (length buffer');
     writtenFrames := writtenFrames st + 1;
     startPts := startPts st;
     previousPts := previousPts';
     previousFrame := Some buffer';
     duplicatedFrames := duplicatedFrames st + 1;
     writes := writes st ++
       [{| site := DuplicateFrame; offset := out_position st; bytes := buffer' |}] |}.

(** [while (pts - previousPts - 1 > 0)]: the buffer of the previous frame is
    patched in place and written again; [BigInt] throws for an infinite
    timestamp.  The loop has a budget: above 2^53 adding 1 need not change
    [previousPts], and the loop need not end. *)
Fixpoint fill_gap (fuel : nat) (pts : Z) (buffer : list byte) (st : RepairState)
    : Result RepairState :=
  if js_minus (js_minus pts (previousPts st)) 1 >? 0 then
    match fuel with
    | O => Throw OutOfFuel
    | S fuel' =>
        let previousPts' := js_plus (previousPts st) 1 in
        if is_infinite previousPts' then Throw RangeError
        else
          let buffer' := setBigUint64 buffer 4 previousPts' in
          fill_gap fuel' pts buffer' (duplicate_written st previousPts' buffer')
    end
  else Ok st.

(** [pts - 1 - previousPts]. *)
Definition missing_before (pts previousPts : Z) : Z :=
  js_minus (js_minus pts 1) previousPts.

(** The part of the loop body that looks at the gap before [pts].  The
    budget of the loop is the number of missing frames, which is what the
    loop takes when it ends. *)
Definition close_gap (frameRate : number) (pts : Z) (st : RepairState)
    : Result RepairState :=
  match previousFrame st with
  | Some buffer =>
      if (previousPts st >=? 0) && (missing_before pts (previousPts st) >? 0) then
        let missing := missing_before pts (previousPts st) in
        if exceeds_one_hour missing frameRate then Throw (TooManyFramesMissing missing)
        else fill_gap (Z.to_nat missing) pts buffer st
      else Ok st
  | None => Ok st
  end.

(** The part of the loop body that copies the frame catalogued under [pts];
    [BigInt(pts)] throws for an infinite timestamp. *)
Definition emit_frame (file : list byte) (frame : IvfFrame) (pts : Z)
    (st : RepairState) : Result RepairState :=
  if is_infinite pts then Throw RangeError
  else
    let frameView :=
      setBigUint64 (read_into_fresh file (position frame) (Z.to_nat (size frame))) 4 pts in
    Ok {| out_position := out_position st + Z.of_nat (length frameView);
          writtenFrames := writtenFrames st + 1;
          startPts := if startPts st <? 0 then pts else startPts st;
          previousPts := pts;
          previousFrame := Some frameView;
          duplicatedFrames := duplicatedFrames st;
          writes := writes st ++
            [{| site := CurrentFrame; offset := out_position st; bytes := frameView |}] |}.

Definition repair_step (file : list byte) (info : IvfInfo) (st : RepairState)
    (pts : Z) : Result RepairState :=
  match map_get (frames info) pts with
  | None => Ok st
  | Some frame =>
      match close_gap (frameRate info) pts st with
      | Throw e => Throw e
      | Ok st' => emit_frame file frame pts st'
      end
  end.

(** [for (const pts of ptsIndex)]. *)
Fixpoint repair_loop (file : list byte) (info : IvfInfo) (todo : list Z)
    (st : RepairState) : Result RepairState :=
  match todo with
  | [] => Ok st
  | pts :: todo' =>
      match repair_step file info st pts with
      | Throw e => Throw e
      | Ok st' => repair_loop file info todo' st'
      end
  end.

(** What a completed repair leaves: the returned start timestamp and name,
    the two counters that are logged, and every write to the output file.
    The output path depends on the file name alone and is left out. *)
Record RepairedStream := {
  repaired_name : String.string;
  repaired_startPts : Z;
  repaired_writtenFrames : Z;
  repaired_duplicatedFrames : Z;
  repaired_writes : list WriteOp
}.

Definition is_empty_string (s : String.string) : bool :=
  match s with
  | String.EmptyString => true
  | _ => false
  end.

Definition fixIvfFrames (file : list byte) (r : Recognizer) : Result RepairedStream :=
  match parseIvf file true r with
  | Throw e => Throw e
  | Ok info =>
      if is_empty_string (participantDisplayName info) then Throw NoParticipantName
      else if (length (ptsIndex info) =? 0)%nat then Throw NoFramesFound
      else
        let headerView := read_into_fresh file 0 32 in
        match repair_loop file info (ptsIndex info) initial_state with
        | Throw e => Throw e
        | Ok st =>
            let headerView' := setUint32 headerView 24 (writtenFrames st) in
            Ok {| repaired_name := participantDisplayName info;
                  repaired_startPts := startPts st;
                  repaired_writtenFrames := writtenFrames st;
                  repaired_duplicatedFrames := duplicatedFrames st;
                  repaired_writes := writes st ++
                    [{| site := HeaderRewrite; offset := 0; bytes := headerView' |}] |}
        end
  end.

(** The content of the output file: the writes replayed on the empty file
    that [open(outFilePath, 'w')] leaves. *)
Definition file_of_writes (ws : list WriteOp) : list byte :=
  fold_left (fun f w => pwrite f (offset w) (bytes w)) ws [].

(** The frames written by the loop, in order, and their embedded
    timestamps. *)
Definition is_frame_write (w : WriteOp) : bool :=
  match site w with
  | HeaderRewrite => false
  | _ => true
  end.

Definition written_frames (ws : list WriteOp) : list WriteOp := filter is_frame_write ws.

Definition embedded_pts (w : WriteOp) : Z := getBigUint64 (bytes w) 4.

(** ** Well-formed containers, for the examples *)

Definition ivf_header (w h den num count : Z) : list byte :=
  [x44; x4b; x49; x46; x00; x00; x20; x00; x56; x50; x38; x30]
  ++ le_encode 2 w ++ le_encode 2 h ++ le_encode 4 den ++ le_encode 4 num
  ++ le_encode 4 count ++ zeros 4.

Definition ivf_frame (pts : Z) (payload : list byte) : list byte :=
  le_encode 4 (Z.of_nat (length payload)) ++ le_encode 8 pts ++ payload.


(** ** The bucketing of the per-frame series in [writeGraph]

    The frame rate and the scores are finite numbers, given by their exact
    values. *)

Module VmafGraph.

Record VmafFrame := {
  frameNum : Z;
  vmaf : Q
}.

Record Point := {
  x : Z;
  y : number
}.

(** [Math.trunc] of a rational. *)
Definition Qtrunc (q : Q) : Z := Z.quot (Qnum q) (Zpos (Qden q)).

(** [a % b] on numbers: the remainder of the truncated division, [NaN]
    (here [None]) for a zero divisor. *)
Definition js_rem (a b : Q) : option Q :=
  if Qeq_bool b 0 then None
  else Some (a - b * inject_Z (Qtrunc (a / b)))%Q.

(** [cur.frameNum % frameRate === 0]. *)
Definition opens_bucket (frameRate : Q) (cur : VmafFrame) : bool :=
  match js_rem (inject_Z (frameNum cur)) frameRate with
  | Some r => Qeq_bool r 0
  | None => false
  end.

(** [prev[prev.length - 1].y += v]; on an empty array the element is
    [undefined] and the assignment throws a [TypeError] (here [None]). *)
Fixpoint add_to_last (prev : list Point) (v : number) : option (list Point) :=
  match prev with
  | [] => None
  | [p] => Some [{| x := x p; y := js_add (y p) v |}]
  | p :: prev' =>
      match add_to_last prev' v with
      | Some l => Some (p :: l)
      | None => None
      end
  end.

(** [cur.metrics.vmaf / frameRate]. *)
Definition share (frameRate : Q) (cur : VmafFrame) : number :=
  js_div (Finite (vmaf cur)) (Finite frameRate).

(** The callback of [reduce]. *)
Definition bucket_step (frameRate : Q) (prev : list Point) (cur : VmafFrame)
    : option (list Point) :=
  if opens_bucket frameRate cur
  then Some (prev ++ [{| x := frameNum cur; y := share frameRate cur |}])
  else add_to_last prev (share frameRate cur).

Fixpoint reduce (frameRate : Q) (frames : list VmafFrame) (prev : list Point)
    : option (list Point) :=
  match frames with
  | [] => Some prev
  | cur :: frames' =>
      match bucket_step frameRate prev cur with
      | Some prev' => reduce frameRate frames' prev'
      | None => None
      end
  end.

Definition bucket_series (frameRate : Q) (frames : list VmafFrame) : option (list Point) :=
  reduce frameRate frames [].

(** The windows the buckets stand for: a frame whose number is a multiple
    of the frame rate starts a window, every other frame joins the window
    that is open.  [None] when a frame has no open window to join. *)
Fixpoint join_last (ws : list (list VmafFrame)) (cur : VmafFrame)
    : option (list (list VmafFrame)) :=
  match ws with
  | [] => None
  | [w] => Some [w ++ [cur]]
  | w :: ws' =>
      match join_last ws' cur with
      | Some l => Some (w :: l)
      | None => None
      end
  end.

Fixpoint windows_from (frameRate : Q) (frames : list VmafFrame)
    (ws : list (list VmafFrame)) : option (list (list VmafFrame)) :=
  match frames with
  | [] => Some ws
  | cur :: frames' =>
      match (if opens_bucket frameRate cur then Some (ws ++ [[cur]]) else join_last ws cur) with
      | Some ws' => windows_from frameRate frames' ws'
      | None => None
      end
  end.

Definition windows (frameRate : Q) (frames : list VmafFrame) : option (list (list VmafFrame)) :=
  windows_from frameRate frames [].

Definition Qsum (l : list Q) : Q := fold_right Qplus 0%Q l.

Definition window_sum (w : list VmafFrame) : Q := Qsum (map vmaf w).

Definition window_mean (w : list VmafFrame) : Q :=
  (window_sum w / inject_Z (Z.of_nat (length w)))%Q.

Definition window_start (w : list VmafFrame) : Z :=
  match w with
  | [] => 0
  | f :: _ => frameNum f
  end.

(** A window: a frame that opens a bucket, then frames that do not. *)
Definition window_ok (frameRate : Q) (w : list VmafFrame) : Prop :=
  match w with
  | [] => False
  | f :: tl =>
      opens_bucket frameRate f = true /\
      Forall (fun g => opens_bucket frameRate g = false) tl
  end.

(** The shares of the frames of a window, added up from left to right. *)
Definition running_sum (frameRate : Q) (w : list VmafFrame) : number :=
  match w with
  | [] => NaN
  | f :: tl =>
      fold_left (fun acc g => js_add acc (share frameRate g)) tl (share frameRate f)
  end.

(** What a bucket holds of its window. *)
Definition bucket_of (frameRate : Q) (p : Point) (w : list VmafFrame) : Prop :=
  window_ok frameRate w /\ x p = window_start w /\ y p = running_sum frameRate w.

(** The scores 0.1, 0.2 and 0.3 as doubles, at three frames per second. *)
Definition tenths_series : list VmafFrame :=
  [{| frameNum := 0; vmaf := 3602879701896397 # 36028797018963968 |};
   {| frameNum := 1; vmaf := 3602879701896397 # 18014398509481984 |};
   {| frameNum := 2; vmaf := 5404319552844595 # 18014398509481984 |}].

(** A series of three frames at two frames per second. *)
Definition short_series : list VmafFrame :=
  [{| frameNum := 0; vmaf := 10 |}; {| frameNum := 1; vmaf := 20 |};
   {| frameNum := 2; vmaf := 30 |}].

End VmafGraph.

(** ** Vocabulary of the statements *)

(** A frame record as the container stores it: a 12-byte header whose size
    field counts the bytes that follow. *)
Definition frame_ok (b : list byte) : Prop :=
  (12 <= length b)%nat /\ getUint32 b 0 + 12 = Z.of_nat (length b).

(** A catalogue entry that points at a complete frame header of [file] and
    carries the length that header announces. *)
Definition entry_ok (file : list byte) (f : IvfFrame) : Prop :=
  0 <= position f /\
  length (pread file (position f) 12) = 12%nat /\
  size f = getUint32 (pread file (position f) 12) 0 + 12.

Definition catalogue_ok (file : list byte) (m : Map IvfFrame) : Prop :=
  forall k f, map_get m k = Some f -> entry_ok file f.

(** The catalogue of a sequence of frame records laid out from [position]
    on. *)
Fixpoint record_frames (bs : list (list byte)) (position : Z) (st : ParseState)
    : ParseState :=
  match bs with
  | [] => st
  | b :: bs' =>
      record_frames bs' (position + Z.of_nat (length b))
        (record_frame st position (getUint32 b 0) (frame_pts b))
  end.

(** Every element is its predecessor plus one. *)
Fixpoint contiguous (l : list Z) : Prop :=
  match l with
  | a :: (b :: _) as t => b = a + 1 /\ contiguous t
  | _ => True
  end.

(** [a; a + 1; ...], [n] elements. *)
Fixpoint zseq (a : Z) (n : nat) : list Z :=
  match n with
  | O => []
  | S n' => a :: zseq (a + 1) n'
  end.

(** Writes that follow one another in the file, the first at [p], the next
    free offset being [q]. *)
Fixpoint chained (p : Z) (ws : list WriteOp) (q : Z) : Prop :=
  match ws with
  | [] => p = q
  | w :: ws' => offset w = p /\ chained (p + Z.of_nat (length (bytes w))) ws' q
  end.

(** What an 8-byte field keeps of a timestamp. *)
Definition wrap64 (z : Z) : Z := z mod 2 ^ 64.

(** What holds of the writes of [fixIvfFrames] whatever the timestamps:
    they follow one another from byte 32, they are counted, they are frame
    records, a duplicate is the write before it with another timestamp, and
    the buffer of the previous frame is the last write. *)
Record writer_shape (st : RepairState) : Prop := {
  shape_chained : chained 32 (writes st) (out_position st);
  shape_count : writtenFrames st = Z.of_nat (length (writes st));
  shape_frames :
    Forall (fun w => frame_ok (bytes w) /\ site w <> HeaderRewrite) (writes st);
  shape_dups :
    forall i d,
      nth_error (writes st) i = Some d ->
      site d = DuplicateFrame ->
      exists j p t,
        i = S j /\ nth_error (writes st) j = Some p /\
        bytes d = setBigUint64 (bytes p) 4 t;
  shape_prev :
    match previousFrame st with
    | None => writes st = []
    | Some buf => exists ws w, writes st = ws ++ [w] /\ bytes w = buf
    end
}.

(** The invariant of the loop of [fixIvfFrames] while the timestamps stay
    within 2^53. *)
Record writer_inv (st : RepairState) : Prop := {
  inv_chained : chained 32 (writes st) (out_position st);
  inv_count : writtenFrames st = Z.of_nat (length (writes st));
  inv_frames :
    Forall (fun w => frame_ok (bytes w) /\ site w <> HeaderRewrite) (writes st);
  inv_pts :
    map embedded_pts (writes st)
    = map wrap64 (zseq (startPts st) (length (writes st)));
  inv_dups :
    forall i d,
      nth_error (writes st) i = Some d ->
      site d = DuplicateFrame ->
      exists j p t,
        i = S j /\ nth_error (writes st) j = Some p /\
        bytes d = setBigUint64 (bytes p) 4 t;
  inv_prev :
    match previousFrame st with
    | None => writes st = [] /\ startPts st < 0
    | Some buf =>
        (exists ws w, writes st = ws ++ [w] /\ bytes w = buf) /\
        0 < startPts st /\
        previousPts st = startPts st + Z.of_nat (length (writes st)) - 1
    end
}.

(** Stored recognition results are never negative. *)
Definition nonneg_values (m : Map Z) : Prop := Forall (fun kv => 0 <= snd kv) m.

(** Container timestamps as the parse pass catalogues them: doubles that
    are not negative. *)
Definition container_keys (l : list Z) : Prop :=
  Forall (fun k => 0 <= k /\ to_double k = k) l.

(** ** A worked example

    A 640x480 capture at 30/1 frames per second with four frames, whose
    clocks read 33, 67, 133 and 167 milliseconds: the recognized timestamps
    are 1, 2, 4 and 5, one frame is missing. *)
Definition example_file : list byte :=
  ivf_header 640 480 30 1 0
  ++ ivf_frame 100 [x01; x02] ++ ivf_frame 101 [x03]
  ++ ivf_frame 103 [x04; x05; x06] ++ ivf_frame 104 [].

Definition example_recognizer : Recognizer :=
  recognizer_from_ocr (js_div (number_of 30) (number_of 1))
    [(100, {| confidence := 90; recognizedTime := 33 |});
     (101, {| confidence := 90; recognizedTime := 67 |});
     (103, {| confidence := 90; recognizedTime := 133 |});
     (104, {| confidence := 90; recognizedTime := 167 |})]
    "Alice"%string.

(** The catalogue of the plain parse, keyed by the container timestamps. *)
Definition example_catalogue : Map IvfFrame :=
  Eval vm_compute in
    match parseIvf example_file false example_recognizer with
    | Ok info => frames info
    | Throw _ => []
    end.

Definition example_repaired : RepairedStream :=
  Eval vm_compute in
    match fixIvfFrames example_file example_recognizer with
    | Ok out => out
    | Throw _ =>
        {| repaired_name := String.EmptyString; repaired_startPts := 0;
           repaired_writtenFrames := 0; repaired_duplicatedFrames := 0;
           repaired_writes := [] |}
    end.

(** The same catalogue at one frame in sixteen seconds, where an hour holds
    225 frames, and the state of the writer after the frame at timestamp
    1. *)
Definition slow_info : IvfInfo :=
  {| width := 640; height := 480;
     frameRate := js_div (number_of 1) (number_of 16);
     ptsIndex := [1; 227; 228];
     frames := [(1, {| index := 0; position := 32; size := 14 |});
                (227, {| index := 1; position := 46; size := 13 |});
                (228, {| index := 2; position := 59; size := 15 |})];
     participantDisplayName := "Alice"%string |}.

Definition slow_state : RepairState :=
  Eval vm_compute in
    match emit_frame example_file {| index := 0; position := 32; size := 14 |} 1
            initial_state with
    | Ok st => st
    | Throw _ => initial_state
    end.

(** The same catalogue at one frame in nine seconds: [1 / 9] is not a
    double, and neither is an hour of it. *)
Definition ninth_info : IvfInfo :=
  {| width := 640; height := 480;
     frameRate := js_div (number_of 1) (number_of 9);
     ptsIndex := [1; 402];
     frames := [(1, {| index := 0; position := 32; size := 14 |});
                (402, {| index := 1; position := 46; size := 13 |})];
     participantDisplayName := "Alice"%string |}.

(** A capture at that rate with two frames, read at 9 and at 3618 seconds:
    timestamps 1 and 402. *)
Definition ninth_file : list byte :=
  ivf_header 640 480 1 9 0 ++ ivf_frame 0 [x01] ++ ivf_frame 1 [x02].

Definition ninth_recognizer : Recognizer :=
  recognizer_from_ocr (js_div (number_of 1) (number_of 9))
    [(0, {| confidence := 90; recognizedTime := 9000 |});
     (1, {| confidence := 90; recognizedTime := 3618000 |})]
    "Alice"%string.

(** A capture at one frame in sixteen seconds, where an hour is 225 frames,
    with two frames whose clocks are read as the doubles
    144115188075852267520 and 144115188075855888384: timestamps 2^53 - 225
    and 2^53 + 2. *)
Definition sixteenth_file : list byte :=
  ivf_header 640 480 1 16 0 ++ ivf_frame 0 [x01] ++ ivf_frame 1 [x02].

Definition sixteenth_recognizer : Recognizer :=
  recognizer_from_ocr (js_div (number_of 1) (number_of 16))
    [(0, {| confidence := 90; recognizedTime := 144115188075852267520 |});
     (1, {| confidence := 90; recognizedTime := 144115188075855888384 |})]
    "Alice"%string.

(** The reconciliation scenario: keys 10 to 13, the two in the middle
    unrecognized. *)
Definition scenario_recognized : Map Z := [(10, 1000); (11, 0); (12, 0); (13, 1200)].

(** Two frames that resolve to one timestamp, and a file with two frames
    under one timestamp. *)
Definition collision_catalogue : Map IvfFrame :=
  [(100, {| index := 0; position := 32; size := 14 |});
   (101, {| index := 1; position := 46; size := 13 |})].

Definition collision_recognized : Map Z := [(100, 7); (101, 7)].

Definition collision_header : list byte := ivf_header 640 480 30 1 0.

Definition collision_first : list byte := ivf_frame 100 [x01].

Definition collision_second : list byte := ivf_frame 100 [x02; x03].

(** Captures at 1000 frames per second whose clocks read past 2^53
    milliseconds: two frames read at 2^53 and 2^53 + 2, and two frames read
    at 2^53 + 2 and 2^53 + 4.  The recognized timestamps are the readings. *)
Definition late_header : list byte := ivf_header 640 480 1000 1 0.

Definition late_file : list byte :=
  late_header ++ ivf_frame 0 [x01] ++ ivf_frame 1 [x02].

Definition late_rate : number := js_div (number_of 1000) (number_of 1).

Definition late_recognizer : Recognizer :=
  recognizer_from_ocr late_rate
    [(0, {| confidence := 90; recognizedTime := 2 ^ 53 |});
     (1, {| confidence := 90; recognizedTime := 2 ^ 53 + 2 |})]
    "A"%string.

Definition later_recognizer : Recognizer :=
  recognizer_from_ocr late_rate
    [(0, {| confidence := 90; recognizedTime := 2 ^ 53 + 2 |});
     (1, {| confidence := 90; recognizedTime := 2 ^ 53 + 4 |})]
    "A"%string.

Definition late_repaired : RepairedStream :=
  Eval vm_compute in
    match fixIvfFrames late_file late_recognizer with
    | Ok out => out
    | Throw _ =>
        {| repaired_name := String.EmptyString; repaired_startPts := 0;
           repaired_writtenFrames := 0; repaired_duplicatedFrames := 0;
           repaired_writes := [] |}
    end.

Definition later_repaired : RepairedStream :=
  Eval vm_compute in
    match fixIvfFrames late_file later_recognizer with
    | Ok out => out
    | Throw _ =>
        {| repaired_name := String.EmptyString; repaired_startPts := 0;
           repaired_writtenFrames := 0; repaired_duplicatedFrames := 0;
           repaired_writes := [] |}
    end.

(** Recognized values at keys just below 2^53. *)
Definition late_recognized : Map Z := [(2 ^ 53 - 3, 3); (2 ^ 53 - 2, 0)].

(** ** Vocabulary of the further statements *)

(** Catalogue records that lie in the file one after another without
    overlap: the first starts at [p] or later, each is at least a frame
    header long, and the last ends at [q] or earlier. *)
Fixpoint laid_out (p : Z) (l : list IvfFrame) (q : Z) : Prop :=
  match l with
  | [] => p <= q
  | f :: l' => p <= position f /\ 12 <= size f /\ laid_out (position f + size f) l' q
  end.

(** A number that is not below zero. *)
Definition nonneg_number (n : number) : Prop :=
  match n with
  | Finite q => (0 <= q)%Q
  | MinusInfinity => False
  | Infinity | NaN => True
  end.

(** No two neighbours of an ascending list of timestamps are further apart
    than the bound on a gap allows. *)
Fixpoint gaps_within (frameRate : number) (l : list Z) : Prop :=
  match l with
  | a :: (b :: _) as t =>
      exceeds_one_hour (missing_before b a) frameRate = false /\ gaps_within frameRate t
  | _ => True
  end.

(** The buffer [fixIvfFrames] reads a catalogued frame into. *)
Definition source_frame (file : list byte) (f : IvfFrame) : list byte :=
  read_into_fresh file (position f) (Z.to_nat (size f)).

(** [b] is a catalogued frame of the source file up to its timestamp field:
    same length, same size field, same payload. *)
Definition carries_source (file : list byte) (info : IvfInfo) (b : list byte) : Prop :=
  exists pts f,
    map_get (frames info) pts = Some f /\
    length b = length (source_frame file f) /\
    firstn 4 b = firstn 4 (source_frame file f) /\
    skipn 12 b = skipn 12 (source_frame file f).

(** ** Chunked execution

    [chunkedPromiseAll] runs [f] over the items, [chunkSize] at a time, and
    collects the values in an array as long as the items.  The array is made
    with holes ([None]); a call of [f] that rejects is swallowed by
    [Promise.allSettled] and leaves its hole.  The chunk size is a count. *)

(** [results[i] = v]: a write past the end extends the array with holes. *)
Fixpoint array_set {A : Type} (l : list (option A)) (i : nat) (v : A) : list (option A) :=
  match l, i with
  | [], O => [Some v]
  | [], S i' => None :: array_set [] i' v
  | _ :: t, O => Some v :: t
  | h :: t, S i' => h :: array_set t i' v
  end.

Section Chunked.

Context {T R : Type}.

(** The callback: the value it fulfils with, or [None] when it rejects. *)
Variable f : T -> nat -> option R.

(** [items.slice(index, index + chunkSize)]. *)
Definition chunk_of (items : list T) (index chunkSize : nat) : list T :=
  firstn chunkSize (skipn index items).

(** One chunk: [results[index + i] = await f(item, index + i)] for each of
    its items. *)
Fixpoint run_chunk (chunk : list T) (at_index : nat) (results : list (option R))
    : list (option R) :=
  match chunk with
  | [] => results
  | item :: chunk' =>
      run_chunk chunk' (S at_index)
        (match f item at_index with
         | Some v => array_set results at_index v
         | None => results
         end)
  end.

(** The loop [for (index = 0; index < items.length; index += chunkSize)];
    [None] when the fuel does not reach its end. *)
Fixpoint chunk_loop (fuel : nat) (items : list T) (chunkSize index : nat)
    (results : list (option R)) : option (list (option R)) :=
  match fuel with
  | O => None
  | S fuel' =>
      if (index <? length items)%nat
      then chunk_loop fuel' items chunkSize (index + chunkSize)
             (run_chunk (chunk_of items index chunkSize) index results)
      else Some results
  end.

Definition chunkedPromiseAll (fuel : nat) (items : list T) (chunkSize : nat)
    : option (list (option R)) :=
  chunk_loop fuel items chunkSize 0 (repeat None (length items)).

(** The callback applied to every item with its index, one by one. *)
Fixpoint map_indexed (index : nat) (items : list T) : list (option R) :=
  match items with
  | [] => []
  | item :: items' => f item index :: map_indexed (S index) items'
  end.

End Chunked.

(** ** Alignment of two recordings

    [runVmaf] parses the reference and the degraded file without the
    recognizer and seeks the reference by the difference of the first
    timestamps, [degradedPtsIndex[0] - referencePtsIndex[0]]; an empty
    index gives [undefined], and the difference is [NaN] (here [None]). *)
Definition ptsDiff (reference degraded : IvfInfo) : option Z :=
  match ptsIndex degraded, ptsIndex reference with
  | d :: _, r :: _ => Some (js_minus d r)
  | _, _ => None
  end.

(** * Proofs *)

(** ** Rounding to a double *)

Lemma round_half_even_bounds (n d : Z) :
  0 < d -> n / d <= round_half_even n d <= n / d + 1.
Proof.
  intros D. unfold round_half_even.
  destruct (2 * (n mod d) ?= d); [destruct (Z.even (n / d))| |]; lia.
Qed.

Lemma round_half_even_exact (m d : Z) : 0 < d -> round_half_even (m * d) d = m.
Proof.
  intros D. unfold round_half_even.
  rewrite Z.mod_mul, Z.div_mul by lia.
  destruct (Z.compare_spec (2 * 0) d); lia.
Qed.

Lemma round_half_even_mono (a b d : Z) :
  0 < d -> a <= b -> round_half_even a d <= round_half_even b d.
Proof.
  intros D L.
  pose proof (Z.div_le_mono a b d D L) as Q.
  destruct (Z.eq_dec (a / d) (b / d)) as [E|N].
  - assert (R : a mod d <= b mod d).
    { pose proof (Z.div_mod a d ltac:(lia)). pose proof (Z.div_mod b d ltac:(lia)).
      rewrite E in *. nia. }
    unfold round_half_even. rewrite E.
    destruct (Z.compare_spec (2 * (a mod d)) d), (Z.compare_spec (2 * (b mod d)) d);
      try destruct (Z.even (b / d)); lia.
  - pose proof (round_half_even_bounds a d D). pose proof (round_half_even_bounds b d D). lia.
Qed.

(** The shape of [to_double] above 2^53. *)
Lemma to_double_large (z : Z) :
  2 ^ 53 <= z ->
  let x := Z.log2 z - 52 in
  let m := round_half_even z (2 ^ x) in
  0 < x /\ 2 ^ 52 <= m <= 2 ^ 53 /\
  to_double z = (if infinity <=? m * 2 ^ x then infinity else m * 2 ^ x).
Proof.
  intros Z53 x m.
  assert (P : 0 < z) by lia.
  assert (L : 53 <= Z.log2 z) by (apply Z.log2_le_pow2; lia).
  assert (X : 0 < x) by (unfold x; lia).
  pose proof (Z.log2_spec z P) as [Lo Hi].
  assert (E : Z.log2 z = 52 + x) by (unfold x; lia).
  rewrite E in Lo. replace (Z.succ (Z.log2 z)) with (53 + x) in Hi by lia.
  rewrite Z.pow_add_r in Lo, Hi by lia.
  assert (D : 0 < 2 ^ x) by (apply Z.pow_pos_nonneg; lia).
  assert (Q : 2 ^ 52 <= z / 2 ^ x < 2 ^ 53).
  { split.
    - apply Z.div_le_lower_bound; lia.
    - apply Z.div_lt_upper_bound; lia. }
  pose proof (round_half_even_bounds z (2 ^ x) D) as B. fold m in B.
  split; [exact X|]. split; [lia|].
  unfold to_double. rewrite Z.abs_eq by lia. fold x.
  destruct (Z.leb_spec x 0); [lia|]. fold m.
  rewrite Z.sgn_pos by lia. lia.
Qed.

Lemma to_double_exact (z : Z) : - 2 ^ 53 <= z <= 2 ^ 53 -> to_double z = z.
Proof.
  intros R. unfold to_double.
  destruct (Z.leb_spec (Z.log2 (Z.abs z) - 52) 0) as [|G]; [reflexivity|].
  assert (A : 2 ^ 53 <= Z.abs z).
  { destruct (Z.lt_ge_cases (Z.abs z) (2 ^ 53)) as [Lt|]; [|assumption].
    destruct (Z.eq_dec (Z.abs z) 0) as [E0|N0]; [rewrite E0 in G; simpl in G; lia|].
    apply Z.log2_lt_pow2 in Lt; lia. }
  assert (E : Z.abs z = 2 ^ 53) by lia.
  rewrite E. replace (Z.log2 (2 ^ 53) - 52) with 1 by reflexivity.
  change (round_half_even (2 ^ 53) (2 ^ 1) * 2 ^ 1) with (2 ^ 53).
  change (infinity <=? 2 ^ 53) with false. cbv beta iota.
  destruct z; simpl in *; lia.
Qed.

Lemma to_double_ge (z : Z) : 2 ^ 53 <= z -> 2 ^ 53 <= to_double z.
Proof.
  intros H. destruct (to_double_large z H) as (X & M & ->).
  set (x := Z.log2 z - 52) in *. set (m := round_half_even z (2 ^ x)) in *.
  assert (2 ^ 1 <= 2 ^ x) by (apply Z.pow_le_mono_r; lia).
  destruct (Z.leb_spec (infinity) (m * 2 ^ x)); [|nia].
  change (2 ^ 53 <= infinity). apply Z.pow_le_mono_r; lia.
Qed.

Lemma to_double_nonneg (z : Z) : 0 <= z -> 0 <= to_double z.
Proof.
  intros H. destruct (Z.le_gt_cases z (2 ^ 53)).
  - rewrite to_double_exact; lia.
  - pose proof (to_double_ge z ltac:(lia)). lia.
Qed.

Lemma to_double_mono (a b : Z) : 0 <= a <= b -> to_double a <= to_double b.
Proof.
  intros [A L].
  destruct (Z.le_gt_cases b (2 ^ 53)) as [Hb|Hb].
  - rewrite !to_double_exact by lia. exact L.
  - destruct (Z.le_gt_cases a (2 ^ 53)) as [Ha|Ha].
    + rewrite (to_double_exact a) by lia.
      pose proof (to_double_ge b ltac:(lia)). lia.
    + destruct (to_double_large a ltac:(lia)) as (Xa & Ma & Ea).
      destruct (to_double_large b ltac:(lia)) as (Xb & Mb & Eb).
      rewrite Ea, Eb. clear Ea Eb.
      set (xa := Z.log2 a - 52) in *. set (xb := Z.log2 b - 52) in *.
      set (ma := round_half_even a (2 ^ xa)) in *.
      set (mb := round_half_even b (2 ^ xb)) in *.
      assert (Lg : Z.log2 a <= Z.log2 b) by (apply Z.log2_le_mono; lia).
      assert (V : ma * 2 ^ xa <= mb * 2 ^ xb).
      { destruct (Z.eq_dec xa xb) as [E|N].
        - unfold mb. rewrite <- E. fold ma.
          assert (ma <= round_half_even b (2 ^ xa)).
          { apply round_half_even_mono; [apply Z.pow_pos_nonneg|]; lia. }
          assert (0 < 2 ^ xa) by (apply Z.pow_pos_nonneg; lia). nia.
        - assert (Lx : xa + 1 <= xb) by (unfold xa, xb in *; lia).
          assert (P : 2 ^ (xa + 1) <= 2 ^ xb) by (apply Z.pow_le_mono_r; lia).
          rewrite Z.pow_add_r in P by lia.
          assert (0 < 2 ^ xa) by (apply Z.pow_pos_nonneg; lia).
          change (2 ^ 1) with 2 in P. change (2 ^ 53) with (2 ^ 52 * 2) in Ma. nia. }
      destruct (Z.leb_spec (infinity) (ma * 2 ^ xa)), (Z.leb_spec (infinity) (mb * 2 ^ xb));
        lia.
Qed.

Lemma to_double_idem (z : Z) : 0 <= z -> to_double (to_double z) = to_double z.
Proof.
  intros H. destruct (Z.le_gt_cases z (2 ^ 53)) as [Hz|Hz].
  - assert (E : to_double z = z) by (apply to_double_exact; lia).
    rewrite E. exact E.
  - destruct (to_double_large z ltac:(lia)) as (X & M & E).
    set (x := Z.log2 z - 52) in *. set (m := round_half_even z (2 ^ x)) in *.
    assert (D : 0 < 2 ^ x) by (apply Z.pow_pos_nonneg; lia).
    rewrite E. destruct (Z.leb_spec (infinity) (m * 2 ^ x)) as [O|O].
    + reflexivity.
    + assert (B : 2 ^ 53 <= m * 2 ^ x).
      { assert (2 ^ 1 <= 2 ^ x) by (apply Z.pow_le_mono_r; lia).
        change (2 ^ 53) with (2 ^ 52 * 2 ^ 1). nia. }
      destruct (to_double_large (m * 2 ^ x) B) as (X' & M' & E').
      rewrite E'. clear E'.
      destruct (Z.eq_dec m (2 ^ 53)) as [Em|Nm].
      * assert (Lg : Z.log2 (m * 2 ^ x) = 53 + x).
        { rewrite Em, <- Z.pow_add_r by lia. apply Z.log2_pow2. lia. }
        rewrite Lg. replace (53 + x - 52) with (x + 1) by lia.
        assert (Er : round_half_even (m * 2 ^ x) (2 ^ (x + 1)) * 2 ^ (x + 1) = m * 2 ^ x).
        { assert (Es : m * 2 ^ x = 2 ^ 52 * 2 ^ (x + 1)).
          { rewrite Em, Z.pow_add_r by lia.
            change (2 ^ 53) with (2 ^ 52 * 2 ^ 1). ring. }
          rewrite Es at 1.
          rewrite round_half_even_exact by (apply Z.pow_pos_nonneg; lia).
          now rewrite Es. }
        rewrite Er.
        destruct (Z.leb_spec (infinity) (m * 2 ^ x)); [lia | reflexivity].
      * assert (Lg : Z.log2 (m * 2 ^ x) = 52 + x).
        { apply Z.log2_unique; [lia|].
          replace (Z.succ (52 + x)) with (53 + x) by lia.
          rewrite !Z.pow_add_r by lia. nia. }
        rewrite Lg. replace (52 + x - 52) with x by lia.
        rewrite round_half_even_exact by exact D.
        destruct (Z.leb_spec (infinity) (m * 2 ^ x)); [lia | reflexivity].
Qed.

Lemma infinity_large : 2 ^ 64 < infinity.
Proof. reflexivity. Qed.

Lemma to_double_lower (c z : Z) : 0 <= c <= 2 ^ 53 -> c <= z -> c <= to_double z.
Proof.
  intros C L. rewrite <- (to_double_exact c) by lia. apply to_double_mono. lia.
Qed.

Lemma to_double_below (z : Z) : 0 <= z -> to_double z <= infinity.
Proof.
  intros H. destruct (Z.le_gt_cases z (2 ^ 53)) as [Hz|Hz].
  - rewrite to_double_exact by lia. pose proof infinity_large. lia.
  - destruct (to_double_large z ltac:(lia)) as (_ & _ & ->).
    destruct (Z.leb_spec infinity (round_half_even z (2 ^ (Z.log2 z - 52))
                                   * 2 ^ (Z.log2 z - 52))); lia.
Qed.

Lemma is_infinite_false (z : Z) : - 2 ^ 64 <= z <= 2 ^ 64 -> is_infinite z = false.
Proof.
  intros H. unfold is_infinite. pose proof infinity_large.
  destruct (Z.leb_spec infinity (Z.abs z)); lia.
Qed.

Lemma js_plus_exact (a b : Z) :
  - 2 ^ 64 <= a <= 2 ^ 64 -> - 2 ^ 64 <= b <= 2 ^ 64 ->
  - 2 ^ 53 <= a + b <= 2 ^ 53 ->
  js_plus a b = a + b.
Proof.
  intros A B S. unfold js_plus.
  rewrite (is_infinite_false a A), (is_infinite_false b B).
  now apply to_double_exact.
Qed.

Lemma js_minus_exact (a b : Z) :
  - 2 ^ 64 <= a <= 2 ^ 64 -> - 2 ^ 64 <= b <= 2 ^ 64 ->
  - 2 ^ 53 <= a - b <= 2 ^ 53 ->
  js_minus a b = a - b.
Proof.
  intros A B S. unfold js_minus. rewrite js_plus_exact; lia.
Qed.

(** A lower bound survives the rounding of a sum whose first term is not
    negative and whose second term is finite. *)
Lemma js_plus_lower (a b c : Z) :
  0 <= a -> is_infinite b = false -> 0 <= c <= 2 ^ 53 -> c <= a + b ->
  c <= js_plus a b.
Proof.
  intros A B C L. unfold js_plus. rewrite B.
  destruct (is_infinite a) eqn:Ia.
  - cbn [andb]. unfold is_infinite in Ia. apply Z.leb_le in Ia.
    pose proof infinity_large. rewrite Z.abs_eq in Ia by lia.
    rewrite Z.sgn_pos by lia. lia.
  - now apply to_double_lower.
Qed.

Lemma js_plus_nonneg (a b : Z) : 0 <= a -> 0 <= b -> 0 <= js_plus a b.
Proof.
  intros A B. unfold js_plus. pose proof infinity_large.
  destruct (is_infinite a) eqn:Ia.
  - destruct (is_infinite b && negb (Z.sgn a =? Z.sgn b)); [lia|].
    destruct (Z.sgn_spec a) as [[_ ->]|[[_ ->]|[? _]]]; lia.
  - destruct (is_infinite b).
    + destruct (Z.sgn_spec b) as [[_ ->]|[[_ ->]|[? _]]]; lia.
    + apply to_double_nonneg. lia.
Qed.


(** ** Little-endian fields *)

Lemma byte_val_range (b : byte) : 0 <= byte_val b < 256.
Proof.
  unfold byte_val. pose proof (Byte.to_N_bounded b). lia.
Qed.

Lemma byte_val_of_Z (z : Z) : byte_val (byte_of_Z z) = z mod 256.
Proof.
  unfold byte_val, byte_of_Z.
  pose proof (Z.mod_pos_bound z 256 ltac:(lia)) as Hr.
  destruct (Byte.of_N (Z.to_N (z mod 256))) as [b|] eqn:E.
  - apply Byte.to_of_N in E. rewrite E. apply Z2N.id. lia.
  - apply Byte.of_N_None_iff in E.
    apply N2Z.inj_lt in E. rewrite Z2N.id in E; simpl in E; lia.
Qed.

Lemma le_encode_length (n : nat) (z : Z) : length (le_encode n z) = n.
Proof.
  revert z. induction n as [|n IH]; intros z; simpl; [reflexivity|].
  now rewrite IH.
Qed.

Lemma le_decode_nonneg (bs : list byte) : 0 <= le_decode bs.
Proof.
  induction bs as [|b bs IH]; cbn [le_decode]; [lia|].
  pose proof (byte_val_range b). lia.
Qed.

Lemma le_decode_encode (n : nat) (z : Z) :
  le_decode (le_encode n z) = z mod 256 ^ Z.of_nat n.
Proof.
  revert z. induction n as [|n IH]; intros z.
  - simpl. now rewrite Z.mod_1_r.
  - cbn [le_encode le_decode]. rewrite byte_val_of_Z, IH.
    rewrite Nat2Z.inj_succ, Z.pow_succ_r by lia.
    rewrite Z.rem_mul_r by lia. reflexivity.
Qed.

(** ** Buffers *)

Lemma slice_app_exact (pre bs post : list byte) :
  slice (length pre) (length bs) (pre ++ bs ++ post) = bs.
Proof.
  unfold slice. rewrite skipn_app, Nat.sub_diag, skipn_all. simpl.
  rewrite firstn_app, Nat.sub_diag, firstn_all. simpl. apply app_nil_r.
Qed.

Lemma skipn_app_exact {A : Type} (n : nat) (a b : list A) :
  length a = n -> skipn n (a ++ b) = b.
Proof.
  intros <-. rewrite skipn_app, Nat.sub_diag, skipn_all. reflexivity.
Qed.

Lemma firstn_app_exact {A : Type} (n : nat) (a b : list A) :
  length a = n -> firstn n (a ++ b) = a.
Proof.
  intros <-. rewrite firstn_app, Nat.sub_diag, firstn_all. simpl. apply app_nil_r.
Qed.

Lemma setBigUint64_shape (buf : list byte) (z : Z) :
  setBigUint64 buf 4 z = firstn 4 buf ++ le_encode 8 z ++ skipn 12 buf.
Proof.
  unfold setBigUint64, patch. now rewrite le_encode_length.
Qed.

Lemma setBigUint64_length (buf : list byte) (z : Z) :
  (12 <= length buf)%nat -> length (setBigUint64 buf 4 z) = length buf.
Proof.
  intros H. rewrite setBigUint64_shape.
  rewrite !length_app, le_encode_length, length_firstn, length_skipn. lia.
Qed.

Lemma get_setBigUint64 (buf : list byte) (z : Z) :
  (12 <= length buf)%nat ->
  getBigUint64 (setBigUint64 buf 4 z) 4 = z mod 2 ^ 64.
Proof.
  intros H. rewrite setBigUint64_shape. unfold getBigUint64.
  assert (L4 : length (firstn 4 buf) = 4%nat) by (rewrite length_firstn; lia).
  assert (L8 : length (le_encode 8 z) = 8%nat) by apply le_encode_length.
  pose proof (slice_app_exact (firstn 4 buf) (le_encode 8 z) (skipn 12 buf)) as S.
  rewrite L4, L8 in S. rewrite S. now rewrite le_decode_encode.
Qed.

Lemma setBigUint64_firstn4 (buf : list byte) (z : Z) :
  (12 <= length buf)%nat -> firstn 4 (setBigUint64 buf 4 z) = firstn 4 buf.
Proof.
  intros H. rewrite setBigUint64_shape.
  rewrite firstn_app, length_firstn.
  replace (4 - Nat.min 4 (length buf))%nat with 0%nat by lia.
  rewrite firstn_firstn. simpl. now rewrite app_nil_r.
Qed.

Lemma setBigUint64_skipn12 (buf : list byte) (z : Z) :
  (12 <= length buf)%nat -> skipn 12 (setBigUint64 buf 4 z) = skipn 12 buf.
Proof.
  intros H. rewrite setBigUint64_shape, app_assoc.
  apply skipn_app_exact.
  rewrite length_app, length_firstn, le_encode_length. lia.
Qed.

Lemma setBigUint64_twice (buf : list byte) (a t : Z) :
  (12 <= length buf)%nat ->
  setBigUint64 (setBigUint64 buf 4 a) 4 t = setBigUint64 buf 4 t.
Proof.
  intros L. rewrite (setBigUint64_shape (setBigUint64 buf 4 a)).
  rewrite setBigUint64_firstn4, setBigUint64_skipn12 by exact L.
  now rewrite <- setBigUint64_shape.
Qed.

Lemma getUint32_setBigUint64 (buf : list byte) (z : Z) :
  (12 <= length buf)%nat ->
  getUint32 (setBigUint64 buf 4 z) 0 = getUint32 buf 0.
Proof.
  intros H. unfold getUint32, slice. simpl skipn.
  now rewrite setBigUint64_firstn4.
Qed.

Lemma read_into_fresh_length (file : list byte) (pos : Z) (len : nat) :
  length (read_into_fresh file pos len) = len.
Proof.
  unfold read_into_fresh, pread, zeros.
  rewrite length_app, repeat_length, length_firstn. lia.
Qed.

(** ** Maps *)

Section JsMapFacts.
Context {V : Type}.
Implicit Types (m : Map V) (k : Z) (v : V).

Lemma map_get_In_keys m k v : map_get m k = Some v -> In k (map_keys m).
Proof.
  induction m as [|[k' v'] m IH]; simpl; [discriminate|].
  destruct (Z.eqb_spec k k'); [now left | right; auto].
Qed.

Lemma map_get_None m k : map_get m k = None <-> ~ In k (map_keys m).
Proof.
  induction m as [|[k' v'] m IH]; simpl.
  - tauto.
  - destruct (Z.eqb_spec k k'); [split; [discriminate | intros H; exfalso; auto]|].
    rewrite IH. split; [intros H [E|I]; [congruence | auto] | tauto].
Qed.

Lemma map_has_In m k : map_has m k = true <-> In k (map_keys m).
Proof.
  unfold map_has. destruct (map_get m k) eqn:E.
  - split; [intros _; eapply map_get_In_keys; eauto | reflexivity].
  - apply map_get_None in E. split; [discriminate | tauto].
Qed.

Lemma map_get_In m k v : map_get m k = Some v -> In (k, v) m.
Proof.
  induction m as [|[k' v'] m IH]; simpl; [discriminate|].
  destruct (Z.eqb_spec k k'); [intros [= ->]; left; congruence | right; auto].
Qed.

Lemma map_get_set_eq m k v : map_get (map_set m k v) k = Some v.
Proof.
  induction m as [|[k' v'] m IH]; simpl.
  - now rewrite Z.eqb_refl.
  - destruct (Z.eqb_spec k k') as [->|N]; simpl.
    + now rewrite Z.eqb_refl.
    + destruct (Z.eqb_spec k k'); [contradiction | exact IH].
Qed.

Lemma map_get_set_neq m k k0 v : k0 <> k -> map_get (map_set m k v) k0 = map_get m k0.
Proof.
  intros N. induction m as [|[k' v'] m IH]; simpl.
  - destruct (Z.eqb_spec k0 k); [contradiction | reflexivity].
  - destruct (Z.eqb_spec k k') as [->|N']; simpl.
    + destruct (Z.eqb_spec k0 k'); [contradiction | reflexivity].
    + destruct (Z.eqb_spec k0 k'); [reflexivity | exact IH].
Qed.

Lemma map_keys_set m k v :
  map_keys (map_set m k v) = if map_has m k then map_keys m else map_keys m ++ [k].
Proof.
  unfold map_has, map_keys. induction m as [|[k' v'] m IH]; simpl; [reflexivity|].
  destruct (Z.eqb_spec k k') as [->|N]; simpl; [reflexivity|].
  rewrite IH. now destruct (map_get m k).
Qed.

Lemma map_set_length m k v :
  length (map_set m k v) = if map_has m k then length m else S (length m).
Proof.
  pose proof (map_keys_set m k v) as H. apply (f_equal (@length Z)) in H.
  unfold map_keys in H. rewrite length_map in H. rewrite H.
  destruct (map_has m k); rewrite ?length_app, length_map; simpl; lia.
Qed.

Lemma map_set_NoDup m k v : NoDup (map_keys m) -> NoDup (map_keys (map_set m k v)).
Proof.
  intros H. rewrite map_keys_set. destruct (map_has m k) eqn:E; [exact H|].
  apply NoDup_app; [exact H | repeat constructor; simpl; tauto |].
  intros a Ha [<-|[]]. apply map_has_In in Ha. congruence.
Qed.

Lemma map_keys_delete_incl m k k0 : In k0 (map_keys (map_delete m k)) -> In k0 (map_keys m).
Proof.
  induction m as [|[k' v'] m IH]; simpl; [tauto|].
  destruct (Z.eqb_spec k k'); simpl; [now right | intros [E|I]; [now left | right; auto]].
Qed.

Lemma map_delete_NoDup m k : NoDup (map_keys m) -> NoDup (map_keys (map_delete m k)).
Proof.
  induction m as [|[k' v'] m IH]; simpl; intros H; [constructor|].
  inversion H as [|? ? Hn Hd]; subst.
  destruct (Z.eqb_spec k k'); simpl; [exact Hd|].
  constructor; [intros I; apply Hn; eapply map_keys_delete_incl; eauto | auto].
Qed.

Lemma map_get_delete_eq m k : NoDup (map_keys m) -> map_get (map_delete m k) k = None.
Proof.
  induction m as [|[k' v'] m IH]; simpl; intros H; [reflexivity|].
  inversion H as [|? ? Hn Hd]; subst.
  destruct (Z.eqb_spec k k') as [->|N]; simpl.
  - now apply map_get_None.
  - destruct (Z.eqb_spec k k'); [contradiction | auto].
Qed.

Lemma map_get_delete_neq m k k0 : k0 <> k -> map_get (map_delete m k) k0 = map_get m k0.
Proof.
  intros N. induction m as [|[k' v'] m IH]; simpl; [reflexivity|].
  destruct (Z.eqb_spec k k') as [->|N']; simpl.
  - destruct (Z.eqb_spec k0 k'); [contradiction | reflexivity].
  - destruct (Z.eqb_spec k0 k'); [reflexivity | exact IH].
Qed.

End JsMapFacts.

(** ** Sorting *)

Lemma sort_ascending_perm (l : list Z) : Permutation l (sort_ascending l).
Proof. apply ZSort.Permuted_sort. Qed.

Lemma sort_ascending_In (l : list Z) (k : Z) : In k (sort_ascending l) <-> In k l.
Proof.
  split; apply Permutation_in; [symmetry|]; apply sort_ascending_perm.
Qed.

Lemma sort_ascending_NoDup (l : list Z) : NoDup l -> NoDup (sort_ascending l).
Proof. apply Permutation_NoDup, sort_ascending_perm. Qed.

Lemma sort_ascending_le (l : list Z) : StronglySorted Z.le (sort_ascending l).
Proof.
  assert (T : Relations_1.Transitive (fun a b => is_true (ZOrder.leb a b))).
  { intros a b c. unfold ZOrder.leb, is_true. rewrite !Z.leb_le. lia. }
  pose proof (ZSort.StronglySorted_sort l T) as H.
  unfold sort_ascending. induction H as [|a s Hs IH Ha]; constructor; auto.
  eapply Forall_impl; [|exact Ha]. intros b. unfold ZOrder.leb, is_true. now rewrite Z.leb_le.
Qed.

Lemma StronglySorted_le_lt (l : list Z) :
  NoDup l -> StronglySorted Z.le l -> StronglySorted Z.lt l.
Proof.
  intros N S. induction S as [|a s Hs IH Ha]; constructor.
  - apply IH. now inversion N.
  - inversion N as [|? ? Hn Hd]; subst. rewrite Forall_forall in *.
    intros b Hb. specialize (Ha b Hb). assert (a <> b) by (intros ->; auto). lia.
Qed.

Lemma sort_ascending_lt (l : list Z) : NoDup l -> StronglySorted Z.lt (sort_ascending l).
Proof.
  intros N. apply StronglySorted_le_lt; [now apply sort_ascending_NoDup | apply sort_ascending_le].
Qed.

(** A strictly ascending list has one sorted arrangement. *)
Lemma StronglySorted_lt_unique (l1 l2 : list Z) :
  StronglySorted Z.lt l1 -> StronglySorted Z.lt l2 ->
  (forall k, In k l1 <-> In k l2) -> l1 = l2.
Proof.
  intros S1. revert l2. induction S1 as [|a s Hs IH Ha]; intros l2 S2 E.
  - destruct l2 as [|b l2]; [reflexivity|]. exfalso. apply (E b). now left.
  - destruct S2 as [|b t Ht Hb].
    + exfalso. apply (E a). now left.
    + rewrite Forall_forall in Ha, Hb.
      assert (a = b) as <-.
      { destruct (proj1 (E a) (or_introl eq_refl)) as [->|I1]; [reflexivity|].
        destruct (proj2 (E b) (or_introl eq_refl)) as [->|I2]; [reflexivity|].
        specialize (Ha _ I2). specialize (Hb _ I1). lia. }
      f_equal. apply IH; [exact Ht|]. intros k. split; intros I.
      * destruct (proj1 (E k) (or_intror I)) as [<-|]; [|assumption].
        specialize (Ha _ I). lia.
      * destruct (proj2 (E k) (or_intror I)) as [<-|]; [|assumption].
        specialize (Hb _ I). lia.
Qed.

(** ** The parse pass *)

Lemma pread_full (file : list byte) (position : Z) (n : nat) :
  length (pread file position n) = n ->
  (Z.to_nat position + n <= length file)%nat \/ n = 0%nat.
Proof.
  unfold pread. rewrite length_firstn, length_skipn. lia.
Qed.

(** The loop never runs out of budget when given the length of the file. *)
Lemma parse_loop_total (file : list byte) (fuel : nat) :
  forall position st,
    0 <= position ->
    (length file - Z.to_nat position < fuel)%nat ->
    exists st', parse_loop fuel file position st = Some st'.
Proof.
  induction fuel as [|fuel IH]; intros position st Hp Hf; [lia|].
  cbn [parse_loop].
  destruct (Nat.eqb_spec (length (pread file position 12)) 12) as [E|N]; cbn [negb].
  - pose proof (le_decode_nonneg (slice 0 4 (pread file position 12))) as Hs.
    fold (getUint32 (pread file position 12) 0) in Hs.
    destruct (pread_full _ _ _ E) as [L|]; [|lia].
    apply IH; lia.
  - eauto.
Qed.

Lemma parse_frames_total (file : list byte) : exists st, parse_frames file = Some st.
Proof.
  unfold parse_frames. apply parse_loop_total; lia.
Qed.

Lemma parse_loop_fuel_mono (file : list byte) (fuel : nat) :
  forall fuel' position st st',
    parse_loop fuel file position st = Some st' ->
    (fuel <= fuel')%nat ->
    parse_loop fuel' file position st = Some st'.
Proof.
  induction fuel as [|fuel IH]; intros fuel' position st st' H L; [discriminate|].
  destruct fuel' as [|fuel']; [lia|].
  cbn [parse_loop] in *.
  destruct (negb (length (pread file position 12) =? 12)%nat); [exact H|].
  apply IH; [exact H | lia].
Qed.

(** A property of [position] and the loop state that every pass through the
    body keeps holds when the loop ends. *)
Lemma parse_loop_invariant (file : list byte) (P : Z -> ParseState -> Prop) :
  (forall position st,
      P position st ->
      length (pread file position 12) = 12%nat ->
      P (position + (getUint32 (pread file position 12) 0 + 12))
        (record_frame st position
           (getUint32 (pread file position 12) 0)
           (frame_pts (pread file position 12)))) ->
  forall fuel position st st',
    P position st ->
    parse_loop fuel file position st = Some st' ->
    exists position', P position' st'.
Proof.
  intros Step. induction fuel as [|fuel IH]; intros position st st' HP H; [discriminate|].
  cbn [parse_loop] in H.
  destruct (Nat.eqb_spec (length (pread file position 12)) 12) as [E|N]; cbn [negb] in H.
  - eapply IH; [|exact H]. now apply Step.
  - injection H as <-. eauto.
Qed.

Lemma record_frame_NoDup (st : ParseState) (position size pts : Z) :
  NoDup (map_keys (loop_frames st)) ->
  NoDup (map_keys (loop_frames (record_frame st position size pts))).
Proof.
  intros H. unfold record_frame.
  destruct (map_has (loop_frames st) pts); cbn [loop_frames]; [exact H|].
  now apply map_set_NoDup.
Qed.

Lemma record_frame_keeps (st : ParseState) (position size pts k : Z) (f : IvfFrame) :
  map_get (loop_frames st) k = Some f ->
  map_get (loop_frames (record_frame st position size pts)) k = Some f.
Proof.
  intros H. unfold record_frame, map_has.
  destruct (map_get (loop_frames st) pts) eqn:E; cbn [loop_frames]; [exact H|].
  rewrite map_get_set_neq; [exact H | congruence].
Qed.

Lemma record_frame_warned (st : ParseState) (position size pts k : Z) :
  In k (loop_warned st) -> In k (loop_warned (record_frame st position size pts)).
Proof.
  intros H. unfold record_frame.
  destruct (map_has (loop_frames st) pts); cbn [loop_warned]; [now right | exact H].
Qed.

Lemma parse_loop_NoDup (file : list byte) (fuel : nat) (position : Z) (st st' : ParseState) :
  NoDup (map_keys (loop_frames st)) ->
  parse_loop fuel file position st = Some st' ->
  NoDup (map_keys (loop_frames st')).
Proof.
  intros H E.
  destruct (parse_loop_invariant file (fun _ s => NoDup (map_keys (loop_frames s))))
    with (2 := H) (3 := E) as [_ R]; [|exact R].
  intros; now apply record_frame_NoDup.
Qed.

Lemma parse_loop_keeps (file : list byte) (fuel : nat) (position : Z) (st st' : ParseState)
    (k : Z) (f : IvfFrame) :
  map_get (loop_frames st) k = Some f ->
  parse_loop fuel file position st = Some st' ->
  map_get (loop_frames st') k = Some f.
Proof.
  intros H E.
  destruct (parse_loop_invariant file (fun _ s => map_get (loop_frames s) k = Some f))
    with (2 := H) (3 := E) as [_ R]; [|exact R].
  intros; now apply record_frame_keeps.
Qed.

Lemma parse_loop_catalogue_ok (file : list byte) (fuel : nat) (position : Z)
    (st st' : ParseState) :
  0 <= position ->
  catalogue_ok file (loop_frames st) ->
  parse_loop fuel file position st = Some st' ->
  catalogue_ok file (loop_frames st').
Proof.
  intros Hp H E.
  destruct (parse_loop_invariant file
              (fun p s => 0 <= p /\ catalogue_ok file (loop_frames s)))
    with (2 := conj Hp H) (3 := E) as [_ [_ R]]; [|exact R].
  intros p s [Hp' Hc] L. split.
  - pose proof (le_decode_nonneg (slice 0 4 (pread file p 12))) as Hs.
    fold (getUint32 (pread file p 12) 0) in Hs. lia.
  - unfold record_frame, map_has.
    destruct (map_get (loop_frames s) _) eqn:G; cbn [loop_frames]; [exact Hc|].
    intros k f. destruct (Z.eq_dec k (frame_pts (pread file p 12))) as [->|N].
    + rewrite map_get_set_eq. intros [= <-]. unfold entry_ok. cbn. auto.
    + rewrite map_get_set_neq by exact N. apply Hc.
Qed.

(** ** Parsing a sequence of well-formed frame records *)

Lemma slice_firstn (off len n : nat) (b : list byte) :
  (off + len <= n)%nat -> slice off len (firstn n b) = slice off len b.
Proof.
  intros H. unfold slice. rewrite skipn_firstn_comm, firstn_firstn.
  f_equal. lia.
Qed.

Lemma pread_frame (pre b rest : list byte) :
  (12 <= length b)%nat ->
  pread (pre ++ b ++ rest) (Z.of_nat (length pre)) 12 = firstn 12 b.
Proof.
  intros H. unfold pread. rewrite Nat2Z.id.
  rewrite skipn_app_exact by reflexivity.
  rewrite firstn_app. replace (12 - length b)%nat with 0%nat by lia.
  simpl. apply app_nil_r.
Qed.

Lemma pread_past_end (file : list byte) (position : Z) (n : nat) :
  (length file <= Z.to_nat position)%nat -> pread file position n = [].
Proof.
  intros H. unfold pread. rewrite skipn_all2 by exact H. apply firstn_nil.
Qed.

Lemma parse_loop_frames (bs : list (list byte)) :
  forall fuel pre rest st,
    Forall frame_ok bs ->
    parse_loop (length bs + fuel) (pre ++ concat bs ++ rest) (Z.of_nat (length pre)) st
    = parse_loop fuel (pre ++ concat bs ++ rest)
        (Z.of_nat (length pre + length (concat bs)))
        (record_frames bs (Z.of_nat (length pre)) st).
Proof.
  induction bs as [|b bs IH]; intros fuel pre rest st F.
  - simpl. now rewrite Nat.add_0_r.
  - inversion F as [|? ? [L S] F']; subst.
    cbn [length Nat.add parse_loop concat record_frames].
    rewrite <- (app_assoc b). rewrite pread_frame by exact L.
    rewrite length_firstn. replace (Nat.min 12 (length b)) with 12%nat by lia.
    cbn [Nat.eqb negb].
    unfold frame_pts at 1. unfold getUint32 at 1 2, getBigUint64 at 1.
    rewrite !slice_firstn by lia.
    fold (getUint32 b 0) (getBigUint64 b 4). fold (frame_pts b).
    rewrite S, <- Nat2Z.inj_add, <- length_app.
    rewrite (app_assoc pre b). rewrite IH by exact F'.
    rewrite !length_app. do 2 f_equal. lia.
Qed.

Lemma frames_total_length (bs : list (list byte)) :
  Forall frame_ok bs -> (length bs <= length (concat bs))%nat.
Proof.
  induction 1 as [|b bs [L _] _ IH]; simpl; [lia|]. rewrite length_app. lia.
Qed.

(** Parsing a 32-byte header followed by well-formed frame records
    catalogues exactly those records. *)
Lemma parse_frames_wellformed (hdr : list byte) (bs : list (list byte)) :
  length hdr = 32%nat ->
  Forall frame_ok bs ->
  parse_frames (hdr ++ concat bs)
  = Some (record_frames bs 32 {| loop_index := 0; loop_frames := []; loop_warned := [] |}).
Proof.
  intros H F. unfold parse_frames.
  apply parse_loop_fuel_mono with (fuel := (length bs + 1)%nat).
  - pose proof (parse_loop_frames bs 1 hdr [] {| loop_index := 0; loop_frames := []; loop_warned := [] |} F) as E.
    rewrite app_nil_r, H in E. change (Z.of_nat 32) with 32 in E. rewrite E.
    cbn [parse_loop]. rewrite pread_past_end; [reflexivity|].
    rewrite length_app, Nat2Z.id. lia.
  - pose proof (frames_total_length bs F). rewrite length_app. lia.
Qed.

Lemma record_frames_distinct (bs : list (list byte)) :
  forall position st,
    NoDup (map_keys (loop_frames st) ++ map frame_pts bs) ->
    map_keys (loop_frames (record_frames bs position st))
    = map_keys (loop_frames st) ++ map frame_pts bs.
Proof.
  induction bs as [|b bs IH]; intros position st N; cbn [record_frames map].
  - now rewrite app_nil_r.
  - assert (H : map_has (loop_frames st) (frame_pts b) = false).
    { destruct (map_has _ _) eqn:E; [|reflexivity].
      apply map_has_In in E. apply NoDup_remove_2 in N.
      exfalso. apply N. apply in_or_app. now left. }
    assert (K : map_keys (loop_frames (record_frame st position (getUint32 b 0) (frame_pts b)))
                = map_keys (loop_frames st) ++ [frame_pts b]).
    { unfold record_frame. rewrite H. cbn [loop_frames]. now rewrite map_keys_set, H. }
    rewrite IH; rewrite K, <- app_assoc; [reflexivity | exact N].
Qed.

(** ** The invariant of the repair loop *)

Lemma chained_snoc (ws : list WriteOp) (w : WriteOp) :
  forall p q,
    chained p ws q -> offset w = q ->
    chained p (ws ++ [w]) (q + Z.of_nat (length (bytes w))).
Proof.
  induction ws as [|a ws IH]; intros p q H E; simpl in *.
  - subst. auto.
  - destruct H as [Ha Hc]. split; [exact Ha | now apply IH].
Qed.

Lemma zseq_length (n : nat) : forall a, length (zseq a n) = n.
Proof.
  induction n as [|n IH]; intros a; simpl; [reflexivity | now rewrite IH].
Qed.

Lemma zseq_snoc (n : nat) : forall a, zseq a (S n) = zseq a n ++ [a + Z.of_nat n].
Proof.
  induction n as [|n IH]; intros a.
  - simpl. now rewrite Z.add_0_r.
  - change (zseq a (S (S n))) with (a :: zseq (a + 1) (S n)).
    rewrite IH. cbn [zseq app]. do 3 f_equal. lia.
Qed.

Lemma frame_ok_setBigUint64 (b : list byte) (t : Z) :
  frame_ok b -> frame_ok (setBigUint64 b 4 t).
Proof.
  intros [L S]. split.
  - now rewrite setBigUint64_length.
  - now rewrite getUint32_setBigUint64, setBigUint64_length.
Qed.

(** Appending one frame write keeps the invariant: either the first frame
    of the stream, or the successor of the previous timestamp; a duplicate
    is the previous buffer with a new timestamp. *)
Lemma writer_inv_push (st : RepairState) (s : WriteSite) (b0 : list byte)
    (t sp dup : Z) :
  writer_inv st ->
  frame_ok b0 ->
  s <> HeaderRewrite ->
  (previousFrame st = None /\ sp = t /\ 0 < t /\ s = CurrentFrame) \/
  (exists buf, previousFrame st = Some buf /\ sp = startPts st /\
               t = previousPts st + 1 /\ (s = DuplicateFrame -> b0 = buf)) ->
  writer_inv
    {| out_position := out_position st + Z.of_nat (length (setBigUint64 b0 4 t));
       writtenFrames := writtenFrames st + 1;
       startPts := sp;
       previousPts := t;
       previousFrame := Some (setBigUint64 b0 4 t);
       duplicatedFrames := dup;
       writes := writes st ++
         [{| site := s; offset := out_position st; bytes := setBigUint64 b0 4 t |}] |}.
Proof.
  intros [Hc Hn Hf Hp Hd Hv] Fb Hs Hcase.
  pose proof (frame_ok_setBigUint64 b0 t Fb) as Fb'.
  assert (Hsp : previousFrame st <> None -> sp = startPts st).
  { destruct Hcase as [[E _]|[buf [E [-> _]]]]; congruence. }
  assert (Ht : t = sp + Z.of_nat (length (writes st)) /\ 0 < sp).
  { destruct Hcase as [[E [-> [H0 _]]]|[buf [E [-> [-> _]]]]]; rewrite E in Hv.
    - destruct Hv as [-> _]. simpl. lia.
    - lia. }
  constructor; cbn [out_position writtenFrames startPts previousPts previousFrame writes].
  - apply (chained_snoc _ {| site := s; offset := out_position st;
                             bytes := setBigUint64 b0 4 t |}); [exact Hc | reflexivity].
  - rewrite length_app. simpl. lia.
  - apply Forall_app. split; [exact Hf|].
    constructor; [split; [exact Fb' | exact Hs] | constructor].
  - rewrite length_app, Nat.add_1_r, zseq_snoc, !map_app. f_equal.
    + destruct (previousFrame st) eqn:E.
      * rewrite Hsp by congruence. exact Hp.
      * destruct Hv as [-> _]. reflexivity.
    + cbn [map]. unfold embedded_pts. cbn [bytes]. rewrite get_setBigUint64 by apply Fb.
      unfold wrap64. destruct Ht as [-> _]. reflexivity.
  - intros i d Hi Hsite.
    destruct (Nat.lt_ge_cases i (length (writes st))) as [Lt|Ge].
    + rewrite nth_error_app1 in Hi by exact Lt.
      destruct (Hd i d Hi Hsite) as (j & p & u & -> & Hj & Hb).
      exists j, p, u. repeat split; [|exact Hb].
      rewrite nth_error_app1 by lia. exact Hj.
    + rewrite nth_error_app2 in Hi by exact Ge.
      destruct (i - length (writes st))%nat as [|k] eqn:K;
        [|destruct k; discriminate].
      injection Hi as <-. cbn [site] in Hsite. subst s.
      destruct Hcase as [[_ [_ [_ C]]]|[buf [E [_ [_ Hb]]]]]; [discriminate|].
      rewrite E in Hv. destruct Hv as [(ws & w & Ew & Eb) _].
      exists (length ws), w, t.
      assert (i = length (writes st)) as -> by lia.
      rewrite Ew, !length_app. simpl. repeat split.
      * lia.
      * rewrite <- app_assoc. rewrite nth_error_app2 by lia.
        now rewrite Nat.sub_diag.
      * rewrite Eb. now rewrite Hb.
  - repeat split; [eauto | apply Ht |].
    rewrite length_app. simpl. lia.
Qed.

Lemma writer_inv_initial : writer_inv initial_state.
Proof.
  constructor; simpl; auto; try lia.
  - intros [|i] d H; discriminate.
  - split; [reflexivity | lia].
Qed.

Lemma writer_inv_buffer_ok (st : RepairState) (buf : list byte) :
  writer_inv st -> previousFrame st = Some buf -> frame_ok buf.
Proof.
  intros I E. pose proof (inv_prev st I) as Hv. rewrite E in Hv.
  destruct Hv as [(ws & w & Ew & <-) _].
  pose proof (inv_frames st I) as Hf. rewrite Ew in Hf.
  apply Forall_app in Hf. destruct Hf as [_ Hf]. inversion Hf as [|? ? [F _] _]. exact F.
Qed.

Lemma writer_inv_shape (st : RepairState) : writer_inv st -> writer_shape st.
Proof.
  intros [Hc Hn Hf Hp Hd Hv]. constructor; auto.
  destruct (previousFrame st); [apply Hv | apply Hv].
Qed.

Lemma writer_shape_initial : writer_shape initial_state.
Proof.
  constructor; simpl; auto.
  intros [|i] d H; discriminate.
Qed.

Lemma writer_shape_buffer_ok (st : RepairState) (buf : list byte) :
  writer_shape st -> previousFrame st = Some buf -> frame_ok buf.
Proof.
  intros I E. pose proof (shape_prev st I) as Hv. rewrite E in Hv.
  destruct Hv as (ws & w & Ew & <-).
  pose proof (shape_frames st I) as Hf. rewrite Ew in Hf.
  apply Forall_app in Hf. destruct Hf as [_ Hf]. inversion Hf as [|? ? [F _] _]. exact F.
Qed.

(** Appending one frame write keeps the shape of the writes; a duplicate is
    the previous buffer with a new timestamp. *)
Lemma writer_shape_push (st : RepairState) (s : WriteSite) (b0 : list byte)
    (t sp dup : Z) :
  writer_shape st ->
  frame_ok b0 ->
  s <> HeaderRewrite ->
  (s = DuplicateFrame -> previousFrame st = Some b0) ->
  writer_shape
    {| out_position := out_position st + Z.of_nat (length (setBigUint64 b0 4 t));
       writtenFrames := writtenFrames st + 1;
       startPts := sp;
       previousPts := t;
       previousFrame := Some (setBigUint64 b0 4 t);
       duplicatedFrames := dup;
       writes := writes st ++
         [{| site := s; offset := out_position st; bytes := setBigUint64 b0 4 t |}] |}.
Proof.
  intros [Hc Hn Hf Hd Hv] Fb Hs Hdup.
  pose proof (frame_ok_setBigUint64 b0 t Fb) as Fb'.
  constructor; cbn [out_position writtenFrames startPts previousPts previousFrame writes].
  - apply (chained_snoc _ {| site := s; offset := out_position st;
                             bytes := setBigUint64 b0 4 t |}); [exact Hc | reflexivity].
  - rewrite length_app. simpl. lia.
  - apply Forall_app. split; [exact Hf|].
    constructor; [split; [exact Fb' | exact Hs] | constructor].
  - intros i d Hi Hsite.
    destruct (Nat.lt_ge_cases i (length (writes st))) as [Lt|Ge].
    + rewrite nth_error_app1 in Hi by exact Lt.
      destruct (Hd i d Hi Hsite) as (j & p & u & -> & Hj & Hb).
      exists j, p, u. repeat split; [|exact Hb].
      rewrite nth_error_app1 by lia. exact Hj.
    + rewrite nth_error_app2 in Hi by exact Ge.
      destruct (i - length (writes st))%nat as [|k] eqn:K;
        [|destruct k; discriminate].
      injection Hi as <-. cbn [site] in Hsite. subst s.
      rewrite (Hdup eq_refl) in Hv. destruct Hv as (ws & w & Ew & Eb).
      exists (length ws), w, t.
      assert (i = length (writes st)) as -> by lia.
      rewrite Ew, !length_app. simpl. repeat split.
      * lia.
      * rewrite <- app_assoc. rewrite nth_error_app2 by lia.
        now rewrite Nat.sub_diag.
      * now rewrite Eb.
  - eauto.
Qed.

(** The condition of the gap loop and the number of missing frames, while
    the timestamps stay within 2^53. *)
Lemma gap_condition_exact (pts previousPts : Z) :
  0 <= previousPts <= 2 ^ 53 -> 0 < pts <= 2 ^ 53 ->
  js_minus (js_minus pts previousPts) 1 = pts - previousPts - 1.
Proof.
  intros P T. rewrite (js_minus_exact pts previousPts) by lia.
  apply js_minus_exact; lia.
Qed.

Lemma missing_before_exact (pts previousPts : Z) :
  -1 <= previousPts <= 2 ^ 53 -> 0 < pts <= 2 ^ 53 ->
  missing_before pts previousPts = pts - 1 - previousPts.
Proof.
  intros P T. unfold missing_before. rewrite (js_minus_exact pts 1) by lia.
  apply js_minus_exact; lia.
Qed.

(** Within 2^53 the gap loop leaves by its condition, after one duplicate
    for each missing timestamp: the buffer of the previous frame with that
    timestamp, written behind the one before. *)
Lemma fill_gap_writes (fuel : nat) (pts : Z) :
  forall buf st,
    (12 <= length buf)%nat ->
    0 <= previousPts st ->
    pts <= 2 ^ 53 ->
    previousPts st + Z.of_nat fuel = pts - 1 ->
    exists st',
      fill_gap fuel pts buf st = Ok st' /\
      previousPts st' = pts - 1 /\
      startPts st' = startPts st /\
      out_position st' = out_position st + Z.of_nat fuel * Z.of_nat (length buf) /\
      writes st' = writes st ++
        map (fun t => {| site := DuplicateFrame;
                         offset := out_position st
                                   + (t - previousPts st - 1) * Z.of_nat (length buf);
                         bytes := setBigUint64 buf 4 t |})
            (zseq (previousPts st + 1) fuel) /\
      duplicatedFrames st' = duplicatedFrames st + Z.of_nat fuel /\
      writtenFrames st' = writtenFrames st + Z.of_nat fuel.
Proof.
  induction fuel as [|fuel IH]; intros buf st Lb P T H.
  - cbn [fill_gap]. rewrite gap_condition_exact by lia.
    destruct (Z.gtb_spec (pts - previousPts st - 1) 0) as [G|G]; [lia|].
    exists st. cbn [zseq map]. rewrite app_nil_r.
    split; [reflexivity|]. split; [lia|]. split; [reflexivity|].
    split; [lia|]. split; [reflexivity|]. lia.
  - cbn [fill_gap]. rewrite gap_condition_exact by lia.
    destruct (Z.gtb_spec (pts - previousPts st - 1) 0) as [G|G]; [|lia].
    rewrite (js_plus_exact (previousPts st) 1) by lia.
    rewrite is_infinite_false by lia.
    set (b := setBigUint64 buf 4 (previousPts st + 1)).
    assert (Eb : length b = length buf) by (now apply setBigUint64_length).
    destruct (IH b (duplicate_written st (previousPts st + 1) b))
      as (st' & R & P' & S & O & W & D & N).
    + lia.
    + cbn [duplicate_written previousPts]. lia.
    + exact T.
    + cbn [duplicate_written previousPts]. lia.
    + exists st'. split; [exact R|].
      cbn [duplicate_written startPts writes previousPts out_position duplicatedFrames
           writtenFrames] in S, W, P', D, O, N.
      split; [exact P'|]. split; [exact S|]. split; [rewrite O, Eb; lia|].
      split; [|lia].
      rewrite W, <- app_assoc. f_equal. cbn [zseq map app]. f_equal.
      * f_equal. lia.
      * apply map_ext_in. intros t Ht. unfold b at 3.
        rewrite setBigUint64_twice, Eb by exact Lb. f_equal. lia.
Qed.

(** Within 2^53 the gap loop keeps the invariant. *)
Lemma fill_gap_exit (fuel : nat) (pts : Z) :
  forall buf st,
    writer_inv st ->
    previousFrame st = Some buf ->
    0 <= previousPts st ->
    pts <= 2 ^ 53 ->
    previousPts st + Z.of_nat fuel = pts - 1 ->
    exists st',
      fill_gap fuel pts buf st = Ok st' /\
      writer_inv st' /\
      previousPts st' = pts - 1 /\
      startPts st' = startPts st /\
      (exists buf', previousFrame st' = Some buf').
Proof.
  induction fuel as [|fuel IH]; intros buf st I E P T H.
  - cbn [fill_gap]. rewrite gap_condition_exact by lia.
    destruct (Z.gtb_spec (pts - previousPts st - 1) 0) as [G|G]; [lia|].
    exists st.
    split; [reflexivity|]. split; [exact I|]. split; [lia|]. split; [reflexivity|].
    eauto.
  - cbn [fill_gap]. rewrite gap_condition_exact by lia.
    destruct (Z.gtb_spec (pts - previousPts st - 1) 0) as [G|G]; [|lia].
    rewrite (js_plus_exact (previousPts st) 1) by lia.
    rewrite is_infinite_false by lia.
    pose proof (writer_inv_buffer_ok st buf I E) as Fb.
    set (b := setBigUint64 buf 4 (previousPts st + 1)).
    destruct (IH b (duplicate_written st (previousPts st + 1) b))
      as (st' & R & I' & P' & S & B).
    + unfold duplicate_written, b. apply writer_inv_push; [exact I | exact Fb | discriminate |].
      right. exists buf. auto.
    + reflexivity.
    + cbn [duplicate_written previousPts]. lia.
    + exact T.
    + cbn [duplicate_written previousPts]. lia.
    + exists st'. split; [exact R|]. split; [exact I'|].
      cbn [duplicate_written startPts previousPts] in S, P'.
      split; [exact P'|]. split; [exact S | exact B].
Qed.

(** Whatever the timestamps, a gap loop that ends keeps the shape of the
    writes, the start timestamp and a previous frame, and never lowers the
    counters. *)
Lemma fill_gap_shape (fuel : nat) (pts : Z) :
  forall buf st st',
    writer_shape st ->
    previousFrame st = Some buf ->
    fill_gap fuel pts buf st = Ok st' ->
    writer_shape st' /\
    startPts st' = startPts st /\
    (exists buf', previousFrame st' = Some buf') /\
    writtenFrames st <= writtenFrames st'.
Proof.
  induction fuel as [|fuel IH]; intros buf st st' I E R; cbn [fill_gap] in R;
    destruct (js_minus (js_minus pts (previousPts st)) 1 >? 0);
    try discriminate;
    try (injection R as <-; split; [exact I|]; split; [reflexivity|];
         split; [eauto | lia]).
  destruct (is_infinite (js_plus (previousPts st) 1)); [discriminate|].
  pose proof (writer_shape_buffer_ok st buf I E) as Fb.
  apply IH in R.
  - cbn [duplicate_written startPts writtenFrames] in R.
    destruct R as (I' & S & B & W).
    split; [exact I'|]. split; [exact S|]. split; [exact B | lia].
  - unfold duplicate_written. apply writer_shape_push; [exact I | exact Fb | discriminate |].
    intros _. exact E.
  - reflexivity.
Qed.

(** A gap loop that ends before a timestamp above 2^53 has written a frame
    for every timestamp up to 2^53 - 1 at least. *)
Lemma fill_gap_progress (fuel : nat) (pts : Z) :
  forall buf st st',
    2 ^ 53 < pts ->
    0 <= previousPts st <= 2 ^ 53 ->
    fill_gap fuel pts buf st = Ok st' ->
    2 ^ 53 - 1 - previousPts st <= writtenFrames st' - writtenFrames st.
Proof.
  assert (Stay : forall p, 0 <= p <= 2 ^ 53 - 2 -> 2 ^ 53 < pts ->
                           (js_minus (js_minus pts p) 1 >? 0) = true).
  { intros p P T. apply Z.gtb_lt.
    assert (A : 3 <= js_minus pts p).
    { unfold js_minus. apply js_plus_lower; [lia | apply is_infinite_false; lia | lia | lia]. }
    assert (B : 2 <= js_minus (js_minus pts p) 1).
    { unfold js_minus at 1. apply js_plus_lower; [lia | reflexivity | lia | lia]. }
    lia. }
  induction fuel as [|fuel IH]; intros buf st st' T P R; cbn [fill_gap] in R.
  - destruct (js_minus (js_minus pts (previousPts st)) 1 >? 0) eqn:C; [discriminate|].
    injection R as <-.
    destruct (Z.le_gt_cases (previousPts st) (2 ^ 53 - 2)) as [Lo|Hi]; [|lia].
    rewrite Stay in C by lia. discriminate.
  - destruct (js_minus (js_minus pts (previousPts st)) 1 >? 0) eqn:C.
    + destruct (is_infinite (js_plus (previousPts st) 1)); [discriminate|].
      apply IH in R; [|exact T|].
      * cbn [duplicate_written writtenFrames previousPts] in R.
        assert (js_plus (previousPts st) 1 <= previousPts st + 1).
        { destruct (Z.eq_dec (previousPts st) (2 ^ 53)) as [->|N]; [vm_compute; discriminate|].
          rewrite js_plus_exact by lia. lia. }
        lia.
      * cbn [duplicate_written previousPts].
        destruct (Z.eq_dec (previousPts st) (2 ^ 53)) as [->|N]; [vm_compute; split; discriminate|].
        rewrite js_plus_exact by lia. lia.
    + injection R as <-.
      destruct (Z.le_gt_cases (previousPts st) (2 ^ 53 - 2)) as [Lo|Hi]; [|lia].
      rewrite Stay in C by lia. discriminate.
Qed.

Lemma getUint32_read_into_fresh (file : list byte) (pos : Z) (n : nat) :
  (12 <= n)%nat ->
  (Z.to_nat pos + 12 <= length file)%nat ->
  getUint32 (read_into_fresh file pos n) 0 = getUint32 (pread file pos 12) 0.
Proof.
  intros Hn Hl. unfold getUint32, slice, read_into_fresh, pread. cbn [skipn].
  set (sk := skipn (Z.to_nat pos) file).
  assert (Lsk : (12 <= length sk)%nat) by (unfold sk; rewrite length_skipn; lia).
  rewrite firstn_firstn. change (Nat.min 4 12) with 4%nat.
  rewrite firstn_app, firstn_firstn, length_firstn.
  replace (4 - Nat.min n (length sk))%nat with 0%nat by lia.
  replace (Nat.min 4 n) with 4%nat by lia.
  cbn [firstn]. now rewrite app_nil_r.
Qed.

Lemma read_frame_ok (file : list byte) (f : IvfFrame) :
  entry_ok file f ->
  frame_ok (read_into_fresh file (position f) (Z.to_nat (size f))).
Proof.
  intros (Hp & L & S).
  pose proof (le_decode_nonneg (slice 0 4 (pread file (position f) 12))) as Hs.
  fold (getUint32 (pread file (position f) 12) 0) in Hs.
  destruct (pread_full _ _ _ L) as [Hl|]; [|lia].
  split; rewrite read_into_fresh_length; [lia|].
  rewrite getUint32_read_into_fresh by lia. lia.
Qed.

Lemma fill_gap_monotone (fuel : nat) (pts : Z) :
  forall buf st st',
    fill_gap fuel pts buf st = Ok st' ->
    startPts st' = startPts st /\ writtenFrames st <= writtenFrames st' /\
    duplicatedFrames st <= duplicatedFrames st'.
Proof.
  induction fuel as [|fuel IH]; intros buf st st' R; cbn [fill_gap] in R;
    destruct (js_minus (js_minus pts (previousPts st)) 1 >? 0);
    try discriminate; try (injection R as <-; lia).
  destruct (is_infinite (js_plus (previousPts st) 1)); [discriminate|].
  apply IH in R. cbn [duplicate_written startPts writtenFrames duplicatedFrames] in R. lia.
Qed.

Lemma close_gap_monotone (frameRate : number) (pts : Z) (st st' : RepairState) :
  close_gap frameRate pts st = Ok st' ->
  startPts st' = startPts st /\ writtenFrames st <= writtenFrames st' /\
  duplicatedFrames st <= duplicatedFrames st'.
Proof.
  unfold close_gap. destruct (previousFrame st) as [buf|]; [|intros [= <-]; lia].
  destruct (_ && _); [|intros [= <-]; lia].
  destruct (exceeds_one_hour _ _); [discriminate|]. apply fill_gap_monotone.
Qed.

Lemma repair_step_monotone (file : list byte) (info : IvfInfo) (st st' : RepairState)
    (pts : Z) :
  repair_step file info st pts = Ok st' ->
  writtenFrames st <= writtenFrames st' /\
  duplicatedFrames st <= duplicatedFrames st' /\
  (0 <= startPts st -> startPts st' = startPts st).
Proof.
  unfold repair_step. destruct (map_get (frames info) pts) as [f|]; [|intros [= <-]; lia].
  destruct (close_gap (frameRate info) pts st) as [st1|e] eqn:Cg; [|discriminate].
  apply close_gap_monotone in Cg. destruct Cg as (S & W & D).
  unfold emit_frame. destruct (is_infinite pts); [discriminate|]. intros [= <-].
  cbn [writtenFrames duplicatedFrames startPts]. split; [lia|]. split; [lia|].
  intros H. destruct (Z.ltb_spec (startPts st1) 0); lia.
Qed.

(** One pass through the body of the loop keeps the shape of the writes. *)
Lemma repair_step_shape (file : list byte) (info : IvfInfo) (st st' : RepairState)
    (pts : Z) :
  catalogue_ok file (frames info) ->
  writer_shape st ->
  repair_step file info st pts = Ok st' ->
  writer_shape st'.
Proof.
  intros C I. unfold repair_step.
  destruct (map_get (frames info) pts) as [f|] eqn:G; [|now intros [= <-]].
  pose proof (read_frame_ok file f (C _ _ G)) as Fr.
  destruct (close_gap (frameRate info) pts st) as [st1|e] eqn:Cg; [|discriminate].
  assert (I1 : writer_shape st1).
  { unfold close_gap in Cg. destruct (previousFrame st) as [buf|] eqn:E.
    - destruct (_ && _); [|now injection Cg as <-].
      destruct (exceeds_one_hour _ _); [discriminate|].
      now apply (fill_gap_shape _ _ _ _ _ I E) in Cg.
    - now injection Cg as <-. }
  unfold emit_frame. destruct (is_infinite pts); [discriminate|]. intros [= <-].
  apply writer_shape_push; [exact I1 | exact Fr | discriminate | discriminate].
Qed.

Lemma repair_loop_shape (file : list byte) (info : IvfInfo) (todo : list Z) :
  forall st st',
    catalogue_ok file (frames info) ->
    writer_shape st ->
    repair_loop file info todo st = Ok st' ->
    writer_shape st'.
Proof.
  induction todo as [|pts todo IH]; intros st st' C I; cbn [repair_loop].
  - now intros [= <-].
  - destruct (repair_step file info st pts) as [st1|e] eqn:E; [|discriminate].
    apply IH; [exact C|]. now apply (repair_step_shape file info st st1 pts).
Qed.

(** One pass through the body of the loop, for a timestamp within 2^53. *)
Lemma repair_step_inv (file : list byte) (info : IvfInfo) (st st' : RepairState) (pts : Z) :
  catalogue_ok file (frames info) ->
  writer_inv st ->
  0 < pts <= 2 ^ 53 ->
  previousPts st < pts ->
  repair_step file info st pts = Ok st' ->
  writer_inv st' /\
  (map_get (frames info) pts = None -> st' = st) /\
  (map_get (frames info) pts <> None ->
   previousPts st' = pts /\
   startPts st' = (if startPts st <? 0 then pts else startPts st)).
Proof.
  intros C I Hp Hlt. unfold repair_step.
  destruct (map_get (frames info) pts) as [f|] eqn:G.
  2:{ intros [= <-]. split; [exact I|]. split; [reflexivity | tauto]. }
  pose proof (read_frame_ok file f (C _ _ G)) as Fr.
  destruct (close_gap (frameRate info) pts st) as [st1|e] eqn:Cg; [|discriminate].
  unfold emit_frame. rewrite is_infinite_false by lia.
  intros [= <-].
  assert (I1 : writer_inv st1 /\ startPts st1 = startPts st /\
               ((previousFrame st1 = None /\ previousFrame st = None) \/
                (exists b, previousFrame st1 = Some b) /\ previousPts st1 = pts - 1)).
  { unfold close_gap in Cg. destruct (previousFrame st) as [buf|] eqn:E.
    - pose proof (inv_prev st I) as Hv. rewrite E in Hv.
      destruct Hv as (_ & H0 & Hprev).
      destruct (Z.geb_spec (previousPts st) 0) as [_|]; [|lia]. cbn [andb] in Cg.
      rewrite missing_before_exact in Cg by lia.
      destruct (Z.gtb_spec (pts - 1 - previousPts st) 0) as [Gap|NoGap].
      + destruct (exceeds_one_hour _ _); [discriminate|].
        destruct (fill_gap_exit (Z.to_nat (pts - 1 - previousPts st)) pts buf st I E)
          as (st2 & R & I' & P & S & B); [lia | lia | lia|].
        rewrite R in Cg. injection Cg as <-. auto.
      + injection Cg as <-.
        split; [exact I|]. split; [reflexivity|]. right; split; [eauto | lia].
    - injection Cg as <-. auto. }
  destruct I1 as (I1 & S1 & Hcase).
  split; [|split; [discriminate|]].
  - apply writer_inv_push; [exact I1 | exact Fr | discriminate |].
    destruct Hcase as [[E1 E]|[[b Eb] P]].
    + left. pose proof (inv_prev st I) as Hv. rewrite E in Hv.
      destruct (Z.ltb_spec (startPts st1) 0); [split; [exact E1|]; split; [reflexivity|]; split; [lia | reflexivity] | lia].
    + right. exists b. pose proof (inv_prev st1 I1) as Hv. rewrite Eb in Hv.
      destruct (Z.ltb_spec (startPts st1) 0); [lia|].
      split; [exact Eb|]. split; [reflexivity|]. split; [lia | discriminate].
  - intros _. cbn [previousPts startPts]. now rewrite S1.
Qed.

(** One pass through the body of the loop for a timestamp above 2^53, from
    a state within 2^53: if it completes, it has written more frames than
    there are timestamps from the start up to 2^53. *)
Lemma repair_step_beyond (file : list byte) (info : IvfInfo) (st st' : RepairState)
    (pts : Z) :
  writer_inv st ->
  startPts st + writtenFrames st <= 2 ^ 53 ->
  2 ^ 53 < pts ->
  map_get (frames info) pts <> None ->
  repair_step file info st pts = Ok st' ->
  0 < startPts st' /\ 2 ^ 53 < startPts st' + writtenFrames st'.
Proof.
  intros I B T. unfold repair_step.
  destruct (map_get (frames info) pts) as [f|] eqn:G; [intros _|congruence].
  destruct (close_gap (frameRate info) pts st) as [st1|e] eqn:Cg; [|discriminate].
  unfold emit_frame. destruct (is_infinite pts); [discriminate|]. intros [= <-].
  cbn [startPts writtenFrames].
  pose proof (inv_prev st I) as Hv. pose proof (inv_count st I) as Hn.
  unfold close_gap in Cg. destruct (previousFrame st) as [buf|] eqn:E.
  - destruct Hv as ((ws & w & Ew & _) & H0 & Hprev).
    assert (Ln : (1 <= length (writes st))%nat) by (rewrite Ew, length_app; simpl; lia).
    destruct (Z.geb_spec (previousPts st) 0) as [_|]; [|lia]. cbn [andb] in Cg.
    assert (M : 1 <= missing_before pts (previousPts st)).
    { unfold missing_before.
      assert (A : 2 ^ 53 <= js_minus pts 1).
      { unfold js_minus. apply js_plus_lower; [lia | reflexivity | lia | lia]. }
      unfold js_minus at 1. apply js_plus_lower; [lia | apply is_infinite_false; lia | lia | lia]. }
    destruct (Z.gtb_spec (missing_before pts (previousPts st)) 0) as [_|]; [|lia].
    destruct (exceeds_one_hour _ _); [discriminate|].
    pose proof (fill_gap_monotone _ _ _ _ _ Cg) as (S1 & _ & _).
    apply fill_gap_progress in Cg; [|exact T | lia].
    rewrite S1. destruct (Z.ltb_spec (startPts st) 0); lia.
  - injection Cg as <-. destruct Hv as [_ Hs].
    destruct (Z.ltb_spec (startPts st) 0); lia.
Qed.

(** The loop.  Either it stays within 2^53 and keeps the invariant, or it
    ends with more frames written than there are timestamps from the start
    up to 2^53. *)
Lemma repair_loop_inv (file : list byte) (info : IvfInfo) (todo : list Z) :
  forall st st',
    catalogue_ok file (frames info) ->
    StronglySorted Z.lt todo ->
    Forall (fun p => 0 < p) todo ->
    (writer_inv st /\ startPts st + writtenFrames st <= 2 ^ 53 /\
     Forall (fun p => previousPts st < p) todo) \/
    (0 < startPts st /\ 2 ^ 53 < startPts st + writtenFrames st) ->
    repair_loop file info todo st = Ok st' ->
    (writer_inv st' /\ startPts st' + writtenFrames st' <= 2 ^ 53) \/
    (0 < startPts st' /\ 2 ^ 53 < startPts st' + writtenFrames st').
Proof.
  induction todo as [|pts todo IH]; intros st st' C S F K; cbn [repair_loop].
  - intros [= <-]. destruct K as [(I & B & _)|K]; [left | right]; auto.
  - inversion S as [|? ? S' Hall]; subst. inversion F as [|? ? Hp F']; subst.
    destruct (repair_step file info st pts) as [st1|e] eqn:E; [|discriminate].
    apply IH; [exact C | exact S' | exact F' |].
    destruct K as [(I & B & L)|[K0 K1]].
    + inversion L as [|? ? Hlt L']; subst.
      destruct (map_get (frames info) pts) as [f|] eqn:G.
      * destruct (Z.le_gt_cases pts (2 ^ 53)) as [In|Out].
        -- destruct (repair_step_inv file info st st1 pts C I (conj Hp In) Hlt E)
             as (I1 & _ & Hsome).
           destruct Hsome as [P1 S1]; [congruence|].
           destruct (Z.le_gt_cases (startPts st1 + writtenFrames st1) (2 ^ 53)) as [B1|B1].
           ++ left. split; [exact I1|]. split; [exact B1|].
              rewrite P1. exact Hall.
           ++ right. split; [|exact B1].
              pose proof (inv_prev st1 I1) as Hv.
              destruct (previousFrame st1); [lia|].
              destruct Hv as [Ew _]. pose proof (inv_count st1 I1) as Hn.
              rewrite Ew in Hn. simpl in Hn. lia.
        -- right. apply (repair_step_beyond file info st st1 pts I B Out); [congruence | exact E].
      * unfold repair_step in E. rewrite G in E. injection E as <-.
        left. auto.
    + right. pose proof (repair_step_monotone _ _ _ _ _ E) as (W & _ & S1).
      rewrite S1 by lia. lia.
Qed.

(** ** The reconciliation pass *)

Lemma reconcile_step_other (ks : list Z) (m : Map Z) (i : nat) (pts k : Z) :
  k <> pts -> map_get (reconcile_step ks m i pts) k = map_get m k.
Proof.
  intros N. unfold reconcile_step.
  destruct (negb (truthy (map_get m pts)) && negb (i =? 0)%nat); [|reflexivity].
  destruct (map_get m (nth (i - 1) ks 0)) as [prev|].
  - destruct (negb (prev =? 0)).
    + now apply map_get_set_neq.
    + now apply map_get_delete_neq.
  - now apply map_get_delete_neq.
Qed.

Lemma reconcile_step_NoDup (ks : list Z) (m : Map Z) (i : nat) (pts : Z) :
  NoDup (map_keys m) -> NoDup (map_keys (reconcile_step ks m i pts)).
Proof.
  intros N. unfold reconcile_step.
  destruct (negb (truthy (map_get m pts)) && negb (i =? 0)%nat); [|exact N].
  destruct (map_get m (nth (i - 1) ks 0)) as [prev|].
  - destruct (negb (prev =? 0)); [now apply map_set_NoDup | now apply map_delete_NoDup].
  - now apply map_delete_NoDup.
Qed.

Lemma reconcile_loop_other (ks rest : list Z) (k : Z) :
  forall i m, ~ In k rest -> map_get (reconcile_loop ks i rest m) k = map_get m k.
Proof.
  induction rest as [|pts rest IH]; intros i m N; cbn [reconcile_loop]; [reflexivity|].
  rewrite IH by (intros H; apply N; now right).
  apply reconcile_step_other. intros ->. apply N. now left.
Qed.

Lemma reconcile_loop_NoDup (ks rest : list Z) :
  forall i m, NoDup (map_keys m) -> NoDup (map_keys (reconcile_loop ks i rest m)).
Proof.
  induction rest as [|pts rest IH]; intros i m N; cbn [reconcile_loop]; [exact N|].
  apply IH. now apply reconcile_step_NoDup.
Qed.

Lemma reconcile_loop_app (ks a b : list Z) :
  forall i m,
    reconcile_loop ks i (a ++ b) m
    = reconcile_loop ks (i + length a) b (reconcile_loop ks i a m).
Proof.
  induction a as [|pts a IH]; intros i m; cbn [reconcile_loop app length].
  - now rewrite Nat.add_0_r.
  - rewrite IH. f_equal. lia.
Qed.

(** A step that finds a recognized value leaves the map as it is. *)
Lemma reconcile_step_recognized (ks : list Z) (m : Map Z) (i : nat) (pts : Z) :
  truthy (map_get m pts) = true -> reconcile_step ks m i pts = m.
Proof.
  intros H. unfold reconcile_step. now rewrite H.
Qed.

Lemma reconcile_loop_recognized (ks rest : list Z) :
  forall i m,
    (forall k, In k rest -> truthy (map_get m k) = true) ->
    reconcile_loop ks i rest m = m.
Proof.
  induction rest as [|pts rest IH]; intros i m H; cbn [reconcile_loop]; [reflexivity|].
  rewrite reconcile_step_recognized by (apply H; now left).
  apply IH. intros k Hk. apply H. now right.
Qed.

Lemma sorted_app_lt (pre rest : list Z) (a : Z) :
  StronglySorted Z.lt (pre ++ a :: rest) -> forall y, In y rest -> a < y.
Proof.
  induction pre as [|x pre IH]; cbn [app]; intros S y Hy.
  - inversion S as [|? ? _ Hall]; subst. rewrite Forall_forall in Hall. now apply Hall.
  - inversion S; subst. now apply IH.
Qed.

Lemma sorted_last_lt (pre post : list Z) (k : Z) :
  StronglySorted Z.lt (pre ++ k :: post) -> pre <> [] -> last pre 0 < k.
Proof.
  intros S P. destruct (exists_last P) as (pre' & y & ->).
  rewrite last_last. rewrite <- app_assoc in S. cbn [app] in S.
  apply (sorted_app_lt pre' (k :: post) y S). now left.
Qed.

Lemma sorted_nth_lt (ks : list Z) :
  StronglySorted Z.lt ks ->
  forall i j, (i < j < length ks)%nat -> nth i ks 0 < nth j ks 0.
Proof.
  induction 1 as [|a s Hs IH Ha]; intros i j Hij; simpl in Hij; [lia|].
  destruct j as [|j]; [lia|]. destruct i as [|i]; cbn [nth].
  - rewrite Forall_forall in Ha. apply Ha, nth_In. lia.
  - apply IH. lia.
Qed.

(** After the pass, an entry that was unrecognized and is not the first
    holds its predecessor's final value plus its key minus the
    predecessor's, or is gone when the predecessor has no usable value. *)
Lemma reconcile_entry (m : Map Z) (pre post : list Z) (k : Z) :
  NoDup (map_keys m) ->
  sort_ascending (map_keys m) = pre ++ k :: post ->
  pre <> [] ->
  truthy (map_get m k) = false ->
  let final := reconcile m in
  let prevKey := last pre 0 in
  map_get final k =
    match map_get final prevKey with
    | Some prev =>
        if negb (prev =? 0) then Some (js_minus (js_plus prev k) prevKey) else None
    | None => None
    end.
Proof.
  intros N E Hpre Hk final prevKey. subst final. unfold reconcile.
  set (ks := sort_ascending (map_keys m)) in *.
  assert (Nk : NoDup ks) by (apply sort_ascending_NoDup, N).
  rewrite E in Nk. rewrite E at 2 4. rewrite !reconcile_loop_app.
  cbn [reconcile_loop Nat.add].
  set (m1 := reconcile_loop ks 0 pre m).
  assert (N1 : NoDup (map_keys m1)) by (apply reconcile_loop_NoDup, N).
  assert (Kpre : ~ In k pre).
  { intros H. apply NoDup_remove_2 in Nk. apply Nk, in_or_app. now left. }
  assert (Kpost : ~ In k post).
  { intros H. apply NoDup_remove_2 in Nk. apply Nk, in_or_app. now right. }
  assert (Ppost : ~ In prevKey (k :: post)).
  { intros H. destruct (exists_last Hpre) as (pre' & x & Ex).
    unfold prevKey in H. rewrite Ex, last_last in H. rewrite Ex, <- app_assoc in Nk.
    apply NoDup_remove_2 in Nk. apply Nk. simpl. apply in_or_app. now right. }
  rewrite (reconcile_loop_other ks post k) by exact Kpost.
  rewrite (reconcile_loop_other ks post prevKey) by (intros H; apply Ppost; now right).
  rewrite (reconcile_step_other ks m1 _ k prevKey) by (intros ->; apply Ppost; now left).
  assert (Hnth : nth (length pre - 1) ks 0 = prevKey).
  { destruct (exists_last Hpre) as (pre' & x & Ex). unfold prevKey.
    rewrite E, Ex, last_last, length_app, <- app_assoc. simpl.
    rewrite app_nth2 by lia. now replace (_ - _)%nat with 0%nat by lia. }
  unfold reconcile_step. rewrite ?Nat.add_0_l, Hnth.
  assert (Hk1 : map_get m1 k = map_get m k) by (apply reconcile_loop_other, Kpre).
  rewrite Hk1, Hk. cbn [negb andb].
  destruct (Nat.eqb_spec (length pre) 0) as [Z0|_];
    [destruct pre; [congruence | discriminate]|].
  cbn [negb]. destruct (map_get m1 prevKey) as [prev|].
  - destruct (negb (prev =? 0)).
    + apply map_get_set_eq.
    + now apply map_get_delete_eq.
  - now apply map_get_delete_eq.
Qed.

Lemma skipn_cons_inv {A : Type} (l : list A) :
  forall i a r d,
    skipn i l = a :: r ->
    nth i l d = a /\ skipn (S i) l = r /\ (i < length l)%nat.
Proof.
  induction l as [|x l IH]; intros i a r d H.
  - destruct i; discriminate.
  - destruct i as [|i].
    + simpl in H. injection H as -> ->. simpl. repeat split. lia.
    + cbn [skipn] in H. destruct (IH i a r d H) as (Hn & Hs & Hl).
      cbn [nth length]. repeat split; [exact Hn | exact Hs | lia].
Qed.

Lemma map_set_Forall {V : Type} (P : Z * V -> Prop) (m : Map V) (k : Z) (v : V) :
  Forall P m -> (forall k', P (k', v)) -> Forall P (map_set m k v).
Proof.
  intros F Hv. induction F as [|[k' v'] m Hx F IH]; simpl.
  - constructor; [apply Hv | constructor].
  - destruct (k =? k'); constructor; auto.
Qed.

Lemma map_delete_Forall {V : Type} (P : Z * V -> Prop) (m : Map V) (k : Z) :
  Forall P m -> Forall P (map_delete m k).
Proof.
  intros F. induction F as [|[k' v'] m Hx F IH]; simpl; [constructor|].
  destruct (k =? k'); [exact F | constructor; auto].
Qed.

Lemma nonneg_values_get (m : Map Z) (k v : Z) :
  nonneg_values m -> map_get m k = Some v -> 0 <= v.
Proof.
  intros F G. apply map_get_In in G. unfold nonneg_values in F.
  rewrite Forall_forall in F. apply (F _ G).
Qed.

Lemma js_fill_nonneg (prev k prevKey : Z) :
  0 < prev -> 0 <= prevKey < k -> to_double k = k ->
  0 <= js_minus (js_plus prev k) prevKey.
Proof.
  intros P K D. pose proof infinity_large as Big.
  assert (A : 0 <= js_plus prev k /\ (is_infinite (js_plus prev k) = false -> k <= js_plus prev k)).
  { split; [apply js_plus_nonneg; lia|].
    unfold js_plus. destruct (is_infinite prev) eqn:Ip.
    - destruct (is_infinite k && negb (Z.sgn prev =? Z.sgn k)) eqn:C.
      + apply andb_prop in C. destruct C as [Ik C]. unfold is_infinite in Ik.
        apply Z.leb_le in Ik. rewrite Z.abs_eq in Ik by lia.
        rewrite !Z.sgn_pos in C by lia. discriminate.
      + rewrite Z.sgn_pos by lia. unfold is_infinite. rewrite Z.mul_1_l.
        rewrite Z.abs_eq by lia. rewrite Z.leb_refl. discriminate.
    - destruct (is_infinite k) eqn:Ik.
      + unfold is_infinite in Ik. apply Z.leb_le in Ik. rewrite Z.abs_eq in Ik by lia.
        rewrite Z.sgn_pos by lia. unfold is_infinite. rewrite Z.mul_1_l.
        rewrite Z.abs_eq by lia. rewrite Z.leb_refl. discriminate.
      + intros _. rewrite <- D at 1. apply to_double_mono. lia. }
  destruct A as [A0 A1]. unfold js_minus. unfold js_plus at 1.
  destruct (is_infinite (js_plus prev k)) eqn:Ia.
  - destruct (is_infinite (- prevKey) && _); [lia|].
    unfold is_infinite in Ia. apply Z.leb_le in Ia. rewrite Z.abs_eq in Ia by lia.
    rewrite Z.sgn_pos by lia. lia.
  - specialize (A1 eq_refl).
    destruct (is_infinite (- prevKey)) eqn:Iy.
    + unfold is_infinite in Iy, Ia. apply Z.leb_le in Iy. apply Z.leb_gt in Ia.
      rewrite Z.abs_eq in Ia by lia. rewrite Z.abs_neq in Iy by lia. lia.
    + apply to_double_nonneg. lia.
Qed.

Lemma reconcile_loop_nonneg (ks : list Z) :
  StronglySorted Z.lt ks ->
  container_keys ks ->
  forall rest i m,
    skipn i ks = rest ->
    nonneg_values m ->
    nonneg_values (reconcile_loop ks i rest m).
Proof.
  intros S Ck. induction rest as [|pts rest IH]; intros i m E F; cbn [reconcile_loop];
    [exact F|].
  destruct (skipn_cons_inv ks i pts rest 0 E) as (Hn & Hs & Hl).
  apply IH; [exact Hs|]. unfold reconcile_step.
  destruct (negb (truthy (map_get m pts))); cbn [andb]; [|exact F].
  destruct (Nat.eqb_spec i 0) as [->|Ni]; cbn [negb]; [exact F|].
  destruct (map_get m (nth (i - 1) ks 0)) as [prev|] eqn:G;
    [|now apply map_delete_Forall].
  destruct (Z.eqb_spec prev 0) as [|Np]; cbn [negb]; [now apply map_delete_Forall|].
  apply map_set_Forall; [exact F|]. intros k0. cbn [snd].
  pose proof (nonneg_values_get m _ _ F G) as Hprev.
  pose proof (sorted_nth_lt ks S (i - 1) i ltac:(lia)) as Hlt.
  unfold container_keys in Ck. rewrite Forall_forall in Ck.
  assert (Hin : forall j, (j < length ks)%nat -> In (nth j ks 0) ks)
    by (intros j Hj; now apply nth_In).
  pose proof (Ck _ (Hin i Hl)) as [_ Dk].
  pose proof (Ck _ (Hin (i - 1)%nat ltac:(lia))) as [Py _].
  rewrite Hn in *.
  apply js_fill_nonneg; [lia | lia | exact Dk].
Qed.

Lemma recognize_all_nonneg (r : Recognizer) (keys : list Z) :
  nonneg_values (recognize_all r keys).
Proof.
  unfold recognize_all.
  assert (H : forall acc, nonneg_values acc ->
            nonneg_values (fold_left
              (fun m pts => match stored r pts with
                            | Some v => map_set m pts (Z.of_N v)
                            | None => m
                            end) keys acc)).
  { induction keys as [|k keys IH]; intros acc F; cbn [fold_left]; [exact F|].
    apply IH. destruct (stored r k); [|exact F].
    apply map_set_Forall; [exact F|]. intros k0. cbn [snd]. lia. }
  apply H. constructor.
Qed.

Lemma recognize_all_NoDup (r : Recognizer) (keys : list Z) :
  NoDup (map_keys (recognize_all r keys)).
Proof.
  unfold recognize_all.
  assert (H : forall acc, NoDup (map_keys acc) ->
            NoDup (map_keys (fold_left
              (fun m pts => match stored r pts with
                            | Some v => map_set m pts (Z.of_N v)
                            | None => m
                            end) keys acc))).
  { induction keys as [|k keys IH]; intros acc F; cbn [fold_left]; [exact F|].
    apply IH. destruct (stored r k); [now apply map_set_NoDup | exact F]. }
  apply H. constructor.
Qed.

Lemma recognize_all_get (r : Recognizer) (keys : list Z) (k : Z) :
  map_get (recognize_all r keys) k
  = if in_dec Z.eq_dec k keys then option_map Z.of_N (stored r k) else None.
Proof.
  unfold recognize_all.
  assert (H : forall acc,
            map_get (fold_left
              (fun m pts => match stored r pts with
                            | Some v => map_set m pts (Z.of_N v)
                            | None => m
                            end) keys acc) k
            = match (if in_dec Z.eq_dec k keys then stored r k else None) with
              | Some v => Some (Z.of_N v)
              | None => map_get acc k
              end).
  { induction keys as [|a keys IH]; intros acc; cbn [fold_left]; [reflexivity|].
    rewrite IH. destruct (in_dec Z.eq_dec k keys) as [I|NI].
    - destruct (in_dec Z.eq_dec k (a :: keys)) as [_|N]; [|exfalso; apply N; now right].
      destruct (stored r k) eqn:Sk; [reflexivity|].
      destruct (Z.eq_dec a k) as [->|Ne]; [now rewrite Sk|].
      destruct (stored r a); [|reflexivity]. apply map_get_set_neq. congruence.
    - destruct (Z.eq_dec a k) as [->|Ne].
      + destruct (in_dec Z.eq_dec k (k :: keys)) as [_|N]; [|exfalso; apply N; now left].
        destruct (stored r k); [apply map_get_set_eq | reflexivity].
      + destruct (in_dec Z.eq_dec k (a :: keys)) as [[?|?]|_]; [congruence | contradiction |].
        destruct (stored r a); [|reflexivity]. apply map_get_set_neq. congruence. }
  rewrite H. destruct (in_dec Z.eq_dec k keys); [|reflexivity].
  now destruct (stored r k).
Qed.

Lemma reconcile_nonneg (m : Map Z) :
  NoDup (map_keys m) -> container_keys (map_keys m) -> nonneg_values m ->
  nonneg_values (reconcile m).
Proof.
  intros N C F. unfold reconcile.
  apply reconcile_loop_nonneg;
    [now apply sort_ascending_lt | | reflexivity | exact F].
  unfold container_keys in *. rewrite Forall_forall in *.
  intros k Hk. apply C. now apply -> sort_ascending_In in Hk.
Qed.

Lemma recognize_all_keys (r : Recognizer) (keys : list Z) :
  container_keys keys -> container_keys (map_keys (recognize_all r keys)).
Proof.
  intros C. unfold container_keys in *. rewrite Forall_forall in *.
  intros k Hk. apply C.
  destruct (map_get (recognize_all r keys) k) eqn:G.
  - rewrite recognize_all_get in G. now destruct (in_dec Z.eq_dec k keys).
  - apply map_get_None in G. contradiction.
Qed.

(** ** The re-keying of the catalogue *)

Lemma rekey_step_NoDup (m : Map Z) (acc : Map IvfFrame) (e : Z * IvfFrame) :
  NoDup (map_keys acc) -> NoDup (map_keys (rekey_step m acc e)).
Proof.
  intros N. unfold rekey_step. destruct (map_get m (fst e)) as [r|]; [|exact N].
  destruct (negb (r =? 0)); [now apply map_set_NoDup | exact N].
Qed.

Lemma rekey_fold_NoDup (m : Map Z) (frames : Map IvfFrame) :
  forall acc, NoDup (map_keys acc) ->
              NoDup (map_keys (fold_left (rekey_step m) frames acc)).
Proof.
  induction frames as [|e frames IH]; intros acc N; cbn [fold_left]; [exact N|].
  apply IH. now apply rekey_step_NoDup.
Qed.

Lemma rekey_NoDup (frames : Map IvfFrame) (m : Map Z) : NoDup (map_keys (rekey frames m)).
Proof. apply rekey_fold_NoDup. constructor. Qed.

(** Every entry of the re-keyed catalogue is an original record, filed
    under the non-zero value its timestamp resolved to. *)
Lemma rekey_fold_provenance (m : Map Z) (frames : Map IvfFrame)
    (P : Z -> IvfFrame -> Prop) :
  (forall pts f r, In (pts, f) frames -> map_get m pts = Some r -> r <> 0 -> P r f) ->
  forall acc,
    (forall k f, map_get acc k = Some f -> P k f) ->
    forall k f, map_get (fold_left (rekey_step m) frames acc) k = Some f -> P k f.
Proof.
  induction frames as [|[pts g] frames IH]; intros H acc Hacc; cbn [fold_left];
    [exact Hacc|].
  apply IH; [intros; eapply H; eauto; now right|].
  unfold rekey_step. cbn [fst snd].
  destruct (map_get m pts) as [r|] eqn:G; [|exact Hacc].
  destruct (Z.eqb_spec r 0) as [|Nr]; cbn [negb]; [exact Hacc|].
  intros k f. destruct (Z.eq_dec k r) as [->|Nk].
  - rewrite map_get_set_eq. intros [= <-]. apply (H pts g r); auto. now left.
  - rewrite map_get_set_neq by exact Nk. apply Hacc.
Qed.

Lemma rekey_provenance (frames : Map IvfFrame) (m : Map Z) (k : Z) (f : IvfFrame) :
  map_get (rekey frames m) k = Some f ->
  exists pts, In (pts, f) frames /\ map_get m pts = Some k /\ k <> 0.
Proof.
  apply (rekey_fold_provenance m frames
           (fun k f => exists pts, In (pts, f) frames /\ map_get m pts = Some k /\ k <> 0)).
  - intros pts g r I G Nr. eauto.
  - discriminate.
Qed.

Lemma map_keys_set_In {V : Type} (m : Map V) (k r : Z) (v : V) :
  In k (map_keys (map_set m r v)) <-> In k (map_keys m) \/ k = r.
Proof.
  rewrite map_keys_set. destruct (map_has m r) eqn:E.
  - apply map_has_In in E. split; [auto | intros [H| ->]; assumption].
  - rewrite in_app_iff. simpl. intuition.
Qed.

Lemma rekey_fold_keys (m : Map Z) (frames : Map IvfFrame) (k : Z) :
  forall acc,
    In k (map_keys (fold_left (rekey_step m) frames acc)) <->
    In k (map_keys acc) \/
    (k <> 0 /\ exists pts, In pts (map_keys frames) /\ map_get m pts = Some k).
Proof.
  induction frames as [|[pts g] frames IH]; intros acc; cbn [fold_left].
  - simpl. split; [auto | intros [H|(_ & ? & [] & _)]; exact H].
  - rewrite IH. clear IH.
    assert (Hex : (exists q, In q (map_keys ((pts, g) :: frames)) /\ map_get m q = Some k)
                  <-> map_get m pts = Some k \/
                      exists q, In q (map_keys frames) /\ map_get m q = Some k).
    { simpl. split.
      - intros (q & [<-|I] & Gq); eauto.
      - intros [H|(q & I & Gq)]; eauto. }
    rewrite Hex. clear Hex. unfold rekey_step. cbn [fst snd].
    destruct (map_get m pts) as [r|] eqn:G.
    + destruct (Z.eqb_spec r 0) as [->|Nr]; cbn [negb].
      * intuition congruence.
      * rewrite map_keys_set_In. intuition (subst; try congruence; auto).
    + intuition congruence.
Qed.

Lemma rekey_keys (frames : Map IvfFrame) (m : Map Z) (k : Z) :
  In k (map_keys (rekey frames m)) <->
  k <> 0 /\ exists pts, In pts (map_keys frames) /\ map_get m pts = Some k.
Proof.
  unfold rekey. rewrite rekey_fold_keys. simpl. tauto.
Qed.

Lemma rekey_fold_untouched (m : Map Z) (frames : Map IvfFrame) (r : Z) :
  (forall pts f, In (pts, f) frames -> map_get m pts <> Some r) ->
  forall acc, map_get (fold_left (rekey_step m) frames acc) r = map_get acc r.
Proof.
  induction frames as [|[pts g] frames IH]; intros H acc; cbn [fold_left]; [reflexivity|].
  rewrite IH by (intros; eapply H; right; eauto).
  unfold rekey_step. cbn [fst snd].
  destruct (map_get m pts) as [q|] eqn:G; [|reflexivity].
  destruct (negb (q =? 0)); [|reflexivity].
  apply map_get_set_neq. intros ->. apply (H pts g); [now left | exact G].
Qed.

(** ** Contiguous timestamps *)

Lemma zseq_contiguous (n : nat) : forall a, contiguous (zseq a n).
Proof.
  induction n as [|n IH]; intros a; [exact I|].
  destruct n as [|n]; [exact I|].
  change (contiguous (a :: (a + 1) :: zseq (a + 1 + 1) n)).
  split; [reflexivity | apply (IH (a + 1))].
Qed.

Lemma zseq_In (n : nat) : forall a k, In k (zseq a n) <-> a <= k < a + Z.of_nat n.
Proof.
  induction n as [|n IH]; intros a k; cbn [zseq In].
  - lia.
  - rewrite IH. lia.
Qed.

Lemma zseq_NoDup (n : nat) : forall a, NoDup (zseq a n).
Proof.
  induction n as [|n IH]; intros a; cbn [zseq]; constructor; [|apply IH].
  rewrite zseq_In. lia.
Qed.

Lemma zseq_wrap64 (n : nat) :
  forall a, 0 <= a -> a + Z.of_nat n <= 2 ^ 64 -> map wrap64 (zseq a n) = zseq a n.
Proof.
  induction n as [|n IH]; intros a H0 H1; cbn [zseq map]; [reflexivity|].
  rewrite IH by lia. unfold wrap64. rewrite Z.mod_small by lia. reflexivity.
Qed.

(** ** The layout of the output file *)

Lemma pwrite_append (f bs : list byte) :
  pwrite f (Z.of_nat (length f)) bs = f ++ bs.
Proof.
  unfold pwrite. rewrite Nat2Z.id, firstn_all, Nat.sub_diag.
  rewrite skipn_all2 by lia. simpl. now rewrite app_nil_r.
Qed.

Lemma replay_chained (ws : list WriteOp) :
  forall f q,
    chained (Z.of_nat (length f)) ws q ->
    fold_left (fun f w => pwrite f (offset w) (bytes w)) ws f
    = f ++ concat (map bytes ws).
Proof.
  induction ws as [|w ws IH]; intros f q H; cbn [fold_left map concat].
  - now rewrite app_nil_r.
  - destruct H as [Ho Hc]. rewrite Ho, pwrite_append.
    rewrite (IH _ q).
    + now rewrite <- app_assoc.
    + rewrite length_app, Nat2Z.inj_add. exact Hc.
Qed.

Lemma file_of_writes_frames (ws : list WriteOp) (q : Z) :
  chained 32 ws q -> ws <> [] ->
  file_of_writes ws = zeros 32 ++ concat (map bytes ws).
Proof.
  intros H N. destruct ws as [|w ws]; [congruence|].
  unfold file_of_writes. cbn [fold_left map concat]. destruct H as [Ho Hc].
  assert (E : pwrite [] (offset w) (bytes w) = zeros 32 ++ bytes w).
  { rewrite Ho. unfold pwrite. change (Z.to_nat 32) with 32%nat.
    rewrite firstn_nil, skipn_nil, app_nil_r. reflexivity. }
  rewrite E. rewrite (replay_chained ws _ q).
  - now rewrite <- app_assoc.
  - rewrite length_app. unfold zeros at 1. rewrite repeat_length, Nat2Z.inj_add. exact Hc.
Qed.

(** The finished file: the patched header, then the frames in the order
    they were written. *)
Lemma file_of_writes_final (ws : list WriteOp) (q : Z) (hdr : list byte) :
  chained 32 ws q ->
  length hdr = 32%nat ->
  file_of_writes (ws ++ [{| site := HeaderRewrite; offset := 0; bytes := hdr |}])
  = hdr ++ concat (map bytes ws).
Proof.
  intros H L. unfold file_of_writes. rewrite fold_left_app.
  fold (file_of_writes ws). cbn [fold_left offset bytes].
  destruct ws as [|w ws].
  - unfold file_of_writes. cbn [fold_left map concat]. unfold pwrite. simpl.
    rewrite skipn_nil. reflexivity.
  - rewrite (file_of_writes_frames _ q H) by discriminate.
    set (body := concat (map bytes (w :: ws))).
    unfold pwrite. change (Z.to_nat 0) with 0%nat.
    rewrite firstn_O, Nat.sub_0_l, Nat.add_0_l, L.
    rewrite skipn_app_exact by apply repeat_length. reflexivity.
Qed.

Lemma setUint32_shape (buf : list byte) (z : Z) :
  setUint32 buf 24 z = firstn 24 buf ++ le_encode 4 z ++ skipn 28 buf.
Proof.
  unfold setUint32, patch. now rewrite le_encode_length.
Qed.

Lemma setUint32_length (buf : list byte) (z : Z) :
  (28 <= length buf)%nat -> length (setUint32 buf 24 z) = length buf.
Proof.
  intros H. rewrite setUint32_shape.
  rewrite !length_app, le_encode_length, length_firstn, length_skipn. lia.
Qed.

(** The count field of the finished file holds the count modulo [2^32]. *)
Lemma get_setUint32 (buf rest : list byte) (z : Z) :
  (28 <= length buf)%nat ->
  getUint32 (setUint32 buf 24 z ++ rest) 24 = z mod 2 ^ 32.
Proof.
  intros H. rewrite setUint32_shape. unfold getUint32.
  assert (L24 : length (firstn 24 buf) = 24%nat) by (rewrite length_firstn; lia).
  assert (L4 : length (le_encode 4 z) = 4%nat) by apply le_encode_length.
  rewrite <- !app_assoc.
  pose proof (slice_app_exact (firstn 24 buf) (le_encode 4 z) (skipn 28 buf ++ rest)) as S.
  rewrite L24, L4 in S. rewrite S. now rewrite le_decode_encode.
Qed.

(** ** What [parseIvf] returns *)

Lemma In_map_get {V : Type} (m : Map V) (k : Z) (v : V) :
  NoDup (map_keys m) -> In (k, v) m -> map_get m k = Some v.
Proof.
  induction m as [|[k' v'] m IH]; simpl; intros N H; [contradiction|].
  inversion N as [|? ? Hn Hd]; subst. destruct H as [[= -> ->]|H].
  - now rewrite Z.eqb_refl.
  - destruct (Z.eqb_spec k k') as [->|_]; [|auto].
    exfalso. apply Hn. change k' with (fst (k', v)). now apply in_map.
Qed.

Lemma parseIvf_inv (file : list byte) (b : bool) (r : Recognizer) (info : IvfInfo) :
  parseIvf file b r = Ok info ->
  exists st,
    parse_frames file = Some st /\
    length (pread file 0 32) = 32%nat /\
    frames info = (if b then recover r (loop_frames st) else loop_frames st) /\
    ptsIndex info = sort_ascending (map_keys (frames info)).
Proof.
  unfold parseIvf.
  destruct (Nat.eqb_spec (length (pread file 0 32)) 32) as [L|]; cbn [negb]; [|discriminate].
  destruct (parse_frames file) as [st|]; [|discriminate].
  intros [= <-]. exists st. cbn. auto.
Qed.

Lemma frame_pts_container (b : list byte) : 0 <= frame_pts b /\ to_double (frame_pts b) = frame_pts b.
Proof.
  unfold frame_pts, getBigUint64.
  pose proof (le_decode_nonneg (slice 4 8 b)).
  split; [now apply to_double_nonneg | now apply to_double_idem].
Qed.

Lemma parse_loop_container (file : list byte) (fuel : nat) (position : Z)
    (st st' : ParseState) :
  container_keys (map_keys (loop_frames st)) ->
  parse_loop fuel file position st = Some st' ->
  container_keys (map_keys (loop_frames st')).
Proof.
  intros H E.
  destruct (parse_loop_invariant file
              (fun _ s => container_keys (map_keys (loop_frames s))))
    with (2 := H) (3 := E) as [_ R]; [|exact R].
  intros p s Hc _. unfold record_frame.
  destruct (map_has (loop_frames s) _) eqn:M; cbn [loop_frames]; [exact Hc|].
  rewrite map_keys_set, M. unfold container_keys in *.
  apply Forall_app. split; [exact Hc|].
  constructor; [apply frame_pts_container | constructor].
Qed.

Lemma parse_frames_facts (file : list byte) (st : ParseState) :
  parse_frames file = Some st ->
  NoDup (map_keys (loop_frames st)) /\ catalogue_ok file (loop_frames st) /\
  container_keys (map_keys (loop_frames st)).
Proof.
  unfold parse_frames. intros H. split; [|split].
  - eapply parse_loop_NoDup; [|exact H]. constructor.
  - eapply parse_loop_catalogue_ok; [| |exact H]; [lia|]. intros k f. discriminate.
  - eapply parse_loop_container; [|exact H]. constructor.
Qed.

Lemma recover_facts (file : list byte) (r : Recognizer) (frames : Map IvfFrame) :
  NoDup (map_keys frames) ->
  catalogue_ok file frames ->
  container_keys (map_keys frames) ->
  NoDup (map_keys (recover r frames)) /\
  catalogue_ok file (recover r frames) /\
  (forall k, In k (map_keys (recover r frames)) -> 0 < k).
Proof.
  intros N C Ck. unfold recover. split; [apply rekey_NoDup|]. split.
  - intros k f H. apply rekey_provenance in H. destruct H as (pts & I & _).
    apply (C pts). now apply In_map_get.
  - intros k H. apply rekey_keys in H. destruct H as (Nk & pts & _ & G).
    pose proof (reconcile_nonneg _ (recognize_all_NoDup r (map_keys frames))
                  (recognize_all_keys r _ Ck)
                  (recognize_all_nonneg r (map_keys frames))) as F.
    pose proof (nonneg_values_get _ _ _ F G). lia.
Qed.

Lemma parseIvf_facts (file : list byte) (b : bool) (r : Recognizer) (info : IvfInfo) :
  parseIvf file b r = Ok info ->
  NoDup (map_keys (frames info)) /\
  catalogue_ok file (frames info) /\
  ptsIndex info = sort_ascending (map_keys (frames info)) /\
  (b = true -> forall k, In k (map_keys (frames info)) -> 0 < k).
Proof.
  intros H. destruct (parseIvf_inv _ _ _ _ H) as (st & P & _ & F & I).
  destruct (parse_frames_facts _ _ P) as (N & C & Ck).
  destruct b.
  - destruct (recover_facts file r _ N C Ck) as (N' & C' & K).
    rewrite <- F in N', C', K. auto.
  - rewrite <- F in N, C.
    split; [exact N | split; [exact C | split; [exact I | discriminate]]].
Qed.

(** [parseIvf] returns a result for every file that holds a header; the
    budget of the loop is never the reason for a failure. *)
Lemma parseIvf_total (file : list byte) (b : bool) (r : Recognizer) :
  (32 <= length file)%nat -> exists info, parseIvf file b r = Ok info.
Proof.
  intros L. unfold parseIvf.
  assert (E : length (pread file 0 32) = 32%nat).
  { unfold pread. change (Z.to_nat 0) with 0%nat. cbn [skipn].
    rewrite length_firstn. lia. }
  rewrite E. cbn [Nat.eqb negb].
  destruct (parse_frames_total file) as [st ->]. eauto.
Qed.

Lemma parseIvf_throws (file : list byte) (b : bool) (r : Recognizer) (e : Error) :
  parseIvf file b r = Throw e -> e = InvalidIvfFile /\ (length file < 32)%nat.
Proof.
  intros H. destruct (Nat.lt_ge_cases (length file) 32) as [L|L].
  - unfold parseIvf in H.
    assert (E : length (pread file 0 32) <> 32%nat).
    { unfold pread. change (Z.to_nat 0) with 0%nat. cbn [skipn].
      rewrite length_firstn. lia. }
    apply Nat.eqb_neq in E. rewrite E in H. cbn [negb] in H.
    injection H as <-. auto.
  - destruct (parseIvf_total file b r L) as [info E]. congruence.
Qed.

(** ** What a completed repair leaves *)

(** A completed repair, whatever the timestamps. *)
Lemma fixIvfFrames_run (file : list byte) (r : Recognizer) (out : RepairedStream) :
  fixIvfFrames file r = Ok out ->
  exists info st,
    parseIvf file true r = Ok info /\
    repair_loop file info (ptsIndex info) initial_state = Ok st /\
    writer_shape st /\
    repaired_name out = participantDisplayName info /\
    repaired_writes out = writes st ++
      [{| site := HeaderRewrite; offset := 0;
          bytes := setUint32 (read_into_fresh file 0 32) 24 (writtenFrames st) |}] /\
    repaired_startPts out = startPts st /\
    repaired_writtenFrames out = writtenFrames st /\
    repaired_duplicatedFrames out = duplicatedFrames st /\
    ((writer_inv st /\ startPts st + writtenFrames st <= 2 ^ 53) \/
     (0 < startPts st /\ 2 ^ 53 < startPts st + writtenFrames st)).
Proof.
  unfold fixIvfFrames. destruct (parseIvf file true r) as [info|e] eqn:P; [|discriminate].
  destruct (is_empty_string _); [discriminate|].
  destruct (length (ptsIndex info) =? 0)%nat; [discriminate|].
  destruct (repair_loop file info (ptsIndex info) initial_state) as [st|e] eqn:L;
    [|discriminate].
  intros [= <-]. exists info, st. cbn.
  destruct (parseIvf_facts _ _ _ _ P) as (N & C & I & K).
  assert (Pos : Forall (fun p => 0 < p) (ptsIndex info)).
  { rewrite Forall_forall. intros p Hp. rewrite I in Hp.
    apply -> sort_ascending_In in Hp. exact (K eq_refl p Hp). }
  split; [reflexivity|]. split; [exact L|].
  split; [exact (repair_loop_shape _ _ _ _ _ C writer_shape_initial L)|].
  do 5 (split; [reflexivity|]).
  apply (repair_loop_inv file info (ptsIndex info) initial_state st C); [| exact Pos | | exact L].
  - rewrite I. now apply sort_ascending_lt.
  - left. split; [apply writer_inv_initial|]. split; [simpl; lia|].
    eapply Forall_impl; [|exact Pos]. simpl. intros; lia.
Qed.

(** A completed repair whose last timestamp is within 2^53. *)
Lemma fixIvfFrames_inv (file : list byte) (r : Recognizer) (out : RepairedStream) :
  fixIvfFrames file r = Ok out ->
  repaired_startPts out + repaired_writtenFrames out <= 2 ^ 53 ->
  exists info st,
    parseIvf file true r = Ok info /\
    repair_loop file info (ptsIndex info) initial_state = Ok st /\
    writer_inv st /\
    repaired_writes out = writes st ++
      [{| site := HeaderRewrite; offset := 0;
          bytes := setUint32 (read_into_fresh file 0 32) 24 (writtenFrames st) |}] /\
    repaired_startPts out = startPts st /\
    repaired_writtenFrames out = writtenFrames st /\
    repaired_duplicatedFrames out = duplicatedFrames st.
Proof.
  intros H B.
  destruct (fixIvfFrames_run file r out H) as (info & st & P & L & _ & _ & W & S & N & D & K).
  exists info, st. rewrite S, N in B.
  destruct K as [[I _]|[_ K]]; [|lia]. auto 10.
Qed.

Lemma written_frames_of_repair (st : RepairState) (hdr : WriteOp) :
  writer_shape st -> site hdr = HeaderRewrite ->
  written_frames (writes st ++ [hdr]) = writes st.
Proof.
  intros I H. unfold written_frames. rewrite filter_app. cbn [filter].
  unfold is_frame_write at 2. rewrite H, app_nil_r.
  pose proof (shape_frames st I) as F. induction F as [|w ws [_ Hw] F IH]; [reflexivity|].
  cbn [filter]. unfold is_frame_write at 1.
  destruct (site w); [now rewrite IH | now rewrite IH | congruence].
Qed.

(** * The claims *)

Lemma zseq_nth_error (n : nat) :
  forall a i v, nth_error (zseq a n) i = Some v -> v = a + Z.of_nat i.
Proof.
  induction n as [|n IH]; intros a i v H; [destruct i; discriminate|].
  destruct i as [|i]; cbn [zseq nth_error] in H.
  - injection H as <-. lia.
  - apply IH in H. lia.
Qed.

Lemma writer_inv_range (st : RepairState) :
  writer_inv st ->
  startPts st + writtenFrames st <= 2 ^ 64 ->
  map embedded_pts (writes st) = zseq (startPts st) (length (writes st)).
Proof.
  intros I H. rewrite (inv_pts st I).
  pose proof (inv_prev st I) as Hv. pose proof (inv_count st I) as Hn.
  destruct (previousFrame st).
  - apply zseq_wrap64; lia.
  - destruct Hv as [-> _]. reflexivity.
Qed.

(** C1, as the code has it.  The frames a completed repair wrote are what
    the output file holds after its 32-byte header, and in a repaired stream
    whose timestamps stay within 2^53 their embedded timestamps are
    contiguous: each is its predecessor plus one. *)
Theorem C1_timestamps_contiguous (file : list byte) (r : Recognizer)
    (out : RepairedStream) :
  fixIvfFrames file r = Ok out ->
  (exists hdr,
      length hdr = 32%nat /\
      file_of_writes (repaired_writes out)
      = hdr ++ concat (map bytes (written_frames (repaired_writes out)))) /\
  (repaired_startPts out + repaired_writtenFrames out <= 2 ^ 53 ->
   contiguous (map embedded_pts (written_frames (repaired_writes out)))).
Proof.
  intros H.
  destruct (fixIvfFrames_run file r out H) as (info & st & _ & _ & Sh & _ & W & S & N & _ & K).
  rewrite W, written_frames_of_repair by (exact Sh || reflexivity).
  split.
  - eexists. split; [|apply (file_of_writes_final _ (out_position st)); [apply Sh|]];
      rewrite setUint32_length; rewrite read_into_fresh_length; lia.
  - intros B. destruct K as [[I _]|[_ K]]; [|lia].
    rewrite writer_inv_range; [apply zseq_contiguous | exact I |].
    rewrite <- S, <- N. lia.
Qed.

Lemma C1_witness :
  (exists hdr,
      length hdr = 32%nat /\
      file_of_writes (repaired_writes example_repaired)
      = hdr ++ concat (map bytes (written_frames (repaired_writes example_repaired)))) /\
  contiguous (map embedded_pts (written_frames (repaired_writes example_repaired))).
Proof.
  destruct (C1_timestamps_contiguous example_file example_recognizer example_repaired)
    as [A B]; [vm_compute; reflexivity|].
  split; [exact A|]. apply B. vm_compute. discriminate.
Defined.

(** C1 as stated fails past 2^53.  At 1000 frames per second, two frames
    whose clocks read 2^53 and 2^53 + 2 milliseconds are recognized at the
    timestamps 2^53 and 2^53 + 2.  The gap check computes
    [pts - 1 - previousPts] as 0, since 2^53 + 1 is no double, so nothing is
    filled in: the repair completes with the two frames, stamped 2^53 and
    2^53 + 2. *)
Lemma C1_counterexample :
  fixIvfFrames late_file late_recognizer = Ok late_repaired /\
  map embedded_pts (written_frames (repaired_writes late_repaired))
  = [2 ^ 53; 2 ^ 53 + 2] /\
  ~ contiguous (map embedded_pts (written_frames (repaired_writes late_repaired))).
Proof.
  assert (E : map embedded_pts (written_frames (repaired_writes late_repaired))
              = [2 ^ 53; 2 ^ 53 + 2]) by (vm_compute; reflexivity).
  split; [vm_compute; reflexivity|]. split; [exact E|].
  rewrite E. intros [H _]. vm_compute in H. discriminate.
Qed.

(** C7, as the code has it.  A duplicate written to fill a gap is the frame
    written just before it with only the 8-byte timestamp field at offset 4
    changed: same length, same first four bytes, same bytes from offset 12
    on; and, in a stream whose timestamps stay within 2^53, the field holds
    the previous timestamp plus one. *)
Theorem C7_duplicate_is_patched_copy (file : list byte) (r : Recognizer)
    (out : RepairedStream) (i : nat) (d : WriteOp) :
  fixIvfFrames file r = Ok out ->
  nth_error (written_frames (repaired_writes out)) i = Some d ->
  site d = DuplicateFrame ->
  exists j p,
    i = S j /\
    nth_error (written_frames (repaired_writes out)) j = Some p /\
    length (bytes d) = length (bytes p) /\
    firstn 4 (bytes d) = firstn 4 (bytes p) /\
    skipn 12 (bytes d) = skipn 12 (bytes p) /\
    (repaired_startPts out + repaired_writtenFrames out <= 2 ^ 53 ->
     embedded_pts d = embedded_pts p + 1).
Proof.
  intros H Hi Hs.
  destruct (fixIvfFrames_run file r out H) as (info & st & _ & _ & Sh & _ & W & S & N & _ & K).
  rewrite W, written_frames_of_repair in * by (exact Sh || reflexivity).
  destruct (shape_dups st Sh i d Hi Hs) as (j & p & t & -> & Hj & Hb).
  exists j, p. split; [reflexivity|]. split; [exact Hj|].
  assert (Fp : frame_ok (bytes p)).
  { pose proof (shape_frames st Sh) as F. rewrite Forall_forall in F.
    apply (F p). eapply nth_error_In; eauto. }
  destruct Fp as [Lp _].
  rewrite Hb, setBigUint64_length, setBigUint64_firstn4, setBigUint64_skipn12 by exact Lp.
  split; [reflexivity|]. split; [reflexivity|]. split; [reflexivity|].
  intros B. destruct K as [[I _]|[_ K]]; [|lia].
  pose proof (writer_inv_range st I ltac:(rewrite <- S, <- N; lia)) as R.
  pose proof (map_nth_error embedded_pts _ _ Hi) as Ei.
  pose proof (map_nth_error embedded_pts _ _ Hj) as Ej.
  rewrite R in Ei, Ej. apply zseq_nth_error in Ei, Ej.
  rewrite Ei, Ej. lia.
Qed.

Lemma C7_witness :
  let d := {| site := DuplicateFrame; offset := 59;
              bytes := [x01; x00; x00; x00; x03; x00; x00; x00;
                        x00; x00; x00; x00; x03] |} in
  exists j p,
    2%nat = S j /\
    nth_error (written_frames (repaired_writes example_repaired)) j = Some p /\
    length (bytes d) = length (bytes p) /\
    firstn 4 (bytes d) = firstn 4 (bytes p) /\
    skipn 12 (bytes d) = skipn 12 (bytes p) /\
    embedded_pts d = embedded_pts p + 1.
Proof.
  intros d.
  destruct (C7_duplicate_is_patched_copy example_file example_recognizer example_repaired
              2 d) as (j & p & E & Hj & L & F & S & T);
    [vm_compute; reflexivity | vm_compute; reflexivity | reflexivity|].
  exists j, p. repeat (split; [assumption|]). apply T. vm_compute. discriminate.
Defined.

(** C7 as stated fails past 2^53.  At 1000 frames per second, two frames
    whose clocks read 2^53 + 2 and 2^53 + 4 milliseconds are recognized at
    these timestamps.  The gap loop runs once: [previousPts += 1] gives
    2^53 + 4, since 2^53 + 3 is no double.  The duplicate is stamped with the
    timestamp of the frame before it plus two, which is the timestamp of the
    frame after it. *)
Lemma C7_counterexample :
  fixIvfFrames late_file later_recognizer = Ok later_repaired /\
  exists p d n,
    written_frames (repaired_writes later_repaired) = [p; d; n] /\
    site d = DuplicateFrame /\
    embedded_pts p = 2 ^ 53 + 2 /\
    embedded_pts d = 2 ^ 53 + 4 /\
    embedded_pts n = 2 ^ 53 + 4 /\
    embedded_pts d <> embedded_pts p + 1.
Proof.
  split; [vm_compute; reflexivity|].
  eexists _, _, _. split; [vm_compute; reflexivity|].
  split; [reflexivity|].
  split; [vm_compute; reflexivity|]. split; [vm_compute; reflexivity|].
  split; [vm_compute; reflexivity|]. vm_compute. discriminate.
Qed.

(** ** The bound on a gap *)

Lemma exceeds_one_hour_iff (missing : Z) (frameRate : number) (limit : Q) :
  one_hour frameRate = Finite limit ->
  - 2 ^ 64 <= missing <= 2 ^ 64 ->
  (exceeds_one_hour missing frameRate = true <-> (limit < inject_Z missing)%Q).
Proof.
  intros L R. unfold exceeds_one_hour, js_gt. rewrite L, is_infinite_false by exact R.
  rewrite negb_true_iff.
  destruct (Qle_bool (inject_Z missing) limit) eqn:E.
  - apply Qle_bool_iff in E. split; [discriminate|]. intros H.
    exfalso. apply (Qlt_not_le _ _ H E).
  - split; [intros _ | reflexivity]. apply Qnot_le_lt. intros H.
    apply Qle_bool_iff in H. congruence.
Qed.

Lemma hour_bound_plus_one (missing : Z) (limit : Q) :
  (0 <= limit)%Q -> (inject_Z missing == limit + 1)%Q ->
  0 < missing /\ (limit < inject_Z missing)%Q.
Proof.
  destruct limit as [n d]. unfold Qle, Qeq, Qlt, Qplus, Qmult, inject_Z.
  cbn [Qnum Qden]. rewrite ?Pos2Z.inj_mul. intros H0 M. split; nia.
Qed.

Lemma hour_bound_exact (missing : Z) (limit : Q) :
  (inject_Z missing == limit)%Q -> ~ (limit < inject_Z missing)%Q.
Proof.
  intros M L. rewrite M in L. exact (Qlt_irrefl _ L).
Qed.

(** C2, as the code has it.  Let [limit] be the double that [frameRate * 60
    * 60] evaluates to, and let the timestamps be within 2^53.  Between two
    consecutive recovered timestamps, [limit + 1] missing timestamps make
    the repair throw, while [limit] missing timestamps do not: each of them
    is written, in order, as the buffer of the previous frame with that
    timestamp, one behind the other, and the frame itself follows. *)
Theorem C2_gap_bound (file : list byte) (info : IvfInfo) (st : RepairState)
    (pts : Z) (frame : IvfFrame) (buf : list byte) (limit : Q) :
  map_get (frames info) pts = Some frame ->
  one_hour (frameRate info) = Finite limit ->
  (0 <= limit)%Q ->
  previousFrame st = Some buf ->
  (12 <= length buf)%nat ->
  0 <= previousPts st < pts ->
  pts <= 2 ^ 53 ->
  let missing := pts - 1 - previousPts st in
  ((inject_Z missing == limit + 1)%Q ->
   repair_step file info st pts = Throw (TooManyFramesMissing missing)) /\
  ((inject_Z missing == limit)%Q ->
   exists st',
     repair_step file info st pts = Ok st' /\
     writes st' = writes st ++
       map (fun t => {| site := DuplicateFrame;
                        offset := out_position st
                                  + (t - previousPts st - 1) * Z.of_nat (length buf);
                        bytes := setBigUint64 buf 4 t |})
           (zseq (previousPts st + 1) (Z.to_nat missing))
       ++ [{| site := CurrentFrame;
              offset := out_position st + missing * Z.of_nat (length buf);
              bytes := setBigUint64 (source_frame file frame) 4 pts |}] /\
     duplicatedFrames st' = duplicatedFrames st + missing /\
     writtenFrames st' = writtenFrames st + missing + 1 /\
     previousPts st' = pts).
Proof.
  intros G R Q0 E Lb [H0 Hlt] T missing. unfold repair_step, close_gap. rewrite G, E.
  destruct (Z.geb_spec (previousPts st) 0) as [_|]; [|lia]. cbn [andb].
  rewrite missing_before_exact by lia. fold missing.
  assert (Rm : - 2 ^ 64 <= missing <= 2 ^ 64) by (unfold missing; lia).
  split; intros M.
  - destruct (hour_bound_plus_one missing limit Q0 M) as [P X].
    apply (exceeds_one_hour_iff missing _ limit R Rm) in X.
    destruct (Z.gtb_spec missing 0) as [_|]; [|lia]. now rewrite X.
  - assert (X : exceeds_one_hour missing (frameRate info) = false).
    { destruct (exceeds_one_hour missing (frameRate info)) eqn:X; [|reflexivity].
      apply (exceeds_one_hour_iff missing _ limit R Rm) in X.
      now apply hour_bound_exact in M. }
    unfold emit_frame. rewrite is_infinite_false by lia.
    destruct (Z.gtb_spec missing 0) as [P|P].
    + rewrite X.
      destruct (fill_gap_writes (Z.to_nat missing) pts buf st Lb)
        as (st1 & F & P1 & S1 & O1 & W1 & D1 & N1); [lia | lia | unfold missing; lia|].
      rewrite F. eexists. split; [reflexivity|].
      cbn [writes duplicatedFrames writtenFrames previousPts].
      rewrite W1, O1, D1, N1, Z2Nat.id by lia.
      unfold source_frame. rewrite <- app_assoc.
      split; [reflexivity|]. lia.
    + eexists. split; [reflexivity|].
      cbn [writes duplicatedFrames writtenFrames previousPts].
      assert (Z0 : missing = 0) by (unfold missing in *; lia).
      rewrite Z0. cbn [Z.to_nat zseq map app]. unfold source_frame.
      rewrite Z.mul_0_l, Z.add_0_r. split; [reflexivity|]. lia.
Qed.

Lemma C2_witness :
  repair_step example_file slow_info slow_state 228 = Throw (TooManyFramesMissing 226) /\
  exists st',
    repair_step example_file slow_info slow_state 227 = Ok st' /\
    writes st' = writes slow_state ++
      map (fun t => {| site := DuplicateFrame;
                       offset := out_position slow_state
                                 + (t - previousPts slow_state - 1) * Z.of_nat 14;
                       bytes := setBigUint64
                                  (setBigUint64 (read_into_fresh example_file 32 14) 4 1)
                                  4 t |})
          (zseq (previousPts slow_state + 1) (Z.to_nat 225))
      ++ [{| site := CurrentFrame;
             offset := out_position slow_state + 225 * Z.of_nat 14;
             bytes := setBigUint64
                        (source_frame example_file
                           {| index := 1; position := 46; size := 13 |}) 4 227 |}] /\
    duplicatedFrames st' = duplicatedFrames slow_state + 225 /\
    writtenFrames st' = writtenFrames slow_state + 225 + 1 /\
    previousPts st' = 227.
Proof.
  assert (L : one_hour (frameRate slow_info) = Finite 225) by (vm_compute; reflexivity).
  assert (Q0 : (0 <= 225)%Q) by (unfold Qle; simpl; lia).
  assert (E : previousFrame slow_state
              = Some (setBigUint64 (read_into_fresh example_file 32 14) 4 1))
    by reflexivity.
  assert (Lb : (12 <= length (setBigUint64 (read_into_fresh example_file 32 14) 4 1))%nat)
    by (vm_compute; lia).
  split.
  - apply (proj1 (C2_gap_bound example_file slow_info slow_state 228
                    {| index := 2; position := 59; size := 15 |} _ 225
                    eq_refl L Q0 E Lb ltac:(simpl; lia) ltac:(lia))).
    reflexivity.
  - apply (proj2 (C2_gap_bound example_file slow_info slow_state 227
                    {| index := 1; position := 46; size := 13 |} _ 225
                    eq_refl L Q0 E Lb ltac:(simpl; lia) ltac:(lia))).
    reflexivity.
Defined.

(** C2, as it is stated, fails in two ways.  Where [60 * 60 * frameRate] is
    not what the code compares with: at one frame in nine seconds a gap of
    400 frames, which is [60 * 60 / 9], makes the repair throw, since the
    product the code computes is the double just below 400.  And across
    2^53: at one frame in sixteen seconds an hour is 225 frames, the
    timestamps 2^53 - 225 and 2^53 + 2 are 226 frames apart, and the
    repair does not throw the gap error, since [pts - 1 - previousPts] is
    computed as 225; the gap loop then runs without end. *)
Lemma C2_counterexample :
  (exists info,
      parseIvf ninth_file true ninth_recognizer = Ok info /\
      ptsIndex info = [1; 402] /\
      frameRate info = js_div (number_of 1) (number_of 9) /\
      (inject_Z (402 - 1 - 1) == 60 * 60 * (1 # 9))%Q /\
      fixIvfFrames ninth_file ninth_recognizer = Throw (TooManyFramesMissing 400)) /\
  (exists info,
      parseIvf sixteenth_file true sixteenth_recognizer = Ok info /\
      ptsIndex info = [2 ^ 53 - 225; 2 ^ 53 + 2] /\
      one_hour (frameRate info) = Finite 225 /\
      (2 ^ 53 + 2) - 1 - (2 ^ 53 - 225) = 225 + 1 /\
      missing_before (2 ^ 53 + 2) (2 ^ 53 - 225) = 225 /\
      fixIvfFrames sixteenth_file sixteenth_recognizer = Throw OutOfFuel).
Proof.
  split.
  - destruct (parseIvf ninth_file true ninth_recognizer) as [info|e] eqn:P;
      vm_compute in P; [injection P as <-|discriminate].
    eexists. split; [reflexivity|]. split; [reflexivity|].
    split; [vm_compute; reflexivity|]. split; [reflexivity|].
    vm_compute. reflexivity.
  - destruct (parseIvf sixteenth_file true sixteenth_recognizer) as [info|e] eqn:P;
      vm_compute in P; [injection P as <-|discriminate].
    eexists. split; [reflexivity|]. split; [vm_compute; reflexivity|].
    split; [vm_compute; reflexivity|]. split; [reflexivity|].
    split; [vm_compute; reflexivity|].
    vm_compute. reflexivity.
Qed.

(** C3, as the code has it.  In the reconciliation pass, a key that is not
    the first of the sorted keys and whose recognized value is the sentinel
    0 receives the value its predecessor has after its own substitution,
    plus the distance between the two keys, as long as that value plus the
    key stays within 2^53; when the predecessor has no usable value (it was
    deleted, or it is a first key left at 0) the key is deleted.  The
    scenario [1000, 0, 0, 1200] at keys 10 to 13 gives [1000, 1001, 1002,
    1200]. *)
Theorem C3_reconcile_interpolates (m : Map Z) (pre post : list Z) (k : Z) :
  NoDup (map_keys m) ->
  sort_ascending (map_keys m) = pre ++ k :: post ->
  pre <> [] ->
  map_get m k = Some 0 ->
  0 <= last pre 0 ->
  (forall prev, map_get (reconcile m) (last pre 0) = Some prev ->
                0 <= prev /\ prev + k <= 2 ^ 53) ->
  map_get (reconcile m) k =
    match map_get (reconcile m) (last pre 0) with
    | Some prev => if negb (prev =? 0) then Some (prev + (k - last pre 0)) else None
    | None => None
    end
  /\ reconcile scenario_recognized = [(10, 1000); (11, 1001); (12, 1002); (13, 1200)].
Proof.
  intros N E P G K0 R. split; [|reflexivity].
  rewrite (reconcile_entry m pre post k N E P) by (now rewrite G).
  assert (Lt : last pre 0 < k).
  { apply (sorted_last_lt pre post); [|exact P]. rewrite <- E. now apply sort_ascending_lt. }
  destruct (map_get (reconcile m) (last pre 0)) as [prev|]; [|reflexivity].
  destruct (R prev eq_refl) as [R0 R1].
  destruct (negb (prev =? 0)); [|reflexivity].
  rewrite (js_plus_exact prev k), js_minus_exact by lia. f_equal. lia.
Qed.

Lemma C3_witness :
  map_get (reconcile scenario_recognized) 12 = Some (1001 + (12 - 11)) /\
  reconcile scenario_recognized = [(10, 1000); (11, 1001); (12, 1002); (13, 1200)].
Proof.
  apply (C3_reconcile_interpolates scenario_recognized [10; 11] [13] 12).
  - repeat constructor; simpl; lia.
  - reflexivity.
  - discriminate.
  - reflexivity.
  - simpl. lia.
  - intros prev H. vm_compute in H. injection H as <-. lia.
Defined.

(** C3, as it is stated, fails near 2^53: with the value 3 recognized at
    key 2^53 - 3, the unrecognized key 2^53 - 2 receives 3 again, not 4,
    since 3 + (2^53 - 2) rounds to 2^53 before the previous key is
    subtracted. *)
Lemma C3_counterexample :
  sort_ascending (map_keys late_recognized) = [2 ^ 53 - 3; 2 ^ 53 - 2] /\
  map_get late_recognized (2 ^ 53 - 2) = Some 0 /\
  map_get (reconcile late_recognized) (2 ^ 53 - 3) = Some 3 /\
  map_get (reconcile late_recognized) (2 ^ 53 - 2) = Some 3 /\
  map_get (reconcile late_recognized) (2 ^ 53 - 2)
  <> Some (3 + ((2 ^ 53 - 2) - (2 ^ 53 - 3))).
Proof.
  vm_compute. repeat split; discriminate.
Qed.

(** C4.  When every catalogued frame has a recognized, non-zero value, the
    reconciliation pass changes nothing and the keys of the recovered
    catalogue are exactly the recognized values. *)
Theorem C4_reconcile_fully_recognized (r : Recognizer) (frames : Map IvfFrame) :
  (forall pts, In pts (map_keys frames) ->
               exists v, stored r pts = Some v /\ v <> 0%N) ->
  reconcile (recognize_all r (map_keys frames)) = recognize_all r (map_keys frames) /\
  (forall k, In k (map_keys (recover r frames)) <->
             exists pts, In pts (map_keys frames) /\ stored r pts = Some (Z.to_N k) /\ 0 < k).
Proof.
  intros H.
  assert (R : reconcile (recognize_all r (map_keys frames))
              = recognize_all r (map_keys frames)).
  { unfold reconcile. apply reconcile_loop_recognized. intros k Hk.
    apply -> sort_ascending_In in Hk. apply <- (@map_has_In Z) in Hk.
    unfold map_has in Hk.
    rewrite recognize_all_get in *.
    destruct (in_dec Z.eq_dec k (map_keys frames)) as [I|]; [|discriminate].
    destruct (H k I) as (v & -> & Nv). cbn. destruct (Z.eqb_spec (Z.of_N v) 0); [lia | reflexivity]. }
  split; [exact R|]. intros k. unfold recover. rewrite R, rekey_keys. split.
  - intros (Nk & pts & I & G). exists pts. split; [exact I|].
    rewrite recognize_all_get in G.
    destruct (in_dec Z.eq_dec pts (map_keys frames)); [|discriminate].
    destruct (stored r pts) as [v|]; [|discriminate]. injection G as <-.
    rewrite N2Z.id. split; [reflexivity | lia].
  - intros (pts & I & G & P). split; [lia|]. exists pts. split; [exact I|].
    rewrite recognize_all_get.
    destruct (in_dec Z.eq_dec pts (map_keys frames)); [|contradiction].
    rewrite G. cbn. f_equal. lia.
Qed.

Lemma C4_witness :
  reconcile (recognize_all example_recognizer (map_keys example_catalogue))
  = recognize_all example_recognizer (map_keys example_catalogue) /\
  (forall k, In k (map_keys (recover example_recognizer example_catalogue)) <->
             exists pts, In pts (map_keys example_catalogue) /\
                         stored example_recognizer pts = Some (Z.to_N k) /\ 0 < k).
Proof.
  apply (C4_reconcile_fully_recognized example_recognizer example_catalogue).
  intros pts H. simpl in H.
  destruct H as [<-|[<-|[<-|[<-|[]]]]];
    [exists 1%N | exists 2%N | exists 4%N | exists 5%N];
    (split; [vm_compute; reflexivity | discriminate]).
Defined.

(** C8.  For every file that holds a header, [parseIvf] returns, with or
    without the recognizer, a [ptsIndex] that is strictly ascending and is
    the sorted arrangement of the keys of the catalogue returned with it:
    the same keys, each once, and the only strictly ascending list of
    them. *)
Theorem C8_ptsIndex_sorted_keys (file : list byte) (runRecognizer : bool)
    (r : Recognizer) :
  (32 <= length file)%nat ->
  exists info,
    parseIvf file runRecognizer r = Ok info /\
    StronglySorted Z.lt (ptsIndex info) /\
    Permutation (map_keys (frames info)) (ptsIndex info) /\
    (forall k, In k (ptsIndex info) <-> map_has (frames info) k = true) /\
    (forall l, StronglySorted Z.lt l ->
               (forall k, In k l <-> map_has (frames info) k = true) ->
               l = ptsIndex info).
Proof.
  intros L. destruct (parseIvf_total file runRecognizer r L) as [info H].
  exists info. split; [exact H|].
  destruct (parseIvf_facts _ _ _ _ H) as (N & _ & I & _).
  assert (S : StronglySorted Z.lt (ptsIndex info))
    by (rewrite I; now apply sort_ascending_lt).
  assert (K : forall k, In k (ptsIndex info) <-> map_has (frames info) k = true).
  { intros k. rewrite I, sort_ascending_In. symmetry. apply map_has_In. }
  split; [exact S|]. split; [rewrite I; apply sort_ascending_perm|].
  split; [exact K|]. intros l Sl Kl.
  apply StronglySorted_lt_unique; [exact Sl | exact S |].
  intros k. now rewrite Kl, K.
Qed.

Lemma C8_witness :
  exists info,
    parseIvf example_file true example_recognizer = Ok info /\
    StronglySorted Z.lt (ptsIndex info) /\
    Permutation (map_keys (frames info)) (ptsIndex info) /\
    (forall k, In k (ptsIndex info) <-> map_has (frames info) k = true) /\
    (forall l, StronglySorted Z.lt l ->
               (forall k, In k l <-> map_has (frames info) k = true) ->
               l = ptsIndex info).
Proof.
  apply (C8_ptsIndex_sorted_keys example_file true example_recognizer).
  apply Nat.leb_le. vm_compute. reflexivity.
Defined.

(** ** Colliding timestamps *)

Lemma record_frames_app (a b : list (list byte)) :
  forall position st,
    record_frames (a ++ b) position st
    = record_frames b (position + Z.of_nat (length (concat a))) (record_frames a position st).
Proof.
  induction a as [|x a IH]; intros position st; cbn [app record_frames concat].
  - simpl. now rewrite Z.add_0_r.
  - rewrite IH. f_equal. rewrite length_app. lia.
Qed.

Lemma record_frames_keeps (bs : list (list byte)) (k : Z) (f : IvfFrame) :
  forall position st,
    map_get (loop_frames st) k = Some f ->
    map_get (loop_frames (record_frames bs position st)) k = Some f.
Proof.
  induction bs as [|b bs IH]; intros position st H; cbn [record_frames]; [exact H|].
  apply IH. now apply record_frame_keeps.
Qed.

Lemma record_frames_warned (bs : list (list byte)) (k : Z) :
  forall position st,
    In k (loop_warned st) -> In k (loop_warned (record_frames bs position st)).
Proof.
  induction bs as [|b bs IH]; intros position st H; cbn [record_frames]; [exact H|].
  apply IH. now apply record_frame_warned.
Qed.

Lemma record_frames_absent (bs : list (list byte)) (p : Z) :
  forall position st,
    ~ In p (map frame_pts bs) ->
    map_get (loop_frames st) p = None ->
    map_get (loop_frames (record_frames bs position st)) p = None.
Proof.
  induction bs as [|b bs IH]; intros position st N H; cbn [record_frames]; [exact H|].
  apply IH; [intros I; apply N; now right|].
  unfold record_frame. destruct (map_has _ _); cbn [loop_frames]; [exact H|].
  rewrite map_get_set_neq; [exact H|]. intros ->. apply N. now left.
Qed.

Lemma rekey_last_wins (frames : Map IvfFrame) (m : Map Z)
    (pre post : list (Z * IvfFrame)) (p r : Z) (f : IvfFrame) :
  frames = pre ++ (p, f) :: post ->
  map_get m p = Some r ->
  r <> 0 ->
  (forall q g, In (q, g) post -> map_get m q <> Some r) ->
  map_get (rekey frames m) r = Some f.
Proof.
  intros -> G Nr Hpost. unfold rekey. rewrite fold_left_app. cbn [fold_left].
  rewrite rekey_fold_untouched by exact Hpost.
  unfold rekey_step. cbn [fst snd]. rewrite G.
  destruct (Z.eqb_spec r 0); [contradiction|]. cbn [negb]. apply map_get_set_eq.
Qed.

Lemma parse_first_wins (hdr : list byte) (pre mid post : list (list byte))
    (b1 b2 : list byte) :
  length hdr = 32%nat ->
  Forall frame_ok (pre ++ b1 :: mid ++ b2 :: post) ->
  frame_pts b2 = frame_pts b1 ->
  ~ In (frame_pts b1) (map frame_pts pre) ->
  exists st f,
    parse_frames (hdr ++ concat (pre ++ b1 :: mid ++ b2 :: post)) = Some st /\
    map_get (loop_frames st) (frame_pts b1) = Some f /\
    position f = 32 + Z.of_nat (length (concat pre)) /\
    size f = Z.of_nat (length b1) /\
    In (frame_pts b1) (loop_warned st).
Proof.
  intros L F E N. rewrite (parse_frames_wellformed hdr _ L F).
  set (st0 := {| loop_index := 0; loop_frames := []; loop_warned := [] |}).
  set (p := frame_pts b1) in *.
  set (st1 := record_frames pre 32 st0).
  assert (A : map_get (loop_frames st1) p = None)
    by (apply record_frames_absent; [exact N | reflexivity]).
  assert (Fb1 : frame_ok b1).
  { apply Forall_app in F. destruct F as [_ F]. now inversion F. }
  set (pos1 := 32 + Z.of_nat (length (concat pre))).
  set (st2 := record_frame st1 pos1 (getUint32 b1 0) p).
  set (f := {| index := loop_index st1; position := pos1; size := getUint32 b1 0 + 12 |}).
  assert (G2 : map_get (loop_frames st2) p = Some f).
  { unfold st2, record_frame, map_has. rewrite A. cbn [loop_frames]. apply map_get_set_eq. }
  eexists. exists f. split; [reflexivity|].
  rewrite record_frames_app. fold st1. cbn [record_frames]. fold p pos1 st2.
  rewrite record_frames_app. cbn [record_frames]. rewrite E. fold p.
  set (st3 := record_frames mid _ st2).
  assert (G3 : map_get (loop_frames st3) p = Some f) by (now apply record_frames_keeps).
  match goal with |- context [record_frames post ?q (record_frame st3 ?a ?b p)] =>
    set (st4 := record_frame st3 a b p); set (pos4 := q) end.
  assert (G4 : map_get (loop_frames st4) p = Some f) by (now apply record_frame_keeps).
  assert (W4 : In p (loop_warned st4)).
  { unfold st4, record_frame, map_has. rewrite G3. cbn [loop_warned]. now left. }
  split; [now apply record_frames_keeps|].
  split; [reflexivity|]. split; [apply Fb1|]. now apply record_frames_warned.
Qed.

(** C9.  In the re-keying of the catalogue, when several frames resolve to
    one timestamp the frame iterated last is the one filed under it, and an
    earlier frame with a different record is in the recovered catalogue no
    more.  The parse pass does the opposite: of two frames whose timestamps
    are one number the first stays catalogued and the later one is skipped
    with a warning; on any file, an entry once catalogued is never
    replaced. *)
Theorem C9_collision_policies :
  (forall (frames : Map IvfFrame) (m : Map Z) (pre mid post : list (Z * IvfFrame))
          (p1 p2 r : Z) (f1 f2 : IvfFrame),
      frames = pre ++ (p1, f1) :: mid ++ (p2, f2) :: post ->
      map_get m p1 = Some r -> map_get m p2 = Some r -> r <> 0 ->
      (forall q g, In (q, g) post -> map_get m q <> Some r) ->
      map_get (rekey frames m) r = Some f2 /\
      (f1 <> f2 -> (forall q, In (q, f1) frames -> q = p1) ->
       forall k, map_get (rekey frames m) k <> Some f1)) /\
  (forall (hdr : list byte) (pre mid post : list (list byte)) (b1 b2 : list byte),
      length hdr = 32%nat ->
      Forall frame_ok (pre ++ b1 :: mid ++ b2 :: post) ->
      frame_pts b2 = frame_pts b1 ->
      ~ In (frame_pts b1) (map frame_pts pre) ->
      exists st f,
        parse_frames (hdr ++ concat (pre ++ b1 :: mid ++ b2 :: post)) = Some st /\
        map_get (loop_frames st) (frame_pts b1) = Some f /\
        position f = 32 + Z.of_nat (length (concat pre)) /\
        size f = Z.of_nat (length b1) /\
        In (frame_pts b1) (loop_warned st)) /\
  (forall (file : list byte) (fuel : nat) (position : Z) (st st' : ParseState)
          (k : Z) (f : IvfFrame),
      map_get (loop_frames st) k = Some f ->
      parse_loop fuel file position st = Some st' ->
      map_get (loop_frames st') k = Some f).
Proof.
  split; [|split; [apply parse_first_wins | apply parse_loop_keeps]].
  - intros frames m pre mid post p1 p2 r f1 f2 E G1 G2 Nr Hpost.
    assert (L : map_get (rekey frames m) r = Some f2).
    { apply (rekey_last_wins frames m (pre ++ (p1, f1) :: mid) post p2 r f2);
        [now rewrite <- app_assoc | assumption..]. }
    split; [exact L|]. intros Nf U k Hk.
    destruct (rekey_provenance _ _ _ _ Hk) as (q & I & Gq & _).
    apply U in I. subst q. rewrite G1 in Gq. injection Gq as <-.
    rewrite L in Hk. congruence.
Qed.

Lemma C9_witness :
  (map_get (rekey collision_catalogue collision_recognized) 7
   = Some {| index := 1; position := 46; size := 13 |} /\
   forall k, map_get (rekey collision_catalogue collision_recognized) k
             <> Some {| index := 0; position := 32; size := 14 |}) /\
  exists st f,
    parse_frames (collision_header
                  ++ concat ([] ++ collision_first :: [] ++ collision_second :: [])) = Some st /\
    map_get (loop_frames st) (frame_pts collision_first) = Some f /\
    position f = 32 + Z.of_nat (length (concat (@nil (list byte)))) /\
    size f = Z.of_nat (length collision_first) /\
    In (frame_pts collision_first) (loop_warned st).
Proof.
  split.
  - destruct (proj1 C9_collision_policies collision_catalogue collision_recognized
                [] [] [] 100 101 7
                {| index := 0; position := 32; size := 14 |}
                {| index := 1; position := 46; size := 13 |}
                eq_refl eq_refl eq_refl ltac:(discriminate) ltac:(intros q g []))
      as [A B].
    split; [exact A|]. apply B; [discriminate|].
    intros q [E|[E|[]]]; [now injection E | discriminate E].
  - apply (proj1 (proj2 C9_collision_policies) collision_header [] [] []
             collision_first collision_second eq_refl).
    + repeat constructor.
    + reflexivity.
    + simpl. tauto.
Defined.

(** ** Parsing what the writer wrote *)

(** Within 2^53 the gap loop ends. *)
Lemma fill_gap_ends (fuel : nat) (pts : Z) :
  forall buf st,
    0 <= previousPts st ->
    pts <= 2 ^ 53 ->
    previousPts st + Z.of_nat fuel = pts - 1 ->
    exists st', fill_gap fuel pts buf st = Ok st'.
Proof.
  induction fuel as [|fuel IH]; intros buf st P T H; cbn [fill_gap];
    rewrite gap_condition_exact by lia;
    destruct (Z.gtb_spec (pts - previousPts st - 1) 0) as [G|G]; try lia; eauto.
  rewrite (js_plus_exact (previousPts st) 1) by lia.
  rewrite is_infinite_false by lia.
  apply IH; cbn [duplicate_written previousPts]; lia.
Qed.

(** Within 2^53 a pass through the body of the loop completes unless the
    gap exceeds the bound. *)
Lemma repair_step_ok (file : list byte) (info : IvfInfo) (st : RepairState) (pts : Z) :
  0 < pts <= 2 ^ 53 ->
  -1 <= previousPts st < pts ->
  previousFrame st = None \/
  exceeds_one_hour (pts - 1 - previousPts st) (frameRate info) = false ->
  exists st', repair_step file info st pts = Ok st'.
Proof.
  intros T P H. unfold repair_step, close_gap, emit_frame.
  rewrite is_infinite_false by lia.
  destruct (map_get (frames info) pts); [|eauto].
  destruct (previousFrame st) as [buf|]; [|eauto].
  rewrite missing_before_exact by lia.
  destruct (Z.geb_spec (previousPts st) 0) as [P0|]; cbn [andb]; [|eauto].
  destruct (Z.gtb_spec (pts - 1 - previousPts st) 0); [|eauto].
  destruct H as [H|H]; [discriminate|]. rewrite H.
  destruct (fill_gap_ends (Z.to_nat (pts - 1 - previousPts st)) pts buf st)
    as [st1 ->]; [lia | lia | lia|]. eauto.
Qed.

Lemma to_double_zseq (n : nat) :
  forall a, 0 <= a -> a + Z.of_nat n <= 2 ^ 53 + 1 -> map to_double (zseq a n) = zseq a n.
Proof.
  induction n as [|n IH]; intros a A B; cbn [zseq map]; [reflexivity|].
  rewrite to_double_exact by lia. f_equal. apply IH; lia.
Qed.

Lemma map_size_keys {V : Type} (m : Map V) : map_size m = Z.of_nat (length (map_keys m)).
Proof.
  unfold map_size, map_keys. now rewrite length_map.
Qed.

(** Parsing the finished file catalogues every frame written; the count
    field of its header holds their number modulo [2^32]. *)
Lemma reparse_repaired (file : list byte) (r r' : Recognizer) (out : RepairedStream) :
  fixIvfFrames file r = Ok out ->
  repaired_startPts out + repaired_writtenFrames out <= 2 ^ 53 ->
  exists info,
    parseIvf (file_of_writes (repaired_writes out)) false r' = Ok info /\
    map_size (frames info) = repaired_writtenFrames out /\
    getUint32 (file_of_writes (repaired_writes out)) 24
    = repaired_writtenFrames out mod 2 ^ 32.
Proof.
  intros H B.
  destruct (fixIvfFrames_inv file r out H B) as (info0 & st & _ & _ & I & W & S & N & _).
  set (hdr := setUint32 (read_into_fresh file 0 32) 24 (writtenFrames st)) in *.
  assert (Lh : length hdr = 32%nat).
  { unfold hdr. rewrite setUint32_length; rewrite read_into_fresh_length; lia. }
  assert (E : file_of_writes (repaired_writes out) = hdr ++ concat (map bytes (writes st))).
  { rewrite W. apply (file_of_writes_final _ (out_position st)); [apply I | exact Lh]. }
  assert (F : Forall frame_ok (map bytes (writes st))).
  { apply Forall_map. eapply Forall_impl; [|apply (inv_frames st I)]. now intros w [Fw _]. }
  pose proof (parse_frames_wellformed hdr _ Lh F) as P.
  assert (K : map_keys (loop_frames (record_frames (map bytes (writes st)) 32
                {| loop_index := 0; loop_frames := []; loop_warned := [] |}))
              = zseq (startPts st) (length (writes st))).
  { assert (Ek : map frame_pts (map bytes (writes st))
                  = zseq (startPts st) (length (writes st))).
    { rewrite map_map.
      change (map (fun w => frame_pts (bytes w)) (writes st))
        with (map (fun w => to_double (embedded_pts w)) (writes st)).
      rewrite <- (map_map embedded_pts to_double).
      rewrite writer_inv_range by (exact I || (rewrite <- S, <- N; lia)).
      pose proof (inv_prev st I) as Hv. pose proof (inv_count st I) as Hn.
      destruct (previousFrame st).
      - apply to_double_zseq; [lia|]. rewrite <- Hn, <- S, <- N. lia.
      - destruct Hv as [-> _]. reflexivity. }
    rewrite record_frames_distinct; cbn [loop_frames map_keys map app]; rewrite Ek.
    - reflexivity.
    - apply zseq_NoDup. }
  rewrite E. unfold parseIvf.
  assert (L32 : length (pread (hdr ++ concat (map bytes (writes st))) 0 32) = 32%nat).
  { unfold pread. change (Z.to_nat 0) with 0%nat. cbn [skipn].
    rewrite firstn_app, Lh, Nat.sub_diag, firstn_all2 by lia. now rewrite length_app, Lh. }
  rewrite L32, P. cbn [Nat.eqb negb]. eexists. split; [reflexivity|].
  cbn [frames]. split.
  - rewrite map_size_keys, K, zseq_length, N. symmetry. apply I.
  - unfold hdr. rewrite get_setUint32 by (rewrite read_into_fresh_length; lia).
    now rewrite N.
Qed.

(** C6, as the code has it.  For timestamps within 2^53, parsing the file a
    repair wrote catalogues as many frames as were written, originals and
    duplicates; the count field at offset 24 of its header holds that
    number modulo [2^32], so the two agree when fewer than [2^32] frames
    were written. *)
Theorem C6_reparse_frame_count (file : list byte) (r r' : Recognizer)
    (out : RepairedStream) :
  fixIvfFrames file r = Ok out ->
  repaired_startPts out + repaired_writtenFrames out <= 2 ^ 53 ->
  exists info,
    parseIvf (file_of_writes (repaired_writes out)) false r' = Ok info /\
    map_size (frames info) = repaired_writtenFrames out /\
    getUint32 (file_of_writes (repaired_writes out)) 24
    = repaired_writtenFrames out mod 2 ^ 32 /\
    (repaired_writtenFrames out < 2 ^ 32 ->
     map_size (frames info) = getUint32 (file_of_writes (repaired_writes out)) 24).
Proof.
  intros H B.
  destruct (reparse_repaired file r r' out H B) as (info & P & M & G).
  exists info. repeat split; [exact P | exact M | exact G|].
  intros L. rewrite M, G. symmetry. apply Z.mod_small.
  split; [|exact L]. rewrite <- M. unfold map_size. lia.
Qed.

Lemma C6_witness :
  fixIvfFrames example_file example_recognizer = Ok example_repaired /\
  exists info,
    parseIvf (file_of_writes (repaired_writes example_repaired)) false example_recognizer
    = Ok info /\
    map_size (frames info) = repaired_writtenFrames example_repaired /\
    getUint32 (file_of_writes (repaired_writes example_repaired)) 24
    = repaired_writtenFrames example_repaired mod 2 ^ 32 /\
    (repaired_writtenFrames example_repaired < 2 ^ 32 ->
     map_size (frames info)
     = getUint32 (file_of_writes (repaired_writes example_repaired)) 24).
Proof.
  assert (H : fixIvfFrames example_file example_recognizer = Ok example_repaired)
    by (vm_compute; reflexivity).
  assert (B : repaired_startPts example_repaired
              + repaired_writtenFrames example_repaired <= 2 ^ 53)
    by (vm_compute; discriminate).
  split; [exact H|].
  exact (C6_reparse_frame_count example_file example_recognizer example_recognizer
           example_repaired H B).
Defined.

(** C6, as it is stated, fails above 2^53: the capture [late_file], read
    at 2^53 + 2 and 2^53 + 4, is repaired into three frames, the count
    field holds 3, and parsing the result catalogues two frames, since the
    duplicate carries the timestamp of the frame after it. *)
Lemma C6_counterexample :
  fixIvfFrames late_file later_recognizer = Ok later_repaired /\
  repaired_writtenFrames later_repaired = 3 /\
  getUint32 (file_of_writes (repaired_writes later_repaired)) 24 = 3 /\
  exists info,
    parseIvf (file_of_writes (repaired_writes later_repaired)) false later_recognizer
    = Ok info /\
    map_size (frames info) = 2.
Proof.
  split; [vm_compute; reflexivity|]. split; [reflexivity|].
  split; [vm_compute; reflexivity|].
  destruct (parseIvf (file_of_writes (repaired_writes later_repaired)) false
              later_recognizer) as [info|e] eqn:P.
  - exists info. split; [reflexivity|]. vm_compute in P. injection P as <-. reflexivity.
  - vm_compute in P. discriminate.
Qed.

(** ** The bucketing of the VMAF series *)

Module VmafGraphFacts.
Import VmafGraph.

Lemma add_to_last_join_last (prev : list Point) (ws : list (list VmafFrame))
    (R : Point -> list VmafFrame -> Prop) (v : number) (cur : VmafFrame) :
  Forall2 R prev ws ->
  (forall p w, R p w -> R {| x := x p; y := js_add (y p) v |} (w ++ [cur])) ->
  prev <> [] ->
  exists prev' ws',
    add_to_last prev v = Some prev' /\
    join_last ws cur = Some ws' /\
    Forall2 R prev' ws' /\
    concat ws' = concat ws ++ [cur].
Proof.
  intros F Step. induction F as [|p w prev ws Hpw F IH]; intros N; [congruence|].
  destruct F as [|p2 w2 prev ws Hpw2 F].
  - exists [{| x := x p; y := js_add (y p) v |}], [w ++ [cur]]. cbn.
    repeat split; [|now rewrite !app_nil_r]. constructor; [now apply Step | constructor].
  - destruct IH as (prev' & ws' & A & J & F' & C); [discriminate|].
    exists (p :: prev'), (w :: ws').
    change (add_to_last (p :: p2 :: prev) v)
      with (match add_to_last (p2 :: prev) v with Some l => Some (p :: l) | None => None end).
    change (join_last (w :: w2 :: ws) cur)
      with (match join_last (w2 :: ws) cur with Some l => Some (w :: l) | None => None end).
    rewrite A, J. repeat split; [now constructor|].
    cbn [concat]. rewrite C. now rewrite app_assoc.
Qed.

Lemma running_sum_snoc (frameRate : Q) (w : list VmafFrame) (cur : VmafFrame) :
  w <> [] ->
  running_sum frameRate (w ++ [cur])
  = js_add (running_sum frameRate w) (share frameRate cur).
Proof.
  destruct w as [|f tl]; [congruence|]. intros _.
  cbn [app running_sum]. now rewrite fold_left_app.
Qed.

Lemma bucket_of_join (frameRate : Q) (cur : VmafFrame) (p : Point) (w : list VmafFrame) :
  opens_bucket frameRate cur = false ->
  bucket_of frameRate p w ->
  bucket_of frameRate {| x := x p; y := js_add (y p) (share frameRate cur) |} (w ++ [cur]).
Proof.
  intros O (N & X & Y). unfold bucket_of. cbn [x y].
  destruct w as [|f tl]; [contradiction|]. split; [|split].
  - split; [apply N|].
    apply Forall_app. split; [apply N | constructor; [exact O | constructor]].
  - exact X.
  - rewrite Y. symmetry. apply running_sum_snoc. discriminate.
Qed.

Lemma reduce_windows (frameRate : Q) (frames : list VmafFrame) :
  forall prev ws pts,
    Forall2 (bucket_of frameRate) prev ws ->
    reduce frameRate frames prev = Some pts ->
    exists ws',
      windows_from frameRate frames ws = Some ws' /\
      Forall2 (bucket_of frameRate) pts ws' /\
      concat ws' = concat ws ++ frames.
Proof.
  induction frames as [|cur frames IH]; intros prev ws pts F H; cbn [reduce windows_from] in *.
  - injection H as <-. exists ws. now rewrite app_nil_r.
  - unfold bucket_step in H. destruct (opens_bucket frameRate cur) eqn:O.
    + destruct (IH (prev ++ [{| x := frameNum cur; y := share frameRate cur |}])
                  (ws ++ [[cur]]) pts) as (ws' & W & F' & C); [|exact H|].
      * apply Forall2_app; [exact F|]. constructor; [|constructor].
        unfold bucket_of. cbn [window_ok x y window_start running_sum fold_left].
        split; [split; [exact O | constructor]|]. split; reflexivity.
      * exists ws'. split; [exact W|]. split; [exact F'|].
        rewrite C, concat_app. cbn. now rewrite <- app_assoc.
    + destruct prev as [|p prev]; [discriminate|].
      destruct (add_to_last_join_last (p :: prev) ws (bucket_of frameRate)
                  (share frameRate cur) cur F) as (prev' & ws1 & A & J & F1 & C1);
        [intros; now apply bucket_of_join | discriminate|].
      rewrite A in H. rewrite J.
      destruct (IH prev' ws1 pts F1 H) as (ws' & W & F' & C).
      exists ws'. split; [exact W|]. split; [exact F'|].
      rewrite C, C1. now rewrite <- app_assoc.
Qed.

(** C5, as the code has it.  Each bucket stands for a window of consecutive
    frames, opened by a frame whose number is a multiple of the frame rate;
    the windows partition the series; the label of a bucket is the number
    of the frame that opens its window, and its value is what adding up,
    from left to right, the score of each frame of the window divided by
    the frame rate gives, every quotient and every sum rounded to a
    double. *)
Theorem C5_bucket_values (frameRate : Q) (frames : list VmafFrame) (pts : list Point) :
  bucket_series frameRate frames = Some pts ->
  exists ws,
    windows frameRate frames = Some ws /\
    concat ws = frames /\
    Forall2
      (fun p w =>
         window_ok frameRate w /\
         x p = window_start w /\
         y p = running_sum frameRate w)
      pts ws.
Proof.
  intros H. unfold bucket_series in H.
  destruct (reduce_windows frameRate frames [] [] pts (Forall2_nil _) H) as (ws & W & F & C).
  exists ws. split; [exact W|]. split; [exact C | exact F].
Qed.

Lemma C5_witness :
  bucket_series 2 short_series
  = Some [{| x := 0; y := Finite 15 |}; {| x := 2; y := Finite 15 |}] /\
  exists ws,
    windows 2 short_series = Some ws /\
    concat ws = short_series /\
    Forall2
      (fun p w =>
         window_ok 2 w /\
         x p = window_start w /\
         y p = running_sum 2 w)
      [{| x := 0; y := Finite 15 |}; {| x := 2; y := Finite 15 |}] ws.
Proof.
  assert (H : bucket_series 2 short_series
              = Some [{| x := 0; y := Finite 15 |}; {| x := 2; y := Finite 15 |}])
    by (vm_compute; reflexivity).
  split; [exact H|].
  exact (C5_bucket_values 2 short_series _ H).
Defined.

(** C5, as it is stated, fails twice over.  On a series whose last window
    is short: at two frames per second the third frame is alone in its
    window, its score is 30, and its bucket holds 15.  And on a full
    window, by rounding: at three frames per second the scores 0.1, 0.2 and
    0.3 make one window of three frames, whose bucket is not the mean of
    the three scores. *)
Lemma C5_counterexample :
  (bucket_series 2 short_series
   = Some [{| x := 0; y := Finite 15 |}; {| x := 2; y := Finite 15 |}] /\
   windows 2 short_series
   = Some [[{| frameNum := 0; vmaf := 10 |}; {| frameNum := 1; vmaf := 20 |}];
           [{| frameNum := 2; vmaf := 30 |}]] /\
   ~ (15 == window_mean [{| frameNum := 2; vmaf := 30 |}])%Q) /\
  (exists v,
      bucket_series 3 tenths_series = Some [{| x := 0; y := Finite v |}] /\
      windows 3 tenths_series = Some [tenths_series] /\
      length tenths_series = 3%nat /\
      ~ (v == window_mean tenths_series)%Q).
Proof.
  split.
  - split; [vm_compute; reflexivity|]. split; [vm_compute; reflexivity|].
    intros E. vm_compute in E. discriminate E.
  - eexists. split; [vm_compute; reflexivity|]. split; [vm_compute; reflexivity|].
    split; [reflexivity|]. intros E. vm_compute in E. discriminate E.
Qed.

Lemma add_to_last_length (prev : list Point) (v : number) :
  prev <> [] -> exists l, add_to_last prev v = Some l /\ length l = length prev.
Proof.
  induction prev as [|p prev IH]; intros N; [congruence|].
  destruct prev as [|p2 prev].
  - eexists. split; reflexivity.
  - destruct IH as (l & A & L); [discriminate|]. exists (p :: l).
    change (add_to_last (p :: p2 :: prev) v)
      with (match add_to_last (p2 :: prev) v with Some l => Some (p :: l) | None => None end).
    rewrite A. split; [reflexivity | simpl; now rewrite L].
Qed.

Lemma reduce_from_nonempty (frameRate : Q) (frames : list VmafFrame) :
  forall prev,
    prev <> [] ->
    exists pts,
      reduce frameRate frames prev = Some pts /\
      length pts = (length prev + length (filter (opens_bucket frameRate) frames))%nat.
Proof.
  induction frames as [|cur frames IH]; intros prev N; cbn [reduce filter].
  - exists prev. split; [reflexivity | simpl; lia].
  - unfold bucket_step. destruct (opens_bucket frameRate cur).
    + destruct (IH (prev ++ [{| x := frameNum cur; y := share frameRate cur |}]))
        as (pts & R & L); [destruct prev; discriminate|].
      exists pts. split; [exact R|]. rewrite L, length_app. simpl. lia.
    + destruct (add_to_last_length prev (share frameRate cur) N) as (l & A & Ll).
      rewrite A. destruct (IH l) as (pts & R & L); [destruct l, prev; simpl in *; congruence|].
      exists pts. split; [exact R | lia].
Qed.

Lemma Qtrunc_of_integer (q : Q) (n : Z) : (q == inject_Z n)%Q -> Qtrunc q = n.
Proof.
  unfold Qeq, Qtrunc. cbn [Qnum Qden inject_Z]. intros H.
  rewrite Z.mul_1_r in H. rewrite H. apply Z.quot_mul. discriminate.
Qed.

(** A frame opens a bucket exactly when its number is a whole multiple of a
    non-zero frame rate. *)
Lemma opens_bucket_iff (frameRate : Q) (cur : VmafFrame) :
  opens_bucket frameRate cur = true <->
  ~ (frameRate == 0)%Q /\
  exists n : Z, (inject_Z (frameNum cur) == inject_Z n * frameRate)%Q.
Proof.
  unfold opens_bucket, js_rem.
  destruct (Qeq_bool frameRate 0) eqn:Z0.
  - apply Qeq_bool_iff in Z0. split; [discriminate | intros [N _]; contradiction].
  - assert (N : ~ (frameRate == 0)%Q) by (intros E; apply Qeq_bool_iff in E; congruence).
    rewrite Qeq_bool_iff. split.
    + intros E. split; [exact N|].
      exists (Qtrunc (inject_Z (frameNum cur) / frameRate)).
      rewrite Qmult_comm. apply Qplus_inj_r with (z := (- (frameRate * inject_Z
        (Qtrunc (inject_Z (frameNum cur) / frameRate))))%Q).
      rewrite Qplus_opp_r. exact E.
    + intros [_ [n E]].
      assert (T : Qtrunc (inject_Z (frameNum cur) / frameRate) = n).
      { apply Qtrunc_of_integer. rewrite E. apply Qdiv_mult_l. exact N. }
      rewrite T, E. ring.
Qed.

(** C10.  The fold opens a bucket only for a frame whose number is a whole
    multiple of the frame rate, so it yields one bucket per such frame; and
    it fails, by updating the last element of an empty array, exactly on the
    series whose first frame is not such a multiple. *)
Theorem C10_first_frame_must_open (frameRate : Q) (frames : list VmafFrame) :
  (bucket_series frameRate frames = None <->
   exists f rest, frames = f :: rest /\ opens_bucket frameRate f = false) /\
  (forall f, opens_bucket frameRate f = false ->
             bucket_step frameRate [] f = add_to_last [] (share frameRate f) /\
             add_to_last [] (share frameRate f) = None) /\
  (forall pts, bucket_series frameRate frames = Some pts ->
               length pts = length (filter (opens_bucket frameRate) frames)) /\
  (forall f, opens_bucket frameRate f = true <->
             ~ (frameRate == 0)%Q /\
             exists n : Z, (inject_Z (frameNum f) == inject_Z n * frameRate)%Q).
Proof.
  assert (A : forall f rest, opens_bucket frameRate f = true ->
              exists pts, bucket_series frameRate (f :: rest) = Some pts /\
                          length pts = length (filter (opens_bucket frameRate) (f :: rest))).
  { intros f rest O. unfold bucket_series. cbn [reduce filter]. unfold bucket_step.
    rewrite O. cbn [app].
    destruct (reduce_from_nonempty frameRate rest
                [{| x := frameNum f; y := share frameRate f |}])
      as (pts & R & L); [discriminate|].
    exists pts. split; [exact R | exact L]. }
  split; [|split; [|split]].
  - split.
    + intros H. destruct frames as [|f rest]; [discriminate|].
      exists f, rest. split; [reflexivity|].
      destruct (opens_bucket frameRate f) eqn:O; [|reflexivity].
      destruct (A f rest O) as (pts & R & _). congruence.
    + intros (f & rest & -> & O). unfold bucket_series. cbn [reduce].
      unfold bucket_step. now rewrite O.
  - intros f O. unfold bucket_step. now rewrite O.
  - intros pts H. destruct frames as [|f rest].
    + injection H as <-. reflexivity.
    + destruct (opens_bucket frameRate f) eqn:O.
      * destruct (A f rest O) as (pts' & R & L). congruence.
      * unfold bucket_series in H. cbn [reduce] in H. unfold bucket_step in H.
        rewrite O in H. discriminate.
  - intros f. apply opens_bucket_iff.
Qed.

Lemma C10_witness :
  bucket_series 2 [{| frameNum := 1; vmaf := 20 |}; {| frameNum := 2; vmaf := 30 |}] = None.
Proof.
  apply (proj1 (C10_first_frame_must_open 2
                  [{| frameNum := 1; vmaf := 20 |}; {| frameNum := 2; vmaf := 30 |}])).
  eexists. eexists. split; reflexivity.
Defined.

End VmafGraphFacts.

(** * Further properties of the code *)

(** ** The parse pass on short, padded and truncated files *)

(** X1.  [parseIvf] fails on exactly the files that are shorter than the
    32-byte header, and then with the invalid-file error; in particular the
    loop over the frames never fails and never runs out of budget. *)
Theorem X1_parse_fails_iff_header_short (file : list byte) (runRecognizer : bool)
    (r : Recognizer) (e : Error) :
  parseIvf file runRecognizer r = Throw e <->
  (length file < 32)%nat /\ e = InvalidIvfFile.
Proof.
  split.
  - intros H. apply parseIvf_throws in H. tauto.
  - intros [L ->]. unfold parseIvf.
    assert (E : length (pread file 0 32) <> 32%nat).
    { unfold pread. change (Z.to_nat 0) with 0%nat. cbn [skipn].
      rewrite length_firstn. lia. }
    apply Nat.eqb_neq in E. now rewrite E.
Qed.

Lemma parse_frames_prefix (hdr tail : list byte) (bs : list (list byte)) :
  length hdr = 32%nat ->
  Forall frame_ok bs ->
  parse_frames (hdr ++ concat bs ++ tail)
  = parse_loop (S (length tail)) (hdr ++ concat bs ++ tail)
      (Z.of_nat (32 + length (concat bs)))
      (record_frames bs 32 {| loop_index := 0; loop_frames := []; loop_warned := [] |}).
Proof.
  intros L F.
  destruct (parse_loop_total (hdr ++ concat bs ++ tail) (S (length tail))
              (Z.of_nat (32 + length (concat bs)))
              (record_frames bs 32 {| loop_index := 0; loop_frames := []; loop_warned := [] |}))
    as [st E]; [lia | rewrite !length_app, L; lia |].
  rewrite E. unfold parse_frames.
  apply parse_loop_fuel_mono with (fuel := (length bs + S (length tail))%nat).
  - pose proof (parse_loop_frames bs (S (length tail)) hdr tail
                  {| loop_index := 0; loop_frames := []; loop_warned := [] |} F) as P.
    rewrite L in P. change (Z.of_nat 32) with 32 in P. rewrite P. exact E.
  - pose proof (frames_total_length bs F). rewrite !length_app. lia.
Qed.

Lemma parseIvf_same_frames (file file' : list byte) (b : bool) (r : Recognizer) :
  (32 <= length file)%nat ->
  firstn 32 file' = firstn 32 file ->
  parse_frames file' = parse_frames file ->
  parseIvf file' b r = parseIvf file b r.
Proof.
  intros L H P. unfold parseIvf, pread. change (Z.to_nat 0) with 0%nat.
  cbn [skipn]. now rewrite H, P.
Qed.

(** X2.  After a header and complete frame records, trailing bytes that are
    fewer than a frame header are ignored: the file parses as it does
    without them. *)
Theorem X2_short_tail_ignored (hdr tail : list byte) (bs : list (list byte))
    (runRecognizer : bool) (r : Recognizer) :
  length hdr = 32%nat ->
  Forall frame_ok bs ->
  (length tail < 12)%nat ->
  parseIvf (hdr ++ concat bs ++ tail) runRecognizer r
  = parseIvf (hdr ++ concat bs) runRecognizer r.
Proof.
  intros L F T. apply parseIvf_same_frames.
  - rewrite length_app. lia.
  - rewrite !firstn_app_exact by exact L. reflexivity.
  - rewrite parse_frames_wellformed by assumption.
    rewrite parse_frames_prefix by assumption. cbn [parse_loop].
    assert (E : length (pread (hdr ++ concat bs ++ tail)
                          (Z.of_nat (32 + length (concat bs))) 12) <> 12%nat).
    { unfold pread. rewrite Nat2Z.id, app_assoc.
      rewrite skipn_app_exact by (rewrite length_app; lia).
      rewrite length_firstn. lia. }
    apply Nat.eqb_neq in E. now rewrite E.
Qed.

Lemma X2_witness :
  parseIvf (collision_header ++ concat [collision_first] ++ [x07; x08; x09]) false
    example_recognizer
  = parseIvf (collision_header ++ concat [collision_first]) false example_recognizer.
Proof.
  apply (X2_short_tail_ignored collision_header [x07; x08; x09] [collision_first]
           false example_recognizer eq_refl).
  - repeat constructor.
  - simpl. lia.
Defined.

(** X3.  A last frame whose 12-byte header is complete is catalogued even
    when its payload is cut short: the truncated file has the catalogue of
    the complete one, under the length the header announces. *)
Theorem X3_truncated_payload_catalogued (hdr b : list byte) (bs : list (list byte))
    (n : nat) (runRecognizer : bool) (r : Recognizer) :
  length hdr = 32%nat ->
  Forall frame_ok bs ->
  frame_ok b ->
  (12 <= n)%nat ->
  parseIvf (hdr ++ concat bs ++ firstn n b) runRecognizer r
  = parseIvf (hdr ++ concat (bs ++ [b])) runRecognizer r.
Proof.
  intros L F Fb Hn. apply parseIvf_same_frames.
  - rewrite length_app. lia.
  - rewrite !firstn_app_exact by exact L. reflexivity.
  - rewrite (parse_frames_wellformed hdr (bs ++ [b]) L)
      by (apply Forall_app; split; [exact F | constructor; [exact Fb | constructor]]).
    rewrite parse_frames_prefix by assumption.
    rewrite record_frames_app. cbn [record_frames parse_loop].
    destruct Fb as [Lb Sb].
    assert (P : pread (hdr ++ concat bs ++ firstn n b)
                  (Z.of_nat (32 + length (concat bs))) 12 = firstn 12 b).
    { unfold pread. rewrite Nat2Z.id, app_assoc.
      rewrite skipn_app_exact by (rewrite length_app; lia).
      rewrite firstn_firstn. f_equal. lia. }
    rewrite P, length_firstn. replace (Nat.min 12 (length b)) with 12%nat by lia.
    cbn [Nat.eqb negb]. unfold frame_pts at 1. unfold getUint32 at 1 2, getBigUint64 at 1.
    rewrite !slice_firstn by lia. fold (getUint32 b 0) (getBigUint64 b 4).
    fold (frame_pts b).
    rewrite Nat2Z.inj_add. change (Z.of_nat 32) with 32.
    destruct (length (firstn n b)) as [|k] eqn:K;
      [rewrite length_firstn in K; lia|].
    cbn [parse_loop]. rewrite pread_past_end; [reflexivity|].
    rewrite !length_app, L, K. rewrite length_firstn in K. lia.
Qed.

Lemma X3_witness :
  parseIvf (collision_header ++ concat [collision_first]
            ++ firstn 13 (ivf_frame 101 [x02; x03]))
    false example_recognizer
  = parseIvf (collision_header ++ concat ([collision_first] ++ [ivf_frame 101 [x02; x03]]))
      false example_recognizer.
Proof.
  apply (X3_truncated_payload_catalogued collision_header (ivf_frame 101 [x02; x03])
           [collision_first] 13 false example_recognizer eq_refl).
  - repeat constructor.
  - repeat constructor.
  - lia.
Defined.

(** ** The layout of the catalogue *)

Lemma map_set_absent {V : Type} (m : Map V) (k : Z) (v : V) :
  map_has m k = false -> map_set m k v = m ++ [(k, v)].
Proof.
  unfold map_has. induction m as [|[k' v'] m IH]; simpl; [reflexivity|].
  destruct (Z.eqb_spec k k'); [discriminate|]. intros H. now rewrite IH.
Qed.

Lemma laid_out_le (l : list IvfFrame) :
  forall p q q', laid_out p l q -> q <= q' -> laid_out p l q'.
Proof.
  induction l as [|f l IH]; intros p q q' H L; simpl in *; [lia|].
  destruct H as (A & B & C). repeat split; [exact A | exact B | eapply IH; eauto].
Qed.

Lemma laid_out_snoc (l : list IvfFrame) (f : IvfFrame) :
  forall p q,
    laid_out p l q -> q <= position f -> 12 <= size f ->
    laid_out p (l ++ [f]) (position f + size f).
Proof.
  induction l as [|g l IH]; intros p q H L S; simpl in *.
  - repeat split; lia.
  - destruct H as (A & B & C). repeat split; [exact A | exact B | eapply IH; eauto].
Qed.

(** X4.  The catalogue of a plain parse lists its records in file order:
    their [index] fields count from 0, each record starts at or after byte
    32, is at least a frame header long and ends before the next one
    starts, and the 12-byte header of each lies inside the file. *)
Theorem X4_catalogue_layout (file : list byte) (r : Recognizer) (info : IvfInfo) :
  parseIvf file false r = Ok info ->
  map (fun e => index (snd e)) (frames info) = zseq 0 (length (frames info)) /\
  (exists q, laid_out 32 (map snd (frames info)) q) /\
  Forall (fun e => position (snd e) + 12 <= Z.of_nat (length file)) (frames info).
Proof.
  intros H. destruct (parseIvf_inv _ _ _ _ H) as (st & P & _ & -> & _).
  unfold parse_frames in P.
  destruct (parse_loop_invariant file
              (fun p s =>
                 32 <= p /\
                 loop_index s = Z.of_nat (length (loop_frames s)) /\
                 map (fun e => index (snd e)) (loop_frames s)
                 = zseq 0 (length (loop_frames s)) /\
                 laid_out 32 (map snd (loop_frames s)) p /\
                 Forall (fun e => position (snd e) + 12 <= Z.of_nat (length file))
                   (loop_frames s)))
    with (3 := P) as (q & _ & _ & I & L & F).
  - intros p s (Hp & Hi & Hm & Hl & Hf) Hr.
    pose proof (le_decode_nonneg (slice 0 4 (pread file p 12))) as Hs.
    fold (getUint32 (pread file p 12) 0) in Hs.
    destruct (pread_full _ _ _ Hr) as [Hlen|]; [|lia].
    unfold record_frame.
    destruct (map_has (loop_frames s) _) eqn:E; cbn [loop_index loop_frames].
    + split; [lia|]. split; [exact Hi|]. split; [exact Hm|]. split; [|exact Hf].
      eapply laid_out_le; [exact Hl | lia].
    + rewrite map_set_absent by exact E.
      rewrite !map_app, !length_app. cbn [map snd index length].
      rewrite Nat.add_1_r, zseq_snoc, Hm, Hi.
      split; [lia|]. split; [lia|]. split; [reflexivity|]. split.
      * match goal with |- laid_out 32 (_ ++ [?f]) _ =>
          apply (laid_out_snoc _ f 32 p) end;
          [exact Hl | cbn [position]; lia | cbn [size]; lia].
      * apply Forall_app. split; [exact Hf|].
        constructor; [cbn [snd position]; lia | constructor].
  - cbn. split; [lia|]. split; [reflexivity|]. split; [reflexivity|].
    split; [lia | constructor].
  - eauto.
Qed.

Lemma X4_witness :
  map (fun e => index (snd e)) example_catalogue = zseq 0 (length example_catalogue) /\
  (exists q, laid_out 32 (map snd example_catalogue) q) /\
  Forall (fun e => position (snd e) + 12 <= Z.of_nat (length example_file))
    example_catalogue.
Proof.
  exact (X4_catalogue_layout example_file example_recognizer
           {| width := 640; height := 480; frameRate := Finite (30 # 1);
              ptsIndex := [100; 101; 103; 104]; frames := example_catalogue;
              participantDisplayName := EmptyString |}
           ltac:(vm_compute; reflexivity)).
Defined.

(** ** What the repair loop keeps *)

(** A property of the buffer and the state that one pass of the gap loop
    keeps holds when the loop ends. *)
Lemma fill_gap_preserves (P : list byte -> RepairState -> Prop) (pts : Z) :
  (forall buffer st t,
      P buffer st ->
      P (setBigUint64 buffer 4 t) (duplicate_written st t (setBigUint64 buffer 4 t))) ->
  forall fuel buffer st st',
    P buffer st ->
    fill_gap fuel pts buffer st = Ok st' ->
    exists buffer', P buffer' st'.
Proof.
  intros Step. induction fuel as [|fuel IH]; intros buffer st st' H R; cbn [fill_gap] in R;
    destruct (js_minus (js_minus pts (previousPts st)) 1 >? 0);
    try discriminate; try (injection R as <-; eauto).
  destruct (is_infinite (js_plus (previousPts st) 1)); [discriminate|].
  eapply IH; [|exact R]. apply Step, H.
Qed.

(** The ways through the body of the repair loop that do not throw. *)
Lemma repair_step_cases (file : list byte) (info : IvfInfo) (st st' : RepairState)
    (pts : Z) :
  repair_step file info st pts = Ok st' ->
  (map_get (frames info) pts = None /\ st' = st) \/
  exists f st1,
    map_get (frames info) pts = Some f /\
    emit_frame file f pts st1 = Ok st' /\
    (st1 = st \/
     exists buffer fuel,
       previousFrame st = Some buffer /\ fill_gap fuel pts buffer st = Ok st1).
Proof.
  unfold repair_step, close_gap. destruct (map_get (frames info) pts) as [f|].
  2:{ intros [= <-]. now left. }
  intros H. right. exists f.
  destruct (previousFrame st) as [buffer|].
  - destruct ((previousPts st >=? 0) && (missing_before pts (previousPts st) >? 0)).
    + destruct (exceeds_one_hour _ _); [discriminate|].
      destruct (fill_gap _ pts buffer st) as [st1|] eqn:F; [|discriminate].
      exists st1. split; [reflexivity|]. split; [exact H|]. right. eauto.
    + exists st. split; [reflexivity|]. split; [exact H|]. now left.
  - exists st. split; [reflexivity|]. split; [exact H|]. now left.
Qed.

(** A property of the previous buffer and the state that every write keeps
    holds when the repair loop ends. *)
Lemma repair_loop_preserves (file : list byte) (info : IvfInfo)
    (P : option (list byte) -> RepairState -> Prop) :
  (forall buffer st t,
      P (Some buffer) st -> previousFrame st = Some buffer ->
      P (Some (setBigUint64 buffer 4 t))
        (duplicate_written st t (setBigUint64 buffer 4 t))) ->
  (forall o st pts f st',
      P o st -> map_get (frames info) pts = Some f ->
      emit_frame file f pts st = Ok st' ->
      P (previousFrame st') st') ->
  forall todo st st',
    P (previousFrame st) st ->
    repair_loop file info todo st = Ok st' ->
    P (previousFrame st') st'.
Proof.
  intros Dup Emit. induction todo as [|pts todo IH]; intros st st' H L; cbn [repair_loop] in L.
  - now injection L as <-.
  - destruct (repair_step file info st pts) as [st1|] eqn:E; [|discriminate].
    apply (IH st1); [|exact L].
    destruct (repair_step_cases _ _ _ _ _ E) as [[_ ->]|(f & st0 & G & Em & Hc)]; [exact H|].
    destruct Hc as [->|(buffer & fuel & Eb & Fg)]; [eapply Emit; eauto|].
    destruct (fill_gap_preserves
                (fun b s => previousFrame s = Some b /\ P (Some b) s) pts)
      with (fuel := fuel) (buffer := buffer) (st := st) (st' := st0) as (b' & _ & Hb').
    + intros b s t [E1 E2]. split; [reflexivity | now apply Dup].
    + split; [exact Eb | now rewrite <- Eb].
    + exact Fg.
    + eapply Emit; eauto.
Qed.

Lemma carries_source_patched (file : list byte) (info : IvfInfo) (b : list byte) (t : Z) :
  catalogue_ok file (frames info) ->
  carries_source file info b ->
  carries_source file info (setBigUint64 b 4 t).
Proof.
  intros C (pts & f & G & L & F & S). exists pts, f.
  pose proof (read_frame_ok file f (C _ _ G)) as [Lf _]. fold (source_frame file f) in Lf.
  rewrite setBigUint64_length, setBigUint64_firstn4, setBigUint64_skipn12 by lia.
  auto.
Qed.

(** X5.  Every frame of a repaired stream, original or duplicate, is a
    catalogued frame of the source file up to its timestamp field: it has
    that frame's length, size field and payload.  The repair changes
    timestamps only. *)
Theorem X5_written_frames_carry_source (file : list byte) (r : Recognizer)
    (out : RepairedStream) (w : WriteOp) :
  fixIvfFrames file r = Ok out ->
  In w (written_frames (repaired_writes out)) ->
  exists info,
    parseIvf file true r = Ok info /\ carries_source file info (bytes w).
Proof.
  intros H Hw.
  destruct (fixIvfFrames_run file r out H) as (info & st & P & L & I & _ & W & _).
  rewrite W, written_frames_of_repair in Hw by (exact I || reflexivity).
  exists info. split; [exact P|].
  destruct (parseIvf_facts _ _ _ _ P) as (_ & C & _ & _).
  pose (Q := fun (o : option (list byte)) (s : RepairState) =>
               Forall (fun w => carries_source file info (bytes w)) (writes s) /\
               forall b, o = Some b -> carries_source file info b).
  assert (Inv : Q (previousFrame st) st).
  { apply (repair_loop_preserves file info Q) with (todo := ptsIndex info)
                                                    (st := initial_state); [| | |exact L].
    - intros buffer s t [F B] _. cbn [duplicate_written writes].
      assert (carries_source file info (setBigUint64 buffer 4 t))
        by (apply carries_source_patched; auto).
      split; [|now intros b [= <-]].
      apply Forall_app. split; [exact F|]. constructor; [assumption | constructor].
    - intros o s pts f s' [F _] G Em. unfold emit_frame in Em.
      destruct (is_infinite pts); [discriminate|]. injection Em as <-.
      cbn [writes previousFrame bytes].
      fold (source_frame file f).
      assert (carries_source file info (setBigUint64 (source_frame file f) 4 pts)).
      { apply carries_source_patched; [exact C|]. exists pts, f. auto. }
      split; [|now intros b [= <-]].
      apply Forall_app. split; [exact F|]. constructor; [assumption | constructor].
    - split; [constructor | discriminate]. }
  destruct Inv as [F _]. rewrite Forall_forall in F. now apply F.
Qed.

Lemma X5_witness :
  let w := {| site := DuplicateFrame; offset := 59;
              bytes := [x01; x00; x00; x00; x03; x00; x00; x00;
                        x00; x00; x00; x00; x03] |} in
  exists info,
    parseIvf example_file true example_recognizer = Ok info /\
    carries_source example_file info (bytes w).
Proof.
  intros w.
  apply (X5_written_frames_carry_source example_file example_recognizer
           example_repaired w).
  - vm_compute. reflexivity.
  - vm_compute. tauto.
Defined.

(** ** The counters and the start timestamp *)

Lemma fill_gap_originals (fuel : nat) (pts : Z) :
  forall buffer st st',
    fill_gap fuel pts buffer st = Ok st' ->
    writtenFrames st' - duplicatedFrames st' = writtenFrames st - duplicatedFrames st /\
    startPts st' = startPts st.
Proof.
  induction fuel as [|fuel IH]; intros buffer st st' R; cbn [fill_gap] in R;
    destruct (js_minus (js_minus pts (previousPts st)) 1 >? 0);
    try discriminate; try (injection R as <-; auto).
  destruct (is_infinite (js_plus (previousPts st) 1)); [discriminate|].
  apply IH in R. cbn [duplicate_written writtenFrames duplicatedFrames startPts] in R.
  split; [lia | apply R].
Qed.

(** What a pass that finds its frame does to the counters, the previous
    timestamp and the start timestamp, whatever the timestamps. *)
Lemma repair_step_found (file : list byte) (info : IvfInfo) (st st' : RepairState)
    (pts : Z) :
  map_get (frames info) pts <> None ->
  repair_step file info st pts = Ok st' ->
  writtenFrames st' - duplicatedFrames st'
  = writtenFrames st - duplicatedFrames st + 1 /\
  previousPts st' = pts /\
  startPts st' = (if startPts st <? 0 then pts else startPts st).
Proof.
  intros G E.
  destruct (repair_step_cases _ _ _ _ _ E) as [[G0 _]|(f & st0 & _ & Em & Hc)];
    [contradiction|].
  unfold emit_frame in Em. destruct (is_infinite pts); [discriminate|].
  injection Em as <-. cbn [writtenFrames duplicatedFrames previousPts startPts].
  destruct Hc as [->|(buffer & fuel & _ & Fg)].
  - split; [lia|]. auto.
  - apply fill_gap_originals in Fg. destruct Fg as [O ->]. split; [lia|]. auto.
Qed.

Lemma repair_loop_originals (file : list byte) (info : IvfInfo) (todo : list Z) :
  forall st st',
    (forall p, In p todo -> map_get (frames info) p <> None) ->
    repair_loop file info todo st = Ok st' ->
    writtenFrames st' - duplicatedFrames st'
    = writtenFrames st - duplicatedFrames st + Z.of_nat (length todo).
Proof.
  induction todo as [|pts todo IH]; intros st st' F L; cbn [repair_loop] in L.
  - injection L as <-. simpl. lia.
  - destruct (repair_step file info st pts) as [st1|] eqn:E; [|discriminate].
    rewrite (IH st1 st') by (auto using in_cons).
    destruct (repair_step_found file info st st1 pts) as (O & _); [apply F; now left | exact E|].
    cbn [length]. lia.
Qed.

Lemma repair_loop_ends (file : list byte) (info : IvfInfo) (todo : list Z) :
  forall st st',
    Forall (fun p => 0 < p) todo ->
    (forall p, In p todo -> map_get (frames info) p <> None) ->
    todo <> [] ->
    repair_loop file info todo st = Ok st' ->
    previousPts st' = last todo 0 /\
    startPts st' = (if startPts st <? 0 then hd 0 todo else startPts st).
Proof.
  induction todo as [|pts todo IH]; intros st st' F Fd N L; [congruence|].
  cbn [repair_loop] in L. inversion F as [|? ? Hp F']; subst.
  destruct (repair_step file info st pts) as [st1|] eqn:E; [|discriminate].
  destruct (repair_step_found file info st st1 pts) as (_ & P1 & S1);
    [apply Fd; now left | exact E|].
  destruct todo as [|q todo].
  - cbn [repair_loop] in L. injection L as <-. cbn [last hd]. auto.
  - destruct (IH st1 st' F') as [Pl Sl]; [|discriminate|exact L|].
    + intros p Hin. apply Fd. now right.
    + split; [exact Pl|]. rewrite Sl, S1. cbn [hd].
      destruct (Z.ltb_spec (startPts st) 0) as [|Ge].
      * destruct (Z.ltb_spec pts 0); [lia | reflexivity].
      * destruct (Z.ltb_spec (startPts st) 0); [lia | reflexivity].
Qed.

(** What a completed repair returns, whatever the timestamps. *)
Lemma repair_returns (file : list byte) (r : Recognizer) (out : RepairedStream) :
  fixIvfFrames file r = Ok out ->
  exists info,
    parseIvf file true r = Ok info /\
    ptsIndex info <> [] /\
    repaired_name out = displayName r /\
    repaired_startPts out = hd 0 (ptsIndex info) /\
    0 < hd 0 (ptsIndex info) /\
    repaired_writtenFrames out
    = repaired_duplicatedFrames out + Z.of_nat (length (ptsIndex info)) /\
    1 <= repaired_writtenFrames out.
Proof.
  intros H. pose proof H as H0. unfold fixIvfFrames in H0.
  destruct (fixIvfFrames_run file r out H)
    as (info & st & P & L & I & Nm0 & W & S & N & D & K0).
  rewrite P in H0. destruct (is_empty_string _); [discriminate|].
  destruct (length (ptsIndex info) =? 0)%nat eqn:Ne; [discriminate|].
  exists info. split; [exact P|].
  assert (Nm : participantDisplayName info = displayName r).
  { unfold parseIvf in P. destruct (negb _); [discriminate|].
    destruct (parse_frames file); [|discriminate]. now injection P as <-. }
  destruct (parseIvf_facts _ _ _ _ P) as (Nd & C & Ix & K).
  assert (Fd : forall p, In p (ptsIndex info) -> map_get (frames info) p <> None).
  { intros p Hp. rewrite Ix in Hp. apply -> sort_ascending_In in Hp.
    intros G. apply map_get_None in G. contradiction. }
  assert (Hne : ptsIndex info <> []) by (destruct (ptsIndex info); discriminate).
  assert (Pos : Forall (fun p => 0 < p) (ptsIndex info)).
  { rewrite Forall_forall. intros p Hp. rewrite Ix in Hp.
    apply -> sort_ascending_In in Hp. exact (K eq_refl p Hp). }
  destruct (repair_loop_ends file info (ptsIndex info) initial_state st Pos Fd Hne L)
    as [Pl Sl].
  change (startPts initial_state <? 0) with true in Sl. cbn iota in Sl.
  pose proof (repair_loop_originals file info _ _ _ Fd L) as O.
  change (writtenFrames initial_state) with 0 in O.
  change (duplicatedFrames initial_state) with 0 in O.
  assert (Len : (0 < length (ptsIndex info))%nat)
    by (destruct (ptsIndex info); [congruence | simpl; lia]).
  assert (Hhd : 0 < hd 0 (ptsIndex info)).
  { destruct (ptsIndex info) as [|p0 rest]; [congruence|]. now inversion Pos. }
  split; [exact Hne|].
  rewrite Nm0, S, N, D, Nm. split; [reflexivity|]. split; [exact Sl|].
  split; [exact Hhd|].
  assert (G : forall todo s s', 0 <= duplicatedFrames s ->
              repair_loop file info todo s = Ok s' -> 0 <= duplicatedFrames s').
  { induction todo as [|q todo IH]; intros s s' Hs Ls; cbn [repair_loop] in Ls.
    - now injection Ls as <-.
    - destruct (repair_step file info s q) as [s1|] eqn:E; [|discriminate].
      apply (IH s1 s'); [|exact Ls].
      pose proof (repair_step_monotone _ _ _ _ _ E). lia. }
  pose proof (G _ initial_state st (Z.le_refl 0) L) as Dn.
  lia.
Qed.

Lemma repair_counts (file : list byte) (r : Recognizer) (out : RepairedStream) :
  fixIvfFrames file r = Ok out ->
  repaired_startPts out + repaired_writtenFrames out <= 2 ^ 53 ->
  exists info,
    parseIvf file true r = Ok info /\
    repaired_name out = displayName r /\
    repaired_startPts out = hd 0 (ptsIndex info) /\
    repaired_writtenFrames out = last (ptsIndex info) 0 - hd 0 (ptsIndex info) + 1 /\
    repaired_writtenFrames out
    = repaired_duplicatedFrames out + Z.of_nat (length (ptsIndex info)) /\
    1 <= repaired_writtenFrames out.
Proof.
  intros H B.
  destruct (repair_returns file r out H) as (info & P & Hne & Nm & Sl & Hhd & O & W1).
  destruct (fixIvfFrames_inv file r out H B) as (info' & st & P' & L & I & W & S & N & D).
  rewrite P in P'. injection P' as <-.
  exists info. split; [exact P|]. split; [exact Nm|]. split; [exact Sl|].
  split; [|split; [exact O | exact W1]].
  destruct (parseIvf_facts _ _ _ _ P) as (Nd & C & Ix & K).
  assert (Fd : forall p, In p (ptsIndex info) -> map_get (frames info) p <> None).
  { intros p Hp. rewrite Ix in Hp. apply -> sort_ascending_In in Hp.
    intros G. apply map_get_None in G. contradiction. }
  assert (Pos : Forall (fun p => 0 < p) (ptsIndex info)).
  { rewrite Forall_forall. intros p Hp. rewrite Ix in Hp.
    apply -> sort_ascending_In in Hp. exact (K eq_refl p Hp). }
  destruct (repair_loop_ends file info (ptsIndex info) initial_state st Pos Fd Hne L)
    as [Pl _].
  pose proof (inv_prev st I) as V. pose proof (inv_count st I) as Cn.
  rewrite N, <- Sl, S. destruct (previousFrame st).
  - destruct V as (_ & _ & V). lia.
  - destruct V as [Ew _]. rewrite Ew in Cn. simpl in Cn. lia.
Qed.

(** X6.  A completed repair whose timestamps stay within 2^53 returns the
    least recovered timestamp as the start timestamp, writes one frame for
    every timestamp from the least to the greatest recovered one, so at
    least one, and counts as duplicates all frames written beyond one per
    recovered timestamp. *)
Theorem X6_repair_counts (file : list byte) (r : Recognizer) (out : RepairedStream) :
  fixIvfFrames file r = Ok out ->
  repaired_startPts out + repaired_writtenFrames out <= 2 ^ 53 ->
  exists info,
    parseIvf file true r = Ok info /\
    repaired_name out = displayName r /\
    repaired_startPts out = hd 0 (ptsIndex info) /\
    repaired_writtenFrames out = last (ptsIndex info) 0 - hd 0 (ptsIndex info) + 1 /\
    repaired_writtenFrames out
    = repaired_duplicatedFrames out + Z.of_nat (length (ptsIndex info)) /\
    1 <= repaired_writtenFrames out.
Proof. apply repair_counts. Qed.

Lemma X6_witness :
  exists info,
    parseIvf example_file true example_recognizer = Ok info /\
    repaired_name example_repaired = displayName example_recognizer /\
    repaired_startPts example_repaired = hd 0 (ptsIndex info) /\
    repaired_writtenFrames example_repaired
    = last (ptsIndex info) 0 - hd 0 (ptsIndex info) + 1 /\
    repaired_writtenFrames example_repaired
    = repaired_duplicatedFrames example_repaired + Z.of_nat (length (ptsIndex info)) /\
    1 <= repaired_writtenFrames example_repaired.
Proof.
  apply (X6_repair_counts example_file example_recognizer example_repaired).
  - vm_compute. reflexivity.
  - vm_compute. discriminate.
Defined.

(** ** Parsing a repaired file again *)

Lemma parseIvf_header_fields (file : list byte) (b : bool) (r : Recognizer)
    (info : IvfInfo) :
  parseIvf file b r = Ok info ->
  width info = getUint16 (pread file 0 32) 12 /\
  height info = getUint16 (pread file 0 32) 14 /\
  frameRate info
  = js_div (number_of (getUint32 (pread file 0 32) 16))
      (number_of (getUint32 (pread file 0 32) 20)).
Proof.
  unfold parseIvf. destruct (negb _); [discriminate|].
  destruct (parse_frames file); [|discriminate]. intros [= <-]. cbn. auto.
Qed.

Lemma slice_app_l (off len : nat) (a b : list byte) :
  (off + len <= length a)%nat -> slice off len (a ++ b) = slice off len a.
Proof.
  intros H. unfold slice. rewrite skipn_app, firstn_app, length_skipn.
  replace (len - (length a - off))%nat with 0%nat by lia.
  cbn [firstn]. apply app_nil_r.
Qed.

Lemma slice_setUint32_low (off len : nat) (buf : list byte) (z : Z) :
  (off + len <= 24)%nat -> (28 <= length buf)%nat ->
  slice off len (setUint32 buf 24 z) = slice off len buf.
Proof.
  intros H L. rewrite setUint32_shape.
  rewrite slice_app_l by (rewrite length_firstn; lia).
  now apply slice_firstn.
Qed.

Lemma pread_header (hdr rest : list byte) :
  length hdr = 32%nat -> pread (hdr ++ rest) 0 32 = hdr.
Proof.
  intros L. unfold pread. change (Z.to_nat 0) with 0%nat. cbn [skipn].
  now apply firstn_app_exact.
Qed.

Lemma read_header (file : list byte) :
  length (pread file 0 32) = 32%nat -> read_into_fresh file 0 32 = pread file 0 32.
Proof.
  intros L. unfold read_into_fresh. rewrite L, Nat.sub_diag. cbn. apply app_nil_r.
Qed.

(** The bytes of a header that the rewrite of the count leaves alone. *)
Lemma setUint32_outside (buf : list byte) (z : Z) :
  (28 <= length buf)%nat ->
  firstn 24 (setUint32 buf 24 z) = firstn 24 buf /\
  skipn 28 (setUint32 buf 24 z) = skipn 28 buf.
Proof.
  intros L. rewrite setUint32_shape.
  assert (L1 : length (firstn 24 buf) = 24%nat) by (rewrite length_firstn; lia).
  split.
  - rewrite firstn_app, L1, Nat.sub_diag, firstn_O, app_nil_r.
    apply firstn_all2. lia.
  - rewrite skipn_app, L1. rewrite (skipn_all2 (n := 28)) by lia. cbn [app].
    change (28 - 24)%nat with 4%nat.
    rewrite skipn_app, le_encode_length, Nat.sub_diag.
    rewrite (skipn_all2 (n := 4)) by (rewrite le_encode_length; lia). reflexivity.
Qed.

(** The finished file of a completed repair. *)
Lemma repaired_file_shape (file : list byte) (r : Recognizer) (out : RepairedStream) :
  fixIvfFrames file r = Ok out ->
  exists info st,
    parseIvf file true r = Ok info /\
    writer_shape st /\
    repaired_startPts out = startPts st /\
    repaired_writtenFrames out = writtenFrames st /\
    file_of_writes (repaired_writes out)
    = setUint32 (pread file 0 32) 24 (writtenFrames st) ++ concat (map bytes (writes st)) /\
    length (pread file 0 32) = 32%nat.
Proof.
  intros H.
  destruct (fixIvfFrames_run file r out H) as (info & st & P & _ & I & _ & W & S & N & _).
  destruct (parseIvf_inv _ _ _ _ P) as (_ & _ & L & _).
  exists info, st. split; [exact P|]. split; [exact I|]. split; [exact S|].
  split; [exact N|]. split; [|exact L].
  rewrite W, read_header by exact L.
  apply (file_of_writes_final _ (out_position st)); [apply I|].
  rewrite setUint32_length; lia.
Qed.

(** X7.  A repaired file parses, and its header is the header of the source
    with another frame count: the bytes before offset 24 and from offset 28
    on are those of the source, the count field holds the number of frames
    written modulo [2^32], and the width, the height and the frame rate
    that [parseIvf] reads from it are those it read from the source. *)
Theorem X7_repair_keeps_geometry (file : list byte) (r r' : Recognizer)
    (out : RepairedStream) :
  fixIvfFrames file r = Ok out ->
  exists info info',
    parseIvf file true r = Ok info /\
    parseIvf (file_of_writes (repaired_writes out)) false r' = Ok info' /\
    width info' = width info /\
    height info' = height info /\
    frameRate info' = frameRate info /\
    firstn 24 (pread (file_of_writes (repaired_writes out)) 0 32)
    = firstn 24 (pread file 0 32) /\
    skipn 28 (pread (file_of_writes (repaired_writes out)) 0 32)
    = skipn 28 (pread file 0 32) /\
    getUint32 (pread (file_of_writes (repaired_writes out)) 0 32) 24
    = repaired_writtenFrames out mod 2 ^ 32.
Proof.
  intros H.
  destruct (repaired_file_shape file r out H) as (info & st & P & I & _ & N & E & L).
  destruct (parseIvf_total (file_of_writes (repaired_writes out)) false r') as [info' P'].
  { rewrite E, length_app, setUint32_length; lia. }
  exists info, info'. split; [exact P|]. split; [exact P'|].
  destruct (parseIvf_header_fields _ _ _ _ P) as (W & Hh & R).
  destruct (parseIvf_header_fields _ _ _ _ P') as (W' & Hh' & R').
  rewrite E, pread_header in W', Hh', R' by (rewrite setUint32_length; lia).
  rewrite E, pread_header by (rewrite setUint32_length; lia).
  destruct (setUint32_outside (pread file 0 32) (writtenFrames st)) as [F24 S28]; [lia|].
  split; [|split; [|split; [|split; [exact F24 | split; [exact S28|]]]]].
  - rewrite W', W. unfold getUint16. now rewrite slice_setUint32_low by lia.
  - rewrite Hh', Hh. unfold getUint16. now rewrite slice_setUint32_low by lia.
  - rewrite R', R. unfold getUint32. now rewrite !slice_setUint32_low by lia.
  - rewrite <- (app_nil_r (setUint32 _ 24 _)), get_setUint32 by lia. now rewrite N.
Qed.

Lemma X7_witness :
  exists info info',
    parseIvf example_file true example_recognizer = Ok info /\
    parseIvf (file_of_writes (repaired_writes example_repaired)) false example_recognizer
    = Ok info' /\
    width info' = width info /\
    height info' = height info /\
    frameRate info' = frameRate info /\
    firstn 24 (pread (file_of_writes (repaired_writes example_repaired)) 0 32)
    = firstn 24 (pread example_file 0 32) /\
    skipn 28 (pread (file_of_writes (repaired_writes example_repaired)) 0 32)
    = skipn 28 (pread example_file 0 32) /\
    getUint32 (pread (file_of_writes (repaired_writes example_repaired)) 0 32) 24
    = repaired_writtenFrames example_repaired mod 2 ^ 32.
Proof.
  apply (X7_repair_keeps_geometry example_file example_recognizer example_recognizer
           example_repaired).
  vm_compute. reflexivity.
Defined.

Lemma zseq_sorted (n : nat) : forall a, StronglySorted Z.lt (zseq a n).
Proof.
  induction n as [|n IH]; intros a; cbn [zseq]; constructor; [apply IH|].
  rewrite Forall_forall. intros k Hk. apply zseq_In in Hk. lia.
Qed.

Lemma zseq_hd (n : nat) (a : Z) : (0 < n)%nat -> hd 0 (zseq a n) = a.
Proof. destruct n; [lia | reflexivity]. Qed.

Lemma reparse_index (file : list byte) (r r' : Recognizer) (out : RepairedStream) :
  fixIvfFrames file r = Ok out ->
  repaired_startPts out + repaired_writtenFrames out <= 2 ^ 53 ->
  exists info',
    parseIvf (file_of_writes (repaired_writes out)) false r' = Ok info' /\
    ptsIndex info'
    = zseq (repaired_startPts out) (Z.to_nat (repaired_writtenFrames out)) /\
    hd 0 (ptsIndex info') = repaired_startPts out.
Proof.
  intros H B.
  destruct (fixIvfFrames_inv file r out H B) as (info & st & _ & _ & I & W & S & N & _).
  set (hdr := setUint32 (read_into_fresh file 0 32) 24 (writtenFrames st)) in *.
  assert (Lh : length hdr = 32%nat).
  { unfold hdr. rewrite setUint32_length; rewrite read_into_fresh_length; lia. }
  assert (E : file_of_writes (repaired_writes out) = hdr ++ concat (map bytes (writes st))).
  { rewrite W. apply (file_of_writes_final _ (out_position st)); [apply I | exact Lh]. }
  assert (F : Forall frame_ok (map bytes (writes st))).
  { apply Forall_map. eapply Forall_impl; [|apply (inv_frames st I)]. now intros w [Fw _]. }
  destruct (parseIvf_total (file_of_writes (repaired_writes out)) false r') as [info' P'].
  { rewrite E, length_app, Lh. lia. }
  exists info'. split; [exact P'|].
  destruct (parseIvf_inv _ _ _ _ P') as (ps & Pf & _ & Fr & Ix).
  rewrite E, (parse_frames_wellformed hdr _ Lh F) in Pf. injection Pf as <-.
  pose proof (inv_count st I) as Cn. pose proof (inv_prev st I) as Hv.
  assert (K : map_keys (frames info') = zseq (startPts st) (length (writes st))).
  { assert (Ek : map frame_pts (map bytes (writes st))
                  = zseq (startPts st) (length (writes st))).
    { rewrite map_map.
      change (map (fun w => frame_pts (bytes w)) (writes st))
        with (map (fun w => to_double (embedded_pts w)) (writes st)).
      rewrite <- (map_map embedded_pts to_double).
      rewrite writer_inv_range by (exact I || (rewrite <- S, <- N; lia)).
      destruct (previousFrame st).
      - apply to_double_zseq; [lia|]. rewrite <- Cn, <- S, <- N. lia.
      - destruct Hv as [-> _]. reflexivity. }
    rewrite Fr, record_frames_distinct; cbn [loop_frames map_keys map app]; rewrite Ek.
    - reflexivity.
    - apply zseq_NoDup. }
  assert (Ez : ptsIndex info' = zseq (startPts st) (length (writes st))).
  { symmetry. apply StronglySorted_lt_unique.
    - apply zseq_sorted.
    - rewrite Ix, K. apply sort_ascending_lt, zseq_NoDup.
    - intros k. now rewrite Ix, sort_ascending_In, K. }
  destruct (repair_returns file r out H) as (_ & _ & _ & _ & _ & _ & _ & G).
  rewrite S, N, Cn, Nat2Z.id. split; [exact Ez|].
  rewrite Ez. apply zseq_hd. lia.
Qed.

(** X8.  The ordered timestamps that a plain parse of a repaired file
    returns are the run from the start timestamp on, one per frame written;
    the first of them, which the scoring step subtracts to align two
    streams, is the start timestamp the repair returned.  For timestamps
    within 2^53. *)
Theorem X8_reparse_index (file : list byte) (r r' : Recognizer) (out : RepairedStream) :
  fixIvfFrames file r = Ok out ->
  repaired_startPts out + repaired_writtenFrames out <= 2 ^ 53 ->
  exists info',
    parseIvf (file_of_writes (repaired_writes out)) false r' = Ok info' /\
    ptsIndex info'
    = zseq (repaired_startPts out) (Z.to_nat (repaired_writtenFrames out)) /\
    hd 0 (ptsIndex info') = repaired_startPts out.
Proof. apply reparse_index. Qed.

Lemma X8_witness :
  exists info',
    parseIvf (file_of_writes (repaired_writes example_repaired)) false example_recognizer
    = Ok info' /\
    ptsIndex info'
    = zseq (repaired_startPts example_repaired)
        (Z.to_nat (repaired_writtenFrames example_repaired)) /\
    hd 0 (ptsIndex info') = repaired_startPts example_repaired.
Proof.
  apply (X8_reparse_index example_file example_recognizer example_recognizer
           example_repaired).
  - vm_compute. reflexivity.
  - vm_compute. discriminate.
Defined.

(** ** When a repair fails *)

Lemma is_empty_string_iff (s : string) : is_empty_string s = true <-> s = EmptyString.
Proof. destruct s; simpl; split; congruence. Qed.

Lemma parseIvf_name (file : list byte) (r : Recognizer) (info : IvfInfo) :
  parseIvf file true r = Ok info -> participantDisplayName info = displayName r.
Proof.
  unfold parseIvf. destruct (negb _); [discriminate|].
  destruct (parse_frames file); [|discriminate]. now intros [= <-].
Qed.

Lemma round_positive_nonneg (n d : Z) :
  0 < n -> 0 < d -> nonneg_number (round_positive n d).
Proof.
  intros Hn Hd. unfold round_positive.
  set (x := Z.max (log2_ratio n d - 52) (-1074)).
  destruct (0 <=? x) eqn:Ex.
  - apply Z.leb_le in Ex.
    assert (P2 : 0 < 2 ^ x) by (apply Z.pow_pos_nonneg; lia).
    pose proof (round_half_even_bounds n (d * 2 ^ x) ltac:(nia)) as [Lo _].
    pose proof (Z.div_pos n (d * 2 ^ x) ltac:(lia) ltac:(nia)) as Dp.
    destruct (infinity <=? _); [exact I|].
    cbn [nonneg_number]. rewrite Qred_correct. unfold Qle. cbn [Qnum Qden]. nia.
  - apply Z.leb_gt in Ex.
    assert (P2 : 0 < 2 ^ (- x)) by (apply Z.pow_pos_nonneg; lia).
    pose proof (round_half_even_bounds (n * 2 ^ (- x)) d Hd) as [Lo _].
    pose proof (Z.div_pos (n * 2 ^ (- x)) d ltac:(nia) Hd) as Dp.
    cbn [nonneg_number]. rewrite Qred_correct. unfold Qle. cbn [Qnum Qden]. nia.
Qed.

Lemma round_double_nonneg (q : Q) : (0 <= q)%Q -> nonneg_number (round_double q).
Proof.
  destruct q as [n d]. unfold Qle, round_double. cbn [Qnum Qden].
  destruct n as [|n|n]; intros H.
  - cbn. unfold Qle. cbn. lia.
  - apply round_positive_nonneg; lia.
  - lia.
Qed.

Lemma number_of_nonneg (z : Z) : 0 <= z -> nonneg_number (number_of z).
Proof.
  intros H. unfold number_of, is_infinite.
  destruct (Z.leb_spec infinity (Z.abs z)) as [L|L].
  - pose proof infinity_large. pose proof (Z.pow_pos_nonneg 2 64 ltac:(lia) ltac:(lia)).
    destruct z; try lia. exact I.
  - cbn. unfold Qle, inject_Z. cbn. lia.
Qed.

Lemma signed_infinity_nonneg (s : Z) : 0 <= s -> nonneg_number (signed_infinity s).
Proof. destruct s; intros H; try exact I. lia. Qed.

Lemma js_sign_nonneg (n : number) : nonneg_number n -> 0 <= js_sign n.
Proof.
  destruct n as [[a d]| | |]; cbn; unfold Qle; cbn; try lia; try contradiction.
Qed.

Lemma js_div_nonneg (a b : number) :
  nonneg_number a -> nonneg_number b -> nonneg_number (js_div a b).
Proof.
  intros A B. pose proof (js_sign_nonneg a A) as Sa. pose proof (js_sign_nonneg b B) as Sb.
  destruct a as [p| | |], b as [q| | |]; cbn [js_div]; try exact I; try contradiction.
  - destruct (Qeq_bool q 0) eqn:E; [now apply signed_infinity_nonneg|].
    apply round_double_nonneg. apply Qeq_bool_neq in E.
    cbn in A, B. unfold Qdiv. apply Qmult_le_0_compat; [exact A|].
    apply Qinv_le_0_compat. exact B.
  - cbn. unfold Qle. cbn. lia.
  - apply signed_infinity_nonneg. destruct (Qeq_bool q 0); nia.
Qed.

Lemma js_mul_nonneg (a b : number) :
  nonneg_number a -> nonneg_number b -> nonneg_number (js_mul a b).
Proof.
  intros A B. pose proof (js_sign_nonneg a A) as Sa. pose proof (js_sign_nonneg b B) as Sb.
  destruct a as [p| | |], b as [q| | |]; cbn [js_mul]; try exact I; try contradiction;
    try (apply signed_infinity_nonneg; nia).
  apply round_double_nonneg. now apply Qmult_le_0_compat.
Qed.

Lemma js_gt_nonneg (a : Z) (b : number) :
  nonneg_number b -> js_gt a b = true -> 0 < a.
Proof.
  destruct b as [q| | |]; cbn [js_gt nonneg_number]; try discriminate; try contradiction.
  intros Q. destruct (is_infinite a); [apply Z.ltb_lt|].
  rewrite negb_true_iff. intros E.
  destruct (Z.lt_ge_cases 0 a) as [|Le]; [assumption|]. exfalso.
  assert (X : Qle_bool (inject_Z a) q = true).
  { apply Qle_bool_iff. apply Qle_trans with 0%Q; [|exact Q].
    unfold Qle, inject_Z. cbn. lia. }
  congruence.
Qed.

(** Only a gap of at least one frame exceeds the bound. *)
Lemma parseIvf_rate_nonneg (file : list byte) (b : bool) (r : Recognizer) (info : IvfInfo) :
  parseIvf file b r = Ok info ->
  forall m, exceeds_one_hour m (frameRate info) = true -> 0 < m.
Proof.
  intros H m. destruct (parseIvf_header_fields _ _ _ _ H) as (_ & _ & ->).
  apply js_gt_nonneg. unfold one_hour.
  assert (N60 : nonneg_number (Finite 60)) by (cbn; unfold Qle; cbn; lia).
  apply js_mul_nonneg; [apply js_mul_nonneg|]; try exact N60.
  apply js_div_nonneg; apply number_of_nonneg; apply le_decode_nonneg.
Qed.

(** A pass through the loop body throws the gap error for the gap before
    the timestamp at hand, unless a timestamp is past 2^53. *)
Lemma repair_step_throws (file : list byte) (info : IvfInfo) (st : RepairState)
    (pts : Z) (e : Error) :
  repair_step file info st pts = Throw e ->
  map_get (frames info) pts <> None /\
  ((e = TooManyFramesMissing (missing_before pts (previousPts st)) /\
    previousFrame st <> None /\
    exceeds_one_hour (missing_before pts (previousPts st)) (frameRate info) = true) \/
   ((e = OutOfFuel \/ e = RangeError) /\
    ~ (0 < pts <= 2 ^ 53 /\ -1 <= previousPts st < pts))).
Proof.
  intros E. split.
  { unfold repair_step in E. destruct (map_get (frames info) pts); discriminate. }
  destruct (exceeds_one_hour (missing_before pts (previousPts st)) (frameRate info)) eqn:X.
  - unfold repair_step, close_gap in E.
    destruct (map_get (frames info) pts); [|discriminate].
    destruct (previousFrame st) as [buf|].
    + destruct ((previousPts st >=? 0) && (missing_before pts (previousPts st) >? 0)).
      * rewrite X in E. injection E as <-. left. split; [reflexivity|].
        split; [discriminate | reflexivity].
      * right. unfold emit_frame in E. destruct (is_infinite pts) eqn:Ei; [|discriminate].
        injection E as <-. split; [now right|]. intros [[P0 P1] _].
        rewrite is_infinite_false in Ei by lia. discriminate.
    + right. unfold emit_frame in E. destruct (is_infinite pts) eqn:Ei; [|discriminate].
      injection E as <-. split; [now right|]. intros [[P0 P1] _].
      rewrite is_infinite_false in Ei by lia. discriminate.
  - right.
    assert (R : ~ (0 < pts <= 2 ^ 53 /\ -1 <= previousPts st < pts)).
    { intros [T P]. destruct (repair_step_ok file info st pts T P) as [st' E'].
      - right. rewrite missing_before_exact in X by lia. exact X.
      - congruence. }
    split; [|exact R].
    unfold repair_step, close_gap in E.
    destruct (map_get (frames info) pts); [|discriminate].
    assert (Em : forall s, emit_frame file i pts s = Throw e -> e = RangeError).
    { intros s. unfold emit_frame. destruct (is_infinite pts); [|discriminate].
      now intros [= <-]. }
    destruct (previousFrame st) as [buf|]; [|right; eapply Em; eauto].
    destruct ((previousPts st >=? 0) && (missing_before pts (previousPts st) >? 0));
      [|right; eapply Em; eauto].
    rewrite X in E.
    destruct (fill_gap _ pts buf st) as [s1|e1] eqn:Fg; [right; eapply Em; eauto|].
    injection E as <-. clear - Fg. revert Fg.
    generalize (Z.to_nat (missing_before pts (previousPts st))). intros fuel. revert buf st.
    induction fuel as [|fuel IH]; intros buf st; cbn [fill_gap];
      destruct (js_minus (js_minus pts (previousPts st)) 1 >? 0); try discriminate.
    + intros [= <-]. now left.
    + destruct (is_infinite _); [intros [= <-]; now right | apply IH].
Qed.

Lemma repair_step_previous (file : list byte) (info : IvfInfo) (st st' : RepairState)
    (pts : Z) :
  repair_step file info st pts = Ok st' ->
  map_get (frames info) pts <> None ->
  previousPts st' = pts /\ previousFrame st' <> None.
Proof.
  intros E F.
  destruct (repair_step_cases _ _ _ _ _ E) as [[G _]|(f & st0 & _ & Em & _)];
    [contradiction|].
  unfold emit_frame in Em. destruct (is_infinite pts); [discriminate|].
  injection Em as <-. split; [reflexivity | discriminate].
Qed.

(** What the loop throws: the gap error for two neighbouring timestamps, or
    another error at a timestamp past 2^53. *)
Lemma repair_loop_throws (file : list byte) (info : IvfInfo) (todo : list Z) :
  forall st e,
    (forall p, In p todo -> map_get (frames info) p <> None) ->
    StronglySorted Z.lt todo ->
    Forall (fun p => 0 < p /\ previousPts st < p) todo ->
    -1 <= previousPts st ->
    repair_loop file info todo st = Throw e ->
    (previousFrame st <> None /\
     exists l1 a b l2,
       previousPts st :: todo = l1 ++ a :: b :: l2 /\
       e = TooManyFramesMissing (missing_before b a) /\
       exceeds_one_hour (missing_before b a) (frameRate info) = true) \/
    (exists l1 a b l2,
       todo = l1 ++ a :: b :: l2 /\
       e = TooManyFramesMissing (missing_before b a) /\
       exceeds_one_hour (missing_before b a) (frameRate info) = true) \/
    ((e = OutOfFuel \/ e = RangeError) /\ Exists (fun p => 2 ^ 53 < p) todo).
Proof.
  induction todo as [|pts todo IH]; intros st e F S Fa Pm L; cbn [repair_loop] in L;
    [discriminate|].
  inversion S as [|? ? S' Hall]; subst. inversion Fa as [|? ? [Hp Hlt] Fa']; subst.
  destruct (repair_step file info st pts) as [st1|e1] eqn:E.
  - destruct (repair_step_previous _ _ _ _ _ E) as [P Pf]; [apply F; now left|].
    destruct (IH st1 e) as [[_ (l1 & a & b & l2 & Eq & He & X)]|
                            [(l1 & a & b & l2 & Eq & He & X)|[He Ex]]];
      [auto using in_cons | exact S' | | lia | exact L | | |].
    + rewrite Forall_forall in *. intros p Hin. split; [apply Fa', Hin|].
      rewrite P. apply Hall, Hin.
    + right. left. exists l1, a, b, l2. rewrite P in Eq. auto.
    + right. left. exists (pts :: l1), a, b, l2. cbn [app]. now rewrite Eq.
    + right. right. split; [exact He | now apply Exists_cons_tl].
  - injection L as <-. destruct (repair_step_throws _ _ _ _ _ E) as (_ & [(-> & Pf & X)|[He R]]).
    + left. split; [exact Pf|]. exists [], (previousPts st), pts, todo. auto.
    + right. right. split; [exact He|]. apply Exists_cons_hd.
      destruct (Z.le_gt_cases pts (2 ^ 53)); [|lia]. exfalso. apply R. lia.
Qed.

Lemma repair_loop_ok_iff (file : list byte) (info : IvfInfo) (todo : list Z) :
  forall st,
    catalogue_ok file (frames info) ->
    (forall m, exceeds_one_hour m (frameRate info) = true -> 0 < m) ->
    writer_inv st ->
    previousFrame st <> None ->
    StronglySorted Z.lt todo ->
    Forall (fun p => 0 < p <= 2 ^ 53 /\ previousPts st < p) todo ->
    (forall p, In p todo -> map_get (frames info) p <> None) ->
    (exists st', repair_loop file info todo st = Ok st') <->
    gaps_within (frameRate info) (previousPts st :: todo).
Proof.
  induction todo as [|pts todo IH]; intros st C R I Pf S F Fd.
  - simpl. split; eauto.
  - inversion S as [|? ? S' Hall]; subst. inversion F as [|? ? [Hp Hlt] F']; subst.
    cbn [repair_loop]. change (gaps_within (frameRate info) (previousPts st :: pts :: todo))
      with (exceeds_one_hour (missing_before pts (previousPts st)) (frameRate info) = false /\
            gaps_within (frameRate info) (pts :: todo)).
    pose proof (inv_prev st I) as V.
    destruct (previousFrame st) as [buf|] eqn:Eb; [|congruence].
    destruct V as ((ws & w & Ew & _) & S0 & V).
    rewrite Ew, length_app in V. simpl in V.
    destruct (repair_step file info st pts) as [st1|e] eqn:E.
    + destruct (repair_step_inv file info st st1 pts C I Hp Hlt E) as (I1 & _ & _).
      destruct (repair_step_previous _ _ _ _ _ E) as [P1 Pf1]; [apply Fd; now left|].
      assert (X : exceeds_one_hour (missing_before pts (previousPts st)) (frameRate info)
                  = false).
      { destruct (exceeds_one_hour _ _) eqn:X; [|reflexivity]. exfalso.
        pose proof (R _ X) as M.
        unfold repair_step, close_gap in E.
        destruct (map_get (frames info) pts) eqn:G;
          [|apply (Fd pts); [now left | exact G]].
        rewrite Eb in E.
        destruct (Z.geb_spec (previousPts st) 0); [|lia].
        destruct (Z.gtb_spec (missing_before pts (previousPts st)) 0); [|lia].
        cbn [andb] in E. rewrite X in E. discriminate. }
      assert (F1 : Forall (fun p => 0 < p <= 2 ^ 53 /\ previousPts st1 < p) todo).
      { rewrite Forall_forall in *. intros p Hin. split; [apply F', Hin|].
        rewrite P1. apply Hall, Hin. }
      pose proof (IH st1 C R I1 Pf1 S' F1 ltac:(auto using in_cons)) as IHs.
      rewrite P1 in IHs. tauto.
    + split; [intros [st' H]; discriminate|]. intros [X' _]. exfalso.
      destruct (repair_step_ok file info st pts Hp) as [st' E']; [lia| |congruence].
      right. rewrite missing_before_exact in X' by lia. exact X'.
Qed.

Lemma repair_from_start (file : list byte) (info : IvfInfo) (r : Recognizer) :
  parseIvf file true r = Ok info ->
  Forall (fun t => t <= 2 ^ 53) (ptsIndex info) ->
  (exists st, repair_loop file info (ptsIndex info) initial_state = Ok st) <->
  gaps_within (frameRate info) (ptsIndex info).
Proof.
  intros P B. destruct (parseIvf_facts _ _ _ _ P) as (Nd & C & Ix & K).
  assert (S : StronglySorted Z.lt (ptsIndex info))
    by (rewrite Ix; now apply sort_ascending_lt).
  assert (Pos : forall p, In p (ptsIndex info) -> 0 < p).
  { intros p Hp. rewrite Ix in Hp. apply -> sort_ascending_In in Hp. now apply K. }
  assert (Fd : forall p, In p (ptsIndex info) -> map_get (frames info) p <> None).
  { intros p Hp. rewrite Ix in Hp. apply -> sort_ascending_In in Hp.
    intros G. apply map_get_None in G. contradiction. }
  destruct (ptsIndex info) as [|p0 rest]; [simpl; split; eauto|].
  inversion S as [|? ? S' Hall]; subst. inversion B as [|? ? B0 B']; subst.
  assert (A : 0 < p0 <= 2 ^ 53 /\ previousPts initial_state < p0)
    by (specialize (Pos p0 (or_introl eq_refl)); simpl; lia).
  destruct (repair_step_ok file info initial_state p0) as [st1 E1];
    [apply A | simpl; lia | now left|].
  cbn [repair_loop]. rewrite E1.
  destruct (repair_step_inv _ _ _ _ _ C writer_inv_initial (proj1 A) (proj2 A) E1)
    as (I1 & _ & _).
  destruct (repair_step_previous _ _ _ _ _ E1) as [P1 Pf1]; [apply Fd; now left|].
  rewrite <- P1.
  apply repair_loop_ok_iff; auto using in_cons.
  - eapply parseIvf_rate_nonneg; eauto.
  - rewrite Forall_forall in *. intros p Hin. split; [split; [apply Pos; now right|]|].
    + now apply B'.
    + rewrite P1. now apply Hall.
Qed.

(** X9.  Once the file has parsed with every recovered timestamp within
    2^53, the repair completes exactly when a display name was recognized,
    at least one timestamp was recovered, and no two neighbouring recovered
    timestamps leave more frames missing than the product
    [frameRate * 60 * 60] as the code computes it. *)
Theorem X9_repair_succeeds_iff (file : list byte) (r : Recognizer) (info : IvfInfo) :
  parseIvf file true r = Ok info ->
  Forall (fun t => t <= 2 ^ 53) (ptsIndex info) ->
  (exists out, fixIvfFrames file r = Ok out) <->
  displayName r <> EmptyString /\
  ptsIndex info <> [] /\
  gaps_within (frameRate info) (ptsIndex info).
Proof.
  intros P B. pose proof (parseIvf_name _ _ _ P) as Nm.
  pose proof (repair_from_start file info r P B) as G.
  unfold fixIvfFrames. rewrite P, Nm.
  destruct (is_empty_string (displayName r)) eqn:En.
  { apply is_empty_string_iff in En. split; [intros [out H]; discriminate | tauto]. }
  assert (Hn : displayName r <> EmptyString)
    by (intros E; apply is_empty_string_iff in E; congruence).
  destruct (ptsIndex info) as [|p0 rest] eqn:Ep.
  { cbn. split; [intros [out H]; discriminate | intros (_ & N & _); congruence]. }
  cbn [length Nat.eqb].
  destruct (repair_loop file info (p0 :: rest) initial_state) as [st|e].
  - split; [intros _ | eauto].
    split; [exact Hn|]. split; [discriminate|]. apply G. eauto.
  - split; [intros [out H]; discriminate|].
    intros (_ & _ & Gw). apply G in Gw. destruct Gw as [st H]. discriminate.
Qed.

Lemma X9_witness :
  ((exists out, fixIvfFrames example_file example_recognizer = Ok out) <->
   displayName example_recognizer <> EmptyString /\
   [1; 2; 4; 5] <> [] /\
   gaps_within (Finite 30) [1; 2; 4; 5]) /\
  ((exists out, fixIvfFrames ninth_file ninth_recognizer = Ok out) <->
   displayName ninth_recognizer <> EmptyString /\
   [1; 402] <> [] /\
   gaps_within (js_div (number_of 1) (number_of 9)) [1; 402]).
Proof.
  split.
  - refine (X9_repair_succeeds_iff example_file example_recognizer
           {| width := 640; height := 480; frameRate := Finite 30;
              ptsIndex := [1; 2; 4; 5];
              frames := [(1, {| index := 0; position := 32; size := 14 |});
                         (2, {| index := 1; position := 46; size := 13 |});
                         (4, {| index := 2; position := 59; size := 15 |});
                         (5, {| index := 3; position := 74; size := 12 |})];
              participantDisplayName := "Alice"%string |} _ _).
    + vm_compute. reflexivity.
    + repeat constructor; vm_compute; discriminate.
  - refine (X9_repair_succeeds_iff ninth_file ninth_recognizer
           {| width := 640; height := 480;
              frameRate := js_div (number_of 1) (number_of 9);
              ptsIndex := [1; 402];
              frames := [(1, {| index := 0; position := 32; size := 13 |});
                         (402, {| index := 1; position := 45; size := 13 |})];
              participantDisplayName := "Alice"%string |} _ _).
    + vm_compute. reflexivity.
    + repeat constructor; vm_compute; discriminate.
Defined.

(** X10.  What each failure of the repair means.  The invalid-file error: the
    file is shorter than its header.  The missing-name error: the file has a
    header and no display name was recognized, whatever the frames.  The
    no-frames error: a name was recognized and no timestamp was recovered.
    The gap error carries the number of frames the code finds missing
    between two neighbouring recovered timestamps, which exceeds the product
    [frameRate * 60 * 60] as the code computes it.  The gap loop runs
    without end, or the conversion of a timestamp to a 64-bit integer fails
    with a range error, only when a recovered timestamp is past 2^53. *)
Theorem X10_repair_failures (file : list byte) (r : Recognizer) :
  (fixIvfFrames file r = Throw InvalidIvfFile <-> (length file < 32)%nat) /\
  (fixIvfFrames file r = Throw NoParticipantName <->
   (32 <= length file)%nat /\ displayName r = EmptyString) /\
  (fixIvfFrames file r = Throw NoFramesFound <->
   displayName r <> EmptyString /\
   exists info, parseIvf file true r = Ok info /\ ptsIndex info = []) /\
  (forall m,
      fixIvfFrames file r = Throw (TooManyFramesMissing m) ->
      exists info l1 a b l2,
        parseIvf file true r = Ok info /\
        ptsIndex info = l1 ++ a :: b :: l2 /\
        m = missing_before b a /\
        exceeds_one_hour m (frameRate info) = true) /\
  (fixIvfFrames file r = Throw OutOfFuel \/ fixIvfFrames file r = Throw RangeError ->
   exists info,
     parseIvf file true r = Ok info /\ Exists (fun t => 2 ^ 53 < t) (ptsIndex info)).
Proof.
  unfold fixIvfFrames.
  destruct (parseIvf file true r) as [info|e] eqn:P.
  2:{ apply parseIvf_throws in P. destruct P as [-> L].
      split; [|split; [|split; [|split]]].
      - tauto.
      - split; [discriminate | intros [L' _]; lia].
      - split; [discriminate | intros [_ (info & H & _)]; discriminate].
      - intros m H. discriminate.
      - intros [H|H]; discriminate. }
  assert (L : (32 <= length file)%nat).
  { destruct (Nat.lt_ge_cases (length file) 32) as [Lt|]; [|assumption].
    assert (X : parseIvf file true r = Throw InvalidIvfFile).
    { unfold parseIvf.
      assert (E : length (pread file 0 32) <> 32%nat).
      { unfold pread. change (Z.to_nat 0) with 0%nat. cbn [skipn].
        rewrite length_firstn. lia. }
      apply Nat.eqb_neq in E. now rewrite E. }
    congruence. }
  rewrite (parseIvf_name _ _ _ P).
  destruct (is_empty_string (displayName r)) eqn:En.
  { apply is_empty_string_iff in En.
    split; [|split; [|split; [|split]]].
    - split; [discriminate | lia].
    - tauto.
    - split; [discriminate | intros [N _]; contradiction].
    - intros m H. discriminate.
    - intros [H|H]; discriminate. }
  assert (Hn : displayName r <> EmptyString)
    by (intros E; apply is_empty_string_iff in E; congruence).
  destruct (ptsIndex info) as [|p0 rest] eqn:Ep.
  { cbn [length Nat.eqb].
    split; [|split; [|split; [|split]]].
    - split; [discriminate | lia].
    - split; [discriminate | intros [_ N]; contradiction].
    - split; [intros _ | reflexivity]. split; [exact Hn|]. exists info. auto.
    - intros m H. discriminate.
    - intros [H|H]; discriminate. }
  cbn [length Nat.eqb].
  destruct (parseIvf_facts _ _ _ _ P) as (Nd & _ & Ix & K). rewrite Ep in Ix.
  assert (Fd : forall p, In p (p0 :: rest) -> map_get (frames info) p <> None).
  { intros p Hp. rewrite Ix in Hp. apply -> sort_ascending_In in Hp.
    intros G. apply map_get_None in G. contradiction. }
  assert (S : StronglySorted Z.lt (p0 :: rest))
    by (rewrite Ix; now apply sort_ascending_lt).
  assert (Pos : Forall (fun p => 0 < p /\ previousPts initial_state < p) (p0 :: rest)).
  { rewrite Forall_forall. intros p Hp. rewrite Ix in Hp.
    apply -> sort_ascending_In in Hp. specialize (K eq_refl p Hp). simpl. lia. }
  destruct (repair_loop file info (p0 :: rest) initial_state) as [st|e] eqn:Lp.
  { split; [|split; [|split; [|split]]].
    - split; [discriminate | lia].
    - split; [discriminate | intros [_ N]; contradiction].
    - split; [discriminate | intros [_ (info' & [= <-] & E0)]; congruence].
    - intros m H. discriminate.
    - intros [H|H]; discriminate. }
  destruct (repair_loop_throws file info (p0 :: rest) initial_state e Fd S Pos
              ltac:(simpl; lia) Lp)
    as [[Pf _]|[(l1 & a & b & l2 & Eq & -> & X)|[He Ex]]].
  - exfalso. now apply Pf.
  - split; [|split; [|split; [|split]]].
    + split; [discriminate | lia].
    + split; [discriminate | intros [_ N]; contradiction].
    + split; [discriminate | intros [_ (info' & [= <-] & E0)]; congruence].
    + intros m [= <-]. exists info, l1, a, b, l2. rewrite Ep. auto.
    + intros [H|H]; discriminate.
  - split; [|split; [|split; [|split]]].
    + split; [destruct He as [-> | ->]; discriminate | lia].
    + split; [destruct He as [-> | ->]; discriminate | intros [_ N]; contradiction].
    + split; [destruct He as [-> | ->]; discriminate
             | intros [_ (info' & [= <-] & E0)]; congruence].
    + intros m H. destruct He as [-> | ->]; discriminate.
    + intros _. exists info. rewrite Ep. auto.
Qed.

Lemma X10_witness :
  fixIvfFrames [] example_recognizer = Throw InvalidIvfFile /\
  exists info l1 a b l2,
    parseIvf ninth_file true ninth_recognizer = Ok info /\
    ptsIndex info = l1 ++ a :: b :: l2 /\
    400 = missing_before b a /\
    exceeds_one_hour 400 (frameRate info) = true.
Proof.
  split.
  - apply (proj1 (X10_repair_failures [] example_recognizer)). simpl. lia.
  - apply (proj1 (proj2 (proj2 (proj2 (X10_repair_failures ninth_file ninth_recognizer))))).
    vm_compute. reflexivity.
Defined.

(** ** More on the reconciliation pass *)

Lemma reconcile_step_keeps (ks : list Z) (m : Map Z) (i : nat) (pts k : Z) :
  truthy (map_get m k) = true ->
  map_get (reconcile_step ks m i pts) k = map_get m k.
Proof.
  intros T. destruct (Z.eq_dec k pts) as [->|N].
  - now rewrite reconcile_step_recognized.
  - now apply reconcile_step_other.
Qed.

Lemma reconcile_loop_keeps (ks rest : list Z) (k : Z) :
  forall i m,
    truthy (map_get m k) = true ->
    map_get (reconcile_loop ks i rest m) k = map_get m k.
Proof.
  induction rest as [|pts rest IH]; intros i m T; cbn [reconcile_loop]; [reflexivity|].
  rewrite IH; rewrite reconcile_step_keeps by exact T; [reflexivity | exact T].
Qed.

Lemma reconcile_step_keys (ks : list Z) (m : Map Z) (i : nat) (pts k : Z) :
  In k (map_keys (reconcile_step ks m i pts)) -> In k (map_keys m) \/ k = pts.
Proof.
  unfold reconcile_step.
  destruct (negb (truthy (map_get m pts)) && negb (i =? 0)%nat); [|auto].
  destruct (map_get m (nth (i - 1) ks 0)) as [prev|].
  - destruct (negb (prev =? 0)).
    + now rewrite map_keys_set_In.
    + intros H. left. eapply map_keys_delete_incl; eauto.
  - intros H. left. eapply map_keys_delete_incl; eauto.
Qed.

Lemma reconcile_loop_keys (ks rest : list Z) (k : Z) :
  forall i m,
    In k (map_keys (reconcile_loop ks i rest m)) -> In k (map_keys m) \/ In k rest.
Proof.
  induction rest as [|pts rest IH]; intros i m H; cbn [reconcile_loop] in H; [auto|].
  apply IH in H. destruct H as [H|H]; [|right; now right].
  apply reconcile_step_keys in H. destruct H as [H| ->]; [auto | right; now left].
Qed.

Lemma reconcile_keys_incl (m : Map Z) (k : Z) :
  In k (map_keys (reconcile m)) -> In k (map_keys m).
Proof.
  unfold reconcile. intros H. apply reconcile_loop_keys in H.
  destruct H as [H|H]; [exact H|]. now apply -> sort_ascending_In in H.
Qed.

(** X11.  The reconciliation pass never changes a recognized value and
    never adds a key. *)
Theorem X11_reconcile_conservative (m : Map Z) (k : Z) :
  (truthy (map_get m k) = true -> map_get (reconcile m) k = map_get m k) /\
  (In k (map_keys (reconcile m)) -> In k (map_keys m)).
Proof.
  split.
  - unfold reconcile. apply reconcile_loop_keeps.
  - apply reconcile_keys_incl.
Qed.

Lemma X11_witness :
  map_get (reconcile scenario_recognized) 13 = map_get scenario_recognized 13 /\
  (In 11 (map_keys (reconcile scenario_recognized)) -> In 11 (map_keys scenario_recognized)).
Proof.
  split.
  - apply (proj1 (X11_reconcile_conservative scenario_recognized 13)). reflexivity.
  - apply (proj2 (X11_reconcile_conservative scenario_recognized 11)).
Defined.

Lemma all_zero_get (m : Map Z) (k v : Z) :
  Forall (fun kv => snd kv = 0) m -> map_get m k = Some v -> v = 0.
Proof.
  intros F G. apply map_get_In in G. rewrite Forall_forall in F. apply (F _ G).
Qed.

Lemma reconcile_loop_all_zero (ks rest : list Z) :
  forall i m,
    Forall (fun kv => snd kv = 0) m ->
    Forall (fun kv => snd kv = 0) (reconcile_loop ks i rest m).
Proof.
  induction rest as [|pts rest IH]; intros i m F; cbn [reconcile_loop]; [exact F|].
  apply IH. unfold reconcile_step.
  destruct (negb (truthy (map_get m pts)) && negb (i =? 0)%nat); [|exact F].
  destruct (map_get m (nth (i - 1) ks 0)) as [prev|] eqn:G;
    [|now apply map_delete_Forall].
  rewrite (all_zero_get m _ _ F G). cbn. now apply map_delete_Forall.
Qed.

Lemma recognize_all_all_zero (r : Recognizer) (keys : list Z) :
  (forall pts, stored r pts = None \/ stored r pts = Some 0%N) ->
  Forall (fun kv => snd kv = 0) (recognize_all r keys).
Proof.
  intros H. unfold recognize_all.
  assert (G : forall acc, Forall (fun kv : Z * Z => snd kv = 0) acc ->
            Forall (fun kv : Z * Z => snd kv = 0)
              (fold_left
                 (fun m pts => match stored r pts with
                               | Some v => map_set m pts (Z.of_N v)
                               | None => m
                               end) keys acc)).
  { induction keys as [|k keys IH]; intros acc F; cbn [fold_left]; [exact F|].
    apply IH. destruct (H k) as [-> | ->]; [exact F|].
    apply map_set_Forall; [exact F | reflexivity]. }
  apply G. constructor.
Qed.

Lemma rekey_all_zero (frames : Map IvfFrame) (m : Map Z) :
  Forall (fun kv => snd kv = 0) m -> rekey frames m = [].
Proof.
  intros F. unfold rekey.
  assert (G : forall acc, fold_left (rekey_step m) frames acc = acc).
  { induction frames as [|e frames IH]; intros acc; cbn [fold_left]; [reflexivity|].
    rewrite IH. unfold rekey_step. destruct (map_get m (fst e)) as [v|] eqn:E; [|reflexivity].
    now rewrite (all_zero_get m _ _ F E). }
  apply G.
Qed.

(** X12.  When no frame of a file is recognized, recovery leaves an empty
    catalogue and the repair fails: for want of a display name if none was
    recognized, else for want of frames. *)
Theorem X12_nothing_recognized (file : list byte) (r : Recognizer) :
  (32 <= length file)%nat ->
  (forall pts, stored r pts = None \/ stored r pts = Some 0%N) ->
  exists info,
    parseIvf file true r = Ok info /\
    frames info = [] /\
    ptsIndex info = [] /\
    fixIvfFrames file r
    = Throw (if is_empty_string (displayName r) then NoParticipantName else NoFramesFound).
Proof.
  intros L H. destruct (parseIvf_total file true r L) as [info P].
  exists info. split; [exact P|].
  destruct (parseIvf_inv _ _ _ _ P) as (st & _ & _ & Fr & Ix).
  assert (E : frames info = []).
  { rewrite Fr. unfold recover. apply rekey_all_zero.
    unfold reconcile. apply reconcile_loop_all_zero. now apply recognize_all_all_zero. }
  assert (Ei : ptsIndex info = []) by (rewrite Ix, E; reflexivity).
  split; [exact E|]. split; [exact Ei|].
  unfold fixIvfFrames. rewrite P, (parseIvf_name _ _ _ P), Ei.
  now destruct (is_empty_string (displayName r)).
Qed.

Lemma X12_witness :
  exists info,
    parseIvf example_file true (recognizer_from_ocr (Finite 30) [] "Alice"%string) = Ok info /\
    frames info = [] /\
    ptsIndex info = [] /\
    fixIvfFrames example_file (recognizer_from_ocr (Finite 30) [] "Alice"%string)
    = Throw (if is_empty_string (displayName (recognizer_from_ocr (Finite 30) [] "Alice"%string))
             then NoParticipantName else NoFramesFound).
Proof.
  apply (X12_nothing_recognized example_file (recognizer_from_ocr (Finite 30) [] "Alice"%string)).
  - apply Nat.leb_le. vm_compute. reflexivity.
  - intros pts. now left.
Defined.


(** After a recognized key, a run of unrecognized keys is filled in line
    with it, as long as the sums stay within 2^53. *)
Lemma reconcile_run (m : Map Z) (pre : list Z) (a v : Z) (mid : list Z) :
  NoDup (map_keys m) ->
  map_get m a = Some v -> 0 < v -> 0 <= a ->
  (forall k, In k mid -> truthy (map_get m k) = false) ->
  (forall k, In k mid -> v + 2 * k <= 2 ^ 53) ->
  forall post,
    sort_ascending (map_keys m) = pre ++ a :: mid ++ post ->
    forall k, In k mid -> map_get (reconcile m) k = Some (v + (k - a)).
Proof.
  intros N Ga Pv Pa. induction mid as [|x mid IH] using rev_ind; intros U B post E k Hk;
    [contradiction|].
  rewrite <- app_assoc in E. cbn [app] in E.
  assert (S : StronglySorted Z.lt (pre ++ a :: mid ++ x :: post))
    by (rewrite <- E; now apply sort_ascending_lt).
  assert (Ka : map_get (reconcile m) a = Some v).
  { unfold reconcile. rewrite reconcile_loop_keeps; [exact Ga|].
    rewrite Ga. cbn. destruct (Z.eqb_spec v 0); [lia | reflexivity]. }
  assert (U' : forall k, In k mid -> truthy (map_get m k) = false)
    by (intros j Hj; apply U, in_or_app; now left).
  assert (B' : forall k, In k mid -> v + 2 * k <= 2 ^ 53)
    by (intros j Hj; apply B, in_or_app; now left).
  apply in_app_or in Hk. destruct Hk as [Hk|[<-|[]]].
  - now apply (IH U' B' (x :: post) E).
  - assert (E' : sort_ascending (map_keys m) = (pre ++ a :: mid) ++ x :: post)
      by (rewrite E, <- app_assoc; reflexivity).
    rewrite (reconcile_entry m (pre ++ a :: mid) post x N E')
      by (try (now destruct pre); apply U, in_or_app; right; now left).
    destruct (exists_last (l := a :: mid) ltac:(discriminate)) as (l0 & y & El).
    assert (Ly : last (pre ++ a :: mid) 0 = y)
      by (rewrite El, app_assoc; apply last_last).
    rewrite Ly.
    assert (Gy : map_get (reconcile m) y = Some (v + (y - a)) /\ a <= y).
    { destruct l0 as [|a0 l0]; cbn [app] in El; injection El as E1 E2.
      - subst y. split; [rewrite Ka; f_equal; lia | lia].
      - subst a0. assert (Hy : In y mid) by (rewrite E2; apply in_or_app; right; now left).
        split; [now apply (IH U' B' (x :: post) E)|].
        pose proof (sorted_app_lt pre (mid ++ x :: post) a S y
                      (in_or_app _ _ _ (or_introl Hy))). lia. }
    destruct Gy as [Gy Hay]. rewrite Gy.
    assert (Hyx : y < x).
    { rewrite <- Ly. apply (sorted_last_lt _ post x); [|now destruct pre].
      rewrite <- E'. now apply sort_ascending_lt. }
    pose proof (B x ltac:(apply in_or_app; right; now left)) as Bx.
    pose proof (Z.pow_pos_nonneg 2 53 ltac:(lia) ltac:(lia)) as P53.
    assert (P64 : 2 ^ 64 = 2048 * 2 ^ 53) by reflexivity.
    destruct (Z.eqb_spec (v + (y - a)) 0); [lia|]. cbn [negb]. f_equal.
    unfold js_minus. rewrite (js_plus_exact (v + (y - a)) x) by lia.
    rewrite js_plus_exact by lia. lia.
Qed.

(** X13.  Forward fill.  In the sorted keys, the unrecognized keys that
    follow a recognized key [a] with value [v], up to the next recognized
    key, all end with [v] plus their distance from [a], where [v] plus twice
    the key stays within 2^53. *)
Theorem X13_forward_fill (m : Map Z) (pre mid post : list Z) (a v k : Z) :
  NoDup (map_keys m) ->
  sort_ascending (map_keys m) = pre ++ a :: mid ++ post ->
  map_get m a = Some v ->
  0 < v ->
  0 <= a ->
  (forall j, In j mid -> truthy (map_get m j) = false) ->
  (forall j, In j mid -> v + 2 * j <= 2 ^ 53) ->
  In k mid ->
  map_get (reconcile m) k = Some (v + (k - a)).
Proof.
  intros N E G P A U B Hk. eapply reconcile_run; eauto.
Qed.

Lemma X13_witness :
  map_get (reconcile scenario_recognized) 12 = Some (1000 + (12 - 10)).
Proof.
  apply (X13_forward_fill scenario_recognized [] [11; 12] [13] 10 1000 12).
  - repeat constructor; simpl; lia.
  - reflexivity.
  - reflexivity.
  - lia.
  - lia.
  - intros j [<-|[<-|[]]]; reflexivity.
  - intros j [<-|[<-|[]]]; vm_compute; discriminate.
  - simpl. tauto.
Defined.

Lemma reconcile_NoDup (m : Map Z) : NoDup (map_keys m) -> NoDup (map_keys (reconcile m)).
Proof. intros N. unfold reconcile. now apply reconcile_loop_NoDup. Qed.

Lemma map_set_same {V : Type} (m : Map V) (k : Z) (v : V) :
  map_get m k = Some v -> map_set m k v = m.
Proof.
  induction m as [|[k' v'] m IH]; simpl; [discriminate|].
  destruct (Z.eqb_spec k k') as [->|Ne].
  - now intros [= ->].
  - intros G. now rewrite IH.
Qed.

(** In an ascending list, what is below an entry is no greater than the
    entry just before it. *)
Lemma sorted_below_le_last (pre post : list Z) (k y : Z) :
  StronglySorted Z.lt (pre ++ k :: post) ->
  In y (pre ++ k :: post) -> y < k ->
  pre <> [] /\ y <= last pre 0.
Proof.
  intros S Hy Lt. apply in_app_or in Hy. destruct Hy as [Hy|[->|Hy]].
  - assert (Np : pre <> []) by (intros ->; contradiction).
    split; [exact Np|].
    destruct (exists_last Np) as (p & z & ->). rewrite last_last.
    apply in_app_or in Hy. destruct Hy as [Hy|[<-|[]]]; [|lia].
    destruct (in_split _ _ Hy) as (p1 & p2 & ->).
    rewrite <- !app_assoc in S. cbn [app] in S.
    pose proof (sorted_app_lt p1 (p2 ++ z :: k :: post) y S z
                  ltac:(apply in_or_app; right; now left)). lia.
  - lia.
  - pose proof (sorted_app_lt pre post k S y Hy). lia.
Qed.

Lemma nth_before (pre post : list Z) (k : Z) :
  pre <> [] -> nth (length pre - 1) (pre ++ k :: post) 0 = last pre 0.
Proof.
  intros Np. destruct (exists_last Np) as (p & z & ->).
  rewrite last_last, length_app, <- app_assoc. cbn [length app].
  replace (length p + 1 - 1)%nat with (length p) by lia. apply nth_middle.
Qed.

(** A second pass finds every key as the first pass left it. *)
Lemma reconcile_second_step (m : Map Z) (pre post : list Z) (k : Z) :
  NoDup (map_keys m) ->
  sort_ascending (map_keys (reconcile m)) = pre ++ k :: post ->
  reconcile_step (pre ++ k :: post) (reconcile m) (length pre) k = reconcile m.
Proof.
  intros N E. set (m' := reconcile m) in *.
  assert (N' : NoDup (map_keys m')) by now apply reconcile_NoDup.
  pose proof (sort_ascending_lt _ N') as S'. rewrite E in S'.
  pose proof (sort_ascending_lt _ N) as S.
  destruct (truthy (map_get m' k)) eqn:T; [now apply reconcile_step_recognized|].
  destruct pre as [|p0 pre0] eqn:Ep.
  { unfold reconcile_step. cbn [length Nat.eqb negb]. now rewrite andb_false_r. }
  rewrite <- Ep in *. assert (Np : pre <> []) by (rewrite Ep; discriminate).
  clear Ep p0 pre0.
  assert (Kk' : In k (map_keys m')).
  { apply sort_ascending_In. rewrite E. apply in_or_app. right. now left. }
  assert (Kk : In k (sort_ascending (map_keys m))).
  { apply sort_ascending_In. now apply reconcile_keys_incl. }
  destruct (in_split _ _ Kk) as (pre1 & post1 & E1). rewrite E1 in S.
  assert (Tm : truthy (map_get m k) = false).
  { destruct (truthy (map_get m k)) eqn:Tm; [|reflexivity].
    unfold m', reconcile in T. rewrite reconcile_loop_keeps in T by exact Tm. congruence. }
  pose proof (sorted_last_lt pre post k S' Np) as Ly0.
  assert (Hy0 : In (last pre 0) (pre1 ++ k :: post1)).
  { rewrite <- E1. apply sort_ascending_In, reconcile_keys_incl. fold m'.
    apply sort_ascending_In. rewrite E. apply in_or_app. left.
    destruct (exists_last Np) as (p & z & ->). rewrite last_last.
    apply in_or_app. right. now left. }
  destruct (sorted_below_le_last pre1 post1 k _ S Hy0 Ly0) as [Np1 Le1].
  pose proof (reconcile_entry m pre1 post1 k N E1 Np1 Tm) as Ek. cbn zeta in Ek.
  fold m' in Ek.
  destruct (map_get m' k) as [vk|] eqn:Gk;
    [|apply map_get_None in Gk; contradiction].
  destruct (map_get m' (last pre1 0)) as [prev|] eqn:Gy; [|discriminate].
  destruct (Z.eqb_spec prev 0) as [|Nz]; cbn [negb] in Ek; [discriminate|].
  injection Ek as Ek.
  assert (Hy : In (last pre1 0) (pre ++ k :: post)).
  { rewrite <- E. apply sort_ascending_In. eapply map_get_In_keys; eauto. }
  pose proof (sorted_last_lt pre1 post1 k S Np1) as Ly.
  destruct (sorted_below_le_last pre post k _ S' Hy Ly) as [_ Le].
  assert (Ey : last pre 0 = last pre1 0) by lia.
  unfold reconcile_step. rewrite Gk, nth_before, Ey, Gy by exact Np.
  cbn [truthy] in T |- *. rewrite T.
  destruct (Nat.eqb_spec (length pre) 0) as [L0|_];
    [destruct pre; [congruence | discriminate]|].
  cbn [negb andb]. destruct (Z.eqb_spec prev 0); [contradiction|]. cbn [negb].
  apply map_set_same. now rewrite Gk, Ek.
Qed.

Lemma reconcile_second_loop (m : Map Z) (rest : list Z) :
  NoDup (map_keys m) ->
  forall done,
    sort_ascending (map_keys (reconcile m)) = done ++ rest ->
    reconcile_loop (done ++ rest) (length done) rest (reconcile m) = reconcile m.
Proof.
  intros N. induction rest as [|k rest IH]; intros done E; cbn [reconcile_loop];
    [reflexivity|].
  rewrite reconcile_second_step by assumption.
  specialize (IH (done ++ [k])). rewrite <- app_assoc, length_app in IH.
  cbn [app length] in IH. rewrite Nat.add_1_r in IH. now apply IH.
Qed.

(** X14.  The reconciliation pass is idempotent: a second pass over its
    result changes nothing. *)
Theorem X14_reconcile_idempotent (m : Map Z) :
  NoDup (map_keys m) ->
  nonneg_values m ->
  reconcile (reconcile m) = reconcile m.
Proof.
  intros N _. unfold reconcile at 1.
  apply (reconcile_second_loop m _ N []). reflexivity.
Qed.

Lemma X14_witness :
  reconcile (reconcile scenario_recognized) = reconcile scenario_recognized.
Proof.
  apply (X14_reconcile_idempotent scenario_recognized).
  - repeat constructor; simpl; lia.
  - repeat constructor; simpl; lia.
Defined.

(** ** More on the recovered catalogue *)

Lemma rekey_fold_length (m : Map Z) (frames : Map IvfFrame) :
  forall acc,
    (length (fold_left (rekey_step m) frames acc) <= length acc + length frames)%nat.
Proof.
  induction frames as [|e frames IH]; intros acc; cbn [fold_left length]; [lia|].
  etransitivity; [apply IH|]. unfold rekey_step.
  destruct (map_get m (fst e)) as [r|]; [|lia].
  destruct (negb (r =? 0)); [|lia].
  rewrite map_set_length. destruct (map_has acc r); lia.
Qed.

(** X15.  The recovered catalogue holds original records only, each under
    the non-zero value its container timestamp resolved to, and it is no
    larger than the catalogue it was made from: recovery drops or merges
    frames, it never invents one. *)
Theorem X15_recover_provenance (r : Recognizer) (frames : Map IvfFrame) :
  (length (recover r frames) <= length frames)%nat /\
  forall k f,
    map_get (recover r frames) k = Some f ->
    k <> 0 /\
    exists pts,
      In (pts, f) frames /\
      map_get (reconcile (recognize_all r (map_keys frames))) pts = Some k.
Proof.
  split.
  - unfold recover, rekey. apply (rekey_fold_length _ frames []).
  - intros k f H. apply rekey_provenance in H. destruct H as (pts & I & G & Nk).
    split; [exact Nk|]. eauto.
Qed.

(** ** Chunked execution *)

Section ChunkedFacts.

Context {T R : Type}.
Variable f : T -> nat -> option R.

Lemma map_indexed_app (a b : list T) :
  forall i, map_indexed f i (a ++ b) = map_indexed f i a ++ map_indexed f (i + length a) b.
Proof.
  induction a as [|h a IH]; intros i; cbn [app map_indexed length].
  - now rewrite Nat.add_0_r.
  - rewrite IH. do 3 f_equal. lia.
Qed.

Lemma array_set_hole (pre : list (option R)) (post : list (option R)) (v : R) :
  array_set (pre ++ None :: post) (length pre) v = pre ++ Some v :: post.
Proof. induction pre as [|h pre IH]; cbn; [reflexivity | now rewrite IH]. Qed.

Lemma run_chunk_fills (chunk : list T) :
  forall pre k,
    run_chunk f chunk (length pre) (pre ++ repeat None (length chunk + k)) =
    pre ++ map_indexed f (length pre) chunk ++ repeat None k.
Proof.
  induction chunk as [|item chunk IH]; intros pre k; cbn [run_chunk map_indexed length app].
  - reflexivity.
  - cbn [Nat.add repeat].
    assert (E : (match f item (length pre) with
                 | Some v => array_set (pre ++ None :: repeat None (length chunk + k)) (length pre) v
                 | None => pre ++ None :: repeat None (length chunk + k)
                 end) = (pre ++ [f item (length pre)]) ++ repeat None (length chunk + k)).
    { destruct (f item (length pre)) as [v|].
      - rewrite array_set_hole, <- app_assoc. reflexivity.
      - rewrite <- app_assoc. reflexivity. }
    rewrite E.
    replace (S (length pre)) with (length (pre ++ [f item (length pre)]))
      by (rewrite length_app; cbn; lia).
    rewrite IH, <- app_assoc. reflexivity.
Qed.

Lemma firstn_plus (A : Type) (l : list A) :
  forall n m, firstn (n + m) l = firstn n l ++ firstn m (skipn n l).
Proof.
  induction l as [|h t IH]; intros [|n] m; cbn [Nat.add firstn skipn app];
    try reflexivity.
  - now rewrite firstn_nil.
  - now rewrite IH.
Qed.

Lemma map_indexed_length (items : list T) :
  forall i, length (map_indexed f i items) = length items.
Proof. induction items as [|h t IH]; intros i; cbn; [reflexivity | now rewrite IH]. Qed.

Lemma chunk_loop_completes (items : list T) (chunkSize : nat) :
  (1 <= chunkSize)%nat ->
  forall fuel index,
    (length items - index < fuel)%nat ->
    chunk_loop f fuel items chunkSize index
      (map_indexed f 0 (firstn index items) ++ repeat None (length items - index)) =
    Some (map_indexed f 0 items).
Proof.
  intros C. induction fuel as [|fuel IH]; intros index Hf; [lia|].
  cbn [chunk_loop]. destruct (Nat.ltb_spec index (length items)) as [Hlt|Hge].
  - set (chunk := chunk_of items index chunkSize).
    assert (Lc : length chunk = Nat.min chunkSize (length items - index)).
    { unfold chunk, chunk_of. now rewrite length_firstn, length_skipn. }
    assert (Lp : length (map_indexed f 0 (firstn index items)) = index).
    { rewrite map_indexed_length, length_firstn. lia. }
    replace (length items - index)%nat
      with (length chunk + (length items - (index + chunkSize)))%nat by lia.
    pose proof (run_chunk_fills chunk (map_indexed f 0 (firstn index items))
                  (length items - (index + chunkSize))) as Rn.
    rewrite Lp in Rn. rewrite Rn.
    assert (Ef : firstn (index + chunkSize) items = firstn index items ++ chunk).
    { unfold chunk, chunk_of. apply firstn_plus. }
    rewrite app_assoc.
    replace (map_indexed f 0 (firstn index items) ++ map_indexed f index chunk)
      with (map_indexed f 0 (firstn (index + chunkSize) items)).
    + apply IH. lia.
    + rewrite Ef, map_indexed_app. cbn [Nat.add]. do 2 f_equal.
      rewrite length_firstn. lia.
  - rewrite firstn_all2 by lia.
    replace (length items - index)%nat with 0%nat by lia.
    cbn [repeat]. now rewrite app_nil_r.
Qed.

Lemma chunk_loop_stuck (items : list T) :
  items <> [] ->
  forall fuel results, chunk_loop f fuel items 0 0 results = None.
Proof.
  intros Ne. induction fuel as [|fuel IH]; intros results; [reflexivity|].
  cbn [chunk_loop]. destruct items as [|h t]; [congruence|].
  cbn [length Nat.ltb Nat.leb Nat.add chunk_of firstn run_chunk]. apply IH.
Qed.

End ChunkedFacts.

(** X16.  With a chunk size of at least one the chunked run returns, and its
    result is the callback applied to every item with its own index, in the
    order of the items, whatever the chunk size: a rejected call leaves a
    hole and disturbs no other slot. *)
Theorem X16_chunked_is_indexed_map {T R : Type} (f : T -> nat -> option R)
    (items : list T) (chunkSize fuel : nat) :
  (1 <= chunkSize)%nat ->
  (length items < fuel)%nat ->
  chunkedPromiseAll f fuel items chunkSize = Some (map_indexed f 0 items) /\
  length (map_indexed f 0 items) = length items /\
  forall i item, nth_error items i = Some item ->
                 nth_error (map_indexed f 0 items) i = Some (f item i).
Proof.
  intros C F. split; [|split].
  - unfold chunkedPromiseAll.
    pose proof (chunk_loop_completes f items chunkSize C fuel 0) as H.
    cbn [firstn map_indexed app] in H. rewrite Nat.sub_0_r in H. apply H. lia.
  - apply map_indexed_length.
  - assert (G : forall (l : list T) k i item,
               nth_error l i = Some item ->
               nth_error (map_indexed f k l) i = Some (f item (k + i)%nat)).
    { induction l as [|h t IH]; intros k [|i] item E; cbn in *; try discriminate.
      - injection E as ->. now rewrite Nat.add_0_r.
      - rewrite (IH (S k) i item E). do 2 f_equal. lia. }
    intros i item E. apply (G items 0%nat i item E).
Qed.

Lemma X16_witness :
  chunkedPromiseAll (fun (v : Z) (i : nat) => if v =? 0 then None else Some (v + Z.of_nat i))
    4 [5; 0; 7] 2 = Some [Some 5; None; Some 9].
Proof.
  apply (X16_chunked_is_indexed_map
           (fun (v : Z) (i : nat) => if v =? 0 then None else Some (v + Z.of_nat i))
           [5; 0; 7] 2 4); simpl; lia.
Defined.

(** X17.  With a chunk size of zero the index never advances: over a
    non-empty array the loop does not end, however long it is run. *)
Theorem X17_zero_chunk_never_returns {T R : Type} (f : T -> nat -> option R)
    (items : list T) (fuel : nat) :
  items <> [] ->
  chunkedPromiseAll f fuel items 0 = None.
Proof.
  intros Ne. unfold chunkedPromiseAll. now apply chunk_loop_stuck.
Qed.

Lemma X17_witness :
  chunkedPromiseAll (fun (v : Z) (_ : nat) => Some v) 1000 [5; 0; 7] 0 = None.
Proof.
  apply (X17_zero_chunk_never_returns (fun (v : Z) (_ : nat) => Some v) [5; 0; 7] 1000).
  discriminate.
Defined.

(** ** The graph as a whole *)

Module VmafGraphTotals.

Import VmafGraph.

Lemma add_to_last_labels (prev l : list Point) (v : number) :
  add_to_last prev v = Some l -> map x l = map x prev.
Proof.
  revert l. induction prev as [|p prev IH]; intros l H; cbn [add_to_last] in H;
    [discriminate|].
  destruct prev as [|p' prev'].
  - injection H as <-. reflexivity.
  - destruct (add_to_last (p' :: prev') v) as [l'|] eqn:E; [|discriminate].
    injection H as <-. cbn [map]. now rewrite (IH l' eq_refl).
Qed.

Lemma reduce_labels (frameRate : Q) (frames : list VmafFrame) :
  forall prev pts,
    reduce frameRate frames prev = Some pts ->
    map x pts = map x prev ++ map frameNum (filter (opens_bucket frameRate) frames).
Proof.
  induction frames as [|cur frames IH]; intros prev pts H; cbn [reduce] in H.
  - injection H as <-. cbn. now rewrite app_nil_r.
  - destruct (bucket_step frameRate prev cur) as [prev'|] eqn:B; [|discriminate].
    rewrite (IH _ _ H). unfold bucket_step in B.
    cbn [filter]. destruct (opens_bucket frameRate cur).
    + injection B as <-. rewrite map_app, <- app_assoc. reflexivity.
    + now rewrite (add_to_last_labels _ _ _ B).
Qed.

(** X18.  When the fold completes, the labels of the graph are the numbers
    of the frames that open a bucket, in order: one bucket for each of them
    and no other. *)
Theorem X18_graph_labels (frameRate : Q) (frames : list VmafFrame) (pts : list Point) :
  bucket_series frameRate frames = Some pts ->
  map x pts = map frameNum (filter (opens_bucket frameRate) frames) /\
  length pts = length (filter (opens_bucket frameRate) frames).
Proof.
  intros H. pose proof (reduce_labels frameRate frames [] pts H) as Hx.
  cbn [map app] in Hx. split; [exact Hx|].
  rewrite <- (length_map x pts), Hx. apply length_map.
Qed.

Lemma X18_witness :
  map x [{| x := 0; y := Finite 15 |}; {| x := 2; y := Finite 15 |}]
  = map frameNum (filter (opens_bucket 2) short_series) /\
  length [{| x := 0; y := Finite 15 |}; {| x := 2; y := Finite 15 |}]
  = length (filter (opens_bucket 2) short_series).
Proof.
  apply (X18_graph_labels 2 short_series). vm_compute. reflexivity.
Defined.

End VmafGraphTotals.

Lemma X15_witness :
  (length (recover example_recognizer collision_catalogue) <= 2)%nat.
Proof. apply (X15_recover_provenance example_recognizer collision_catalogue). Defined.

(** ** Alignment of two repaired recordings *)

(** X19.  For two repaired recordings with timestamps within 2^53 the
    offset [runVmaf] seeks by is defined, and it is the difference of the
    first recognized timestamps of the two captures. *)
Theorem X19_alignment_offset (reference degraded : list byte) (r r' : Recognizer)
    (ref_out deg_out : RepairedStream) :
  fixIvfFrames reference r = Ok ref_out ->
  fixIvfFrames degraded r' = Ok deg_out ->
  repaired_startPts ref_out + repaired_writtenFrames ref_out <= 2 ^ 53 ->
  repaired_startPts deg_out + repaired_writtenFrames deg_out <= 2 ^ 53 ->
  exists ref_info deg_info,
    parseIvf (file_of_writes (repaired_writes ref_out)) false r = Ok ref_info /\
    parseIvf (file_of_writes (repaired_writes deg_out)) false r' = Ok deg_info /\
    ptsDiff ref_info deg_info
    = Some (repaired_startPts deg_out - repaired_startPts ref_out).
Proof.
  intros Hr Hd Br Bd.
  destruct (reparse_index reference r r ref_out Hr Br) as (ri & Pr & Er & Sr).
  destruct (reparse_index degraded r' r' deg_out Hd Bd) as (di & Pd & Ed & Sd).
  destruct (repair_returns reference r ref_out Hr)
    as (ir & _ & _ & _ & Hsr & Pr0 & _ & Gr).
  destruct (repair_returns degraded r' deg_out Hd)
    as (id & _ & _ & _ & Hsd & Pd0 & _ & Gd).
  rewrite <- Hsr in Pr0. rewrite <- Hsd in Pd0.
  exists ri, di. split; [exact Pr|]. split; [exact Pd|].
  unfold ptsDiff.
  destruct (ptsIndex di) as [|d dl] eqn:Di.
  - destruct (Z.to_nat (repaired_writtenFrames deg_out)) eqn:Z0; [lia|].
    cbn in Ed. discriminate.
  - destruct (ptsIndex ri) as [|q ql] eqn:Ri.
    + destruct (Z.to_nat (repaired_writtenFrames ref_out)) eqn:Z0; [lia|].
      cbn in Er. discriminate.
    + cbn [hd] in Sr, Sd. subst d q. f_equal.
      assert (P64 : 2 ^ 64 = 2048 * 2 ^ 53) by reflexivity.
      pose proof (Z.pow_pos_nonneg 2 53 ltac:(lia) ltac:(lia)).
      apply js_minus_exact; lia.
Qed.

Lemma X19_witness :
  exists ref_info deg_info,
    parseIvf (file_of_writes (repaired_writes example_repaired)) false example_recognizer
    = Ok ref_info /\
    parseIvf (file_of_writes (repaired_writes example_repaired)) false example_recognizer
    = Ok deg_info /\
    ptsDiff ref_info deg_info
    = Some (repaired_startPts example_repaired - repaired_startPts example_repaired).
Proof.
  apply (X19_alignment_offset example_file example_file example_recognizer
           example_recognizer example_repaired example_repaired).
  - vm_compute. reflexivity.
  - vm_compute. reflexivity.
  - vm_compute. discriminate.
  - vm_compute. discriminate.
Defined.

(** ** A gap across 2^53 *)

Lemma fill_gap_stuck (pts p : Z) :
  js_plus p 1 = p ->
  is_infinite p = false ->
  (js_minus (js_minus pts p) 1 >? 0) = true ->
  forall fuel buffer st,
    previousPts st = p -> fill_gap fuel pts buffer st = Throw OutOfFuel.
Proof.
  intros Same Fin Gap. induction fuel as [|fuel IH]; intros buffer st E;
    cbn [fill_gap]; rewrite E, Gap; [reflexivity|].
  rewrite Same, Fin. now apply IH.
Qed.

(** X20.  Once [previousPts] is 2^53 and the frame at hand has a timestamp
    of 2^53 + 2 or more, the gap loop does not end: [previousPts += 1]
    leaves 2^53, the condition of the loop stays true, and the same
    duplicate is written again; no budget is enough. *)
Theorem X20_gap_loop_never_ends (fuel : nat) (pts : Z) (buffer : list byte)
    (st : RepairState) :
  previousPts st = 2 ^ 53 ->
  2 ^ 53 + 2 <= pts ->
  fill_gap fuel pts buffer st = Throw OutOfFuel.
Proof.
  intros E L. apply (fill_gap_stuck pts (2 ^ 53)); [reflexivity | reflexivity | | exact E].
  pose proof (Z.pow_pos_nonneg 2 53 ltac:(lia) ltac:(lia)) as P53.
  assert (A : 2 <= js_minus pts (2 ^ 53)).
  { unfold js_minus. apply js_plus_lower; [lia | reflexivity | lia | lia]. }
  assert (B : 1 <= js_minus (js_minus pts (2 ^ 53)) 1).
  { unfold js_minus at 1. apply js_plus_lower; [lia | reflexivity | lia | lia]. }
  apply Z.gtb_lt. lia.
Qed.

Lemma X20_witness :
  fill_gap 1000 (2 ^ 53 + 2) (ivf_frame (2 ^ 53) [x01])
    {| out_position := 45; writtenFrames := 1; startPts := 2 ^ 53;
       previousPts := 2 ^ 53; previousFrame := Some (ivf_frame (2 ^ 53) [x01]);
       duplicatedFrames := 0;
       writes := [{| site := CurrentFrame; offset := 32;
                     bytes := ivf_frame (2 ^ 53) [x01] |}] |}
  = Throw OutOfFuel.
Proof.
  apply X20_gap_loop_never_ends; [reflexivity|]. lia.
Defined.

Lemma X1_witness : parseIvf [] false example_recognizer = Throw InvalidIvfFile.
Proof.
  apply (X1_parse_fails_iff_header_short [] false example_recognizer InvalidIvfFile).
  split; [simpl; lia | reflexivity].
Defined.
